(** * A shallow embedding of the Decaf recursive-descent parser (p2-parser.c)

    The parser consumes a queue of tokens and builds an AST.  Every rule of
    the C source is a function [TokenQueue* -> ASTNode*] that mutates the
    queue and may abort through [Error_throw_printf].  Here a rule is a
    computation in a state-and-error monad over the queue; the C [while]
    loops are iterated by a bounded loop combinator and the recursion through
    the prototypes [parse_expr] and [parse_block] is tied by a depth
    counter. *)

From Stdlib Require Import ZArith List String Ascii Bool Lia.
Import ListNotations.

Set Warnings "-register-all".

Local Open Scope string_scope.
Local Open Scope Z_scope.

(** ** Tokens *)

(** Modelled from the spec: the token of token.h, which is not part of the
    parser's source, with the names the source uses for the six token types
    (identifier, decimal, hex and string literal, keyword, symbol) and for
    the fields [type], [text] and [line]. *)
Inductive TokenType := ID | DECLIT | HEXLIT | STRLIT | KEY | SYM.

Definition TokenType_eqb (a b : TokenType) : bool :=
  match a, b with
  | ID, ID | DECLIT, DECLIT | HEXLIT, HEXLIT
  | STRLIT, STRLIT | KEY, KEY | SYM, SYM => true
  | _, _ => false
  end.

Record Token := mkToken { type : TokenType; text : string; line : Z }.

(** Modelled from the spec: the Token Cursor of token.h (TokenQueue and its
    [TokenQueue_is_empty], [TokenQueue_peek], [TokenQueue_remove]) is not
    part of the parser's source.  It is the FIFO sequence of the data model:
    a list whose head is the next token, [head->next] being the second
    element. *)
Definition TokenQueue := list Token.

(** Modelled from the spec: [token_str_eq] of token.h compares two token
    texts for equality. *)
Definition token_str_eq (a b : string) : bool := String.eqb a b.

(** Modelled from the spec: the identifier bound of the declarations that
    are not part of the parser's source ("a fixed maximum, e.g. 256 bytes,
    truncating"). *)
Definition MAX_ID_LEN : nat := 256.

(** ** AST nodes *)

(** Modelled from the spec: the types and operators of ast.h, under the
    names the source uses. *)
Inductive DecafType := INT | BOOL | VOID.

Inductive UnaryOpType := NEGOP | NOTOP.

Inductive BinaryOpType :=
| OROP | ANDOP | EQOP | NEQOP | LTOP | LEOP | GEOP | GTOP
| ADDOP | SUBOP | MULOP | DIVOP | MODOP.

Inductive Literal :=
| IntLit (i : Z)
| BoolLit (b : bool)
| StrLit (s : string).

Record Param := mkParam { param_name : string; param_type : DecafType }.

(** Modelled from the spec: the node model of ast.h.  One constructor per
    [XNode_new] of the source, with the arguments the source passes; a
    pointer that may be NULL ([else_block], the value of a return, the index
    of a location) is an [option]. *)
Inductive ASTNode :=
| ProgramNode (variables functions : list ASTNode)
| VarDeclNode (name : string) (ty : DecafType) (is_array : bool)
              (array_length : Z) (ln : Z)
| FuncDeclNode (name : string) (return_type : DecafType)
               (parameters : list Param) (body : ASTNode) (ln : Z)
| BlockNode (variables statements : list ASTNode) (ln : Z)
| AssignmentNode (location value : ASTNode) (ln : Z)
| ConditionalNode (condition if_block : ASTNode)
                  (else_block : option ASTNode) (ln : Z)
| WhileLoopNode (condition body : ASTNode) (ln : Z)
| ReturnNode (value : option ASTNode) (ln : Z)
| BreakNode (ln : Z)
| ContinueNode (ln : Z)
| BinaryOpNode (op : BinaryOpType) (left right : ASTNode) (ln : Z)
| UnaryOpNode (op : UnaryOpType) (child : ASTNode) (ln : Z)
| LocationNode (name : string) (index : option ASTNode) (ln : Z)
| FuncCallNode (name : string) (arguments : list ASTNode) (ln : Z)
| LiteralNode (value : Literal) (ln : Z).

Definition LiteralNode_new_int (i : Z) (ln : Z) := LiteralNode (IntLit i) ln.
Definition LiteralNode_new_bool (b : bool) (ln : Z) := LiteralNode (BoolLit b) ln.
Definition LiteralNode_new_string (s : string) (ln : Z) := LiteralNode (StrLit s) ln.

(** ** Outcomes *)

(** An argument of a printf-style format: [%s] or [%d]. *)
Inductive printf_arg := arg_s (s : string) | arg_d (d : Z).

(** Modelled from the spec: [Error_throw_printf] raises an error that
    aborts the parse.  The error is recorded as what it was called with: the
    format string and the evaluated arguments. *)
Record Error := mkError { fmt : string; args : list printf_arg }.

(** A rule returns a value, aborts with the error thrown, runs into
    undefined behaviour (a read through a null or out-of-bounds pointer), or
    exhausts the depth counter of the model. *)
Inductive result (A : Type) :=
| OK (a : A)
| Throw (e : Error)
| Undefined
| OutOfFuel.
Arguments OK {A} a.
Arguments Throw {A} e.
Arguments Undefined {A}.
Arguments OutOfFuel {A}.

(** ** The parser monad: the queue is threaded, errors abort *)

Definition M (A : Type) := TokenQueue -> result (A * TokenQueue).

Definition ret {A} (a : A) : M A := fun q => OK (a, q).

Definition bind {A B} (m : M A) (f : A -> M B) : M B :=
  fun q =>
    match m q with
    | OK (a, q') => f a q'
    | Throw e => Throw e
    | Undefined => Undefined
    | OutOfFuel => OutOfFuel
    end.

Notation "x <- m ;; k" := (bind m (fun x => k))
  (at level 61, m at next level, right associativity).
Notation "m ;;; k" := (bind m (fun _ => k))
  (at level 61, right associativity).

Definition Error_throw_printf {A} (f : string) (a : list printf_arg) : M A :=
  fun _ => Throw (mkError f a).

Definition undefined {A} : M A := fun _ => Undefined.
Definition out_of_fuel {A} : M A := fun _ => OutOfFuel.

(** Short-circuit [||] and [&&] of C over conditions that read the queue. *)
Definition orM (a b : M bool) : M bool :=
  x <- a ;; if x then ret true else b.
Definition andM (a b : M bool) : M bool :=
  x <- a ;; if x then b else ret false.
Definition notM (a : M bool) : M bool := x <- a ;; ret (negb x).

Infix "|||" := orM (at level 50, left associativity).
Infix "&&&" := andM (at level 40, left associativity).

(** [while (cond) body]: the loop state is threaded through [body]; [k]
    bounds the number of iterations. *)
Fixpoint while_loop {St} (k : nat) (cond : M bool) (body : St -> M St)
         (s : St) : M St :=
  c <- cond ;;
  if c then
    match k with
    | O => out_of_fuel
    | S k' => s' <- body s ;; while_loop k' cond body s'
    end
  else ret s.

(** Every loop body of the parser consumes a token or aborts, so one more
    iteration than there are tokens left is never reached. *)
Definition while {St} (cond : M bool) (body : St -> M St) (s : St) : M St :=
  fun q => while_loop (S (List.length q)) cond body s q.

(** ** Characters and C strings *)

Definition LF : string := String (ascii_of_nat 10) EmptyString.
Definition TAB : string := String (ascii_of_nat 9) EmptyString.
Definition BACKSLASH : string := String (ascii_of_nat 92) EmptyString.
Definition DQUOTE : string := String (ascii_of_nat 34) EmptyString.

Fixpoint take (n : nat) (s : string) : string :=
  match n, s with
  | S n', String c s' => String c (take n' s')
  | _, _ => EmptyString
  end.

Fixpoint drop (n : nat) (s : string) : string :=
  match n, s with
  | S n', String _ s' => drop n' s'
  | _, _ => s
  end.

Fixpoint removelast (s : string) : string :=
  match s with
  | EmptyString => EmptyString
  | String c EmptyString => EmptyString
  | String c s' => String c (removelast s')
  end.

(** [snprintf(buffer, n, "%s", s)]: at most [n - 1] characters are stored. *)
Definition snprintf_s (n : nat) (s : string) : string := take (n - 1) s.

(** [strstr(s, sub)] as the offset of the first occurrence. *)
Fixpoint strstr (s sub : string) : option nat :=
  if String.prefix sub s then Some O
  else match s with
       | EmptyString => None
       | String _ s' => option_map S (strstr s' sub)
       end.

(** [strncat(dest, src, n)] appends at most [n] characters of [src] to the
    string [dest] and ends the result with a null character.  A copy between
    objects that overlap is undefined.  [src_follows] tells where the source
    lies: [false], in an object of its own; [true], in the buffer of [dest],
    one byte behind the null that ends [dest].  There each character is
    written to the byte before the one it is read from, so the source and
    the destination overlap as soon as one character is copied.  With
    nothing to copy only the null is written, on the byte that held the null
    of [dest], which the source does not reach. *)
Definition strncat (src_follows : bool) (dest src : string) (n : nat)
  : option string :=
  match src_follows, take n src with
  | true, String _ _ => None
  | _, copied => Some (dest ++ copied)
  end.

(** *** strtol and the conversion to int

    [strtol] is the function of the C library; long is taken to have 64
    bits and int 32 (the LP64 data model). *)

Definition LONG_MAX : Z := 2 ^ 63 - 1.
Definition LONG_MIN : Z := - 2 ^ 63.

Definition isspace (c : ascii) : bool :=
  let n := nat_of_ascii c in
  (Nat.eqb n 32 || (Nat.leb 9 n && Nat.leb n 13))%bool.

Definition digit_value (c : ascii) : option Z :=
  let n := Z.of_nat (nat_of_ascii c) in
  if (48 <=? n) && (n <=? 57) then Some (n - 48)
  else if (97 <=? n) && (n <=? 122) then Some (n - 97 + 10)
  else if (65 <=? n) && (n <=? 90) then Some (n - 65 + 10)
  else None.

Definition is_digit (base : Z) (c : ascii) : bool :=
  match digit_value c with
  | Some d => d <? base
  | None => false
  end.

Fixpoint skip_space (s : string) : string :=
  match s with
  | String c s' => if isspace c then skip_space s' else s
  | EmptyString => s
  end.

(** The digits of the subject sequence, most significant first. *)
Fixpoint accumulate (base : Z) (acc : Z) (s : string) : Z :=
  match s with
  | String c s' =>
      match digit_value c with
      | Some d => if d <? base then accumulate base (acc * base + d) s' else acc
      | None => acc
      end
  | EmptyString => acc
  end.

(** An optional 0x or 0X before the digits when the base is 16. *)
Definition skip_0x (base : Z) (s : string) : string :=
  match s with
  | String c0 (String cx (String c s')) =>
      if (base =? 16) && Ascii.eqb c0 "0"
         && (Ascii.eqb cx "x" || Ascii.eqb cx "X") && is_digit 16 c
      then String c s' else s
  | _ => s
  end.

Definition clamp_long (v : Z) : Z := Z.max LONG_MIN (Z.min LONG_MAX v).

(** [strtol(s, NULL, base)] on a host whose long has 64 bits: white space,
    an optional sign, the digits; a value out of range is LONG_MAX or
    LONG_MIN; no digits give 0. *)
Definition strtol (s : string) (base : Z) : Z :=
  let s1 := skip_space s in
  match s1 with
  | String "-" s2 => clamp_long (- accumulate base 0 (skip_0x base s2))
  | String "+" s2 => clamp_long (accumulate base 0 (skip_0x base s2))
  | _ => clamp_long (accumulate base 0 (skip_0x base s1))
  end.

(** The cast [(int)] of a long: reduction modulo 2^32 into the signed
    range. *)
Definition int_of_long (v : Z) : Z := (v + 2 ^ 31) mod 2 ^ 32 - 2 ^ 31.

(** ** Token cursor *)

Definition TokenQueue_is_empty : M bool :=
  fun q => OK (match q with [] => true | _ => false end, q).

(** Modelled from the spec: [TokenQueue_peek] and [TokenQueue_remove] of
    token.h; on an empty sequence they fail with UnexpectedEndOfInput.  The
    parser tests for emptiness before nearly every use. *)
Definition TokenQueue_peek : M Token :=
  fun q =>
    match q with
    | [] => Throw (mkError ("Unexpected end of input" ++ LF) [])
    | t :: _ => OK (t, q)
    end.

Definition TokenQueue_remove : M Token :=
  fun q =>
    match q with
    | [] => Throw (mkError ("Unexpected end of input" ++ LF) [])
    | t :: q' => OK (t, q')
    end.

(** [input->head->next->text]: the text of the second node of the queue.
    With fewer than two nodes the read goes through a null pointer. *)
Definition head_next_text : M string :=
  fun q =>
    match q with
    | _ :: t2 :: _ => OK (text t2, q)
    | _ => Undefined
    end.

(** ** Helper functions *)

Definition get_next_token_line : M Z :=
  e <- TokenQueue_is_empty ;;
  if e then Error_throw_printf ("Unexpected end of input" ++ LF) []
  else t <- TokenQueue_peek ;; ret (line t).

Definition match_and_discard_next_token (ty : TokenType) (txt : string)
  : M unit :=
  e <- TokenQueue_is_empty ;;
  if e then
    Error_throw_printf ("Unexpected end of input (expected '%s')" ++ LF)
                       [arg_s txt]
  else
    token <- TokenQueue_remove ;;
    if negb (TokenType_eqb (type token) ty)
       || negb (token_str_eq (text token) txt)
    then
      l <- get_next_token_line ;;
      Error_throw_printf ("Expected '%s' but found '%s' on line %d" ++ LF)
                         [arg_s txt; arg_s (text token); arg_d l]
    else ret tt.

Definition discard_next_token : M unit :=
  e <- TokenQueue_is_empty ;;
  if e then Error_throw_printf ("Unexpected end of input" ++ LF) []
  else TokenQueue_remove ;;; ret tt.

Definition check_next_token_type (ty : TokenType) : M bool :=
  e <- TokenQueue_is_empty ;;
  if e then ret false
  else token <- TokenQueue_peek ;; ret (TokenType_eqb (type token) ty).

Definition check_next_token (ty : TokenType) (txt : string) : M bool :=
  e <- TokenQueue_is_empty ;;
  if e then ret false
  else
    token <- TokenQueue_peek ;;
    ret (TokenType_eqb (type token) ty && token_str_eq (text token) txt).

(** ** Primitive parsers *)

Definition parse_type : M DecafType :=
  e <- TokenQueue_is_empty ;;
  if e then
    Error_throw_printf
      ("Unexpected end of input (expected int, bool, or void)" ++ LF) []
  else
    token <- TokenQueue_remove ;;
    (if negb (TokenType_eqb (type token) KEY) then
       l <- get_next_token_line ;;
       Error_throw_printf ("Invalid type '%s' on line %d" ++ LF)
                          [arg_s (text token); arg_d l]
     else ret tt) ;;;
    if token_str_eq "int" (text token) then ret INT
    else if token_str_eq "bool" (text token) then ret BOOL
    else if token_str_eq "void" (text token) then ret VOID
    else
      l <- get_next_token_line ;;
      Error_throw_printf ("Invalid type '%s' on line %d" ++ LF)
                         [arg_s (text token); arg_d l].

(** The identifier is returned instead of being written to [buffer]. *)
Definition parse_id : M string :=
  e <- TokenQueue_is_empty ;;
  if e then
    Error_throw_printf ("Unexpected end of input (expected id token)" ++ LF) []
  else
    token <- TokenQueue_remove ;;
    (if negb (TokenType_eqb (type token) ID) then
       l <- get_next_token_line ;;
       Error_throw_printf ("Invalid ID '%s' on line %d" ++ LF)
                          [arg_s (text token); arg_d l]
     else ret tt) ;;;
    ret (snprintf_s MAX_ID_LEN (text token)).

Definition parse_vardecl : M ASTNode :=
  e <- TokenQueue_is_empty ;;
  if e then
    Error_throw_printf ("Unexpected end of input (expected type)" ++ LF) []
  else
    l <- get_next_token_line ;;
    ty <- parse_type ;;
    buffer <- parse_id ;;
    b <- check_next_token SYM "[" ;;
    n <- (if b then
            match_and_discard_next_token SYM "[" ;;;
            token <- TokenQueue_remove ;;
            let len := int_of_long (strtol (text token) 10) in
            match_and_discard_next_token SYM "]" ;;;
            ret (VarDeclNode buffer ty true len l)
          else ret (VarDeclNode buffer ty false 1 l)) ;;
    match_and_discard_next_token SYM ";" ;;;
    ret n.

Definition parse_params : M (list Param) :=
  e <- TokenQueue_is_empty ;;
  if e then
    Error_throw_printf ("Unexpected end of input (expected type)" ++ LF) []
  else
    ty <- parse_type ;;
    buffer <- parse_id ;;
    let params := [mkParam buffer ty] in
    b <- check_next_token SYM "," ;;
    if b then
      while (notM (check_next_token SYM ")"))
            (fun params =>
               match_and_discard_next_token SYM "," ;;;
               ty <- parse_type ;;
               buffer <- parse_id ;;
               ret (params ++ [mkParam buffer ty])%list)
            params
    else ret params.

(** The text of a string literal between its first and its last character;
    a text shorter than the two quotes is read out of bounds. *)
Definition strip_quotes (txt : string) : option string :=
  match txt with
  | String _ (String c p) => Some (removelast (String c p))
  | _ => None
  end.

(** The splice of [parse_lit] at the offset [i] of an escape in the buffer
    [p]: [p[p2 - p] = 0] ends the string at [i]; [p2 = p2 + 2] is the text
    behind the escape; [strncat(p, escp, 3)] appends the character [escp],
    a string constant, which puts the null at [i + 1]; and
    [strncat(p, p2, strlen(p2) + 1)] appends the text behind the escape,
    which lies in the same buffer from [i + 2] on.  [None] is undefined
    behaviour. *)
Definition splice_escape (p : string) (i : nat) (escp : string)
  : option string :=
  let p2 := drop (i + 2) p in
  match strncat false (take i p) escp 3 with
  | Some p1 => strncat true p1 p2 (String.length p2 + 1)
  | None => None
  end.

(** The escape handling of [parse_lit]: the first of the four [strstr]
    tests that finds something decides the splice; with no escape the text
    is returned as it is. *)
Definition fix_escape (p : string) : option string :=
  match strstr p (BACKSLASH ++ "n") with
  | Some i => splice_escape p i LF
  | None =>
  match strstr p (BACKSLASH ++ "t") with
  | Some i => splice_escape p i TAB
  | None =>
  match strstr p (BACKSLASH ++ BACKSLASH) with
  | Some i => splice_escape p i BACKSLASH
  | None =>
  match strstr p (BACKSLASH ++ DQUOTE) with
  | Some i => splice_escape p i DQUOTE
  | None => Some p
  end end end end.

Definition parse_lit : M ASTNode :=
  e <- TokenQueue_is_empty ;;
  if e then
    Error_throw_printf
      ("Unexpected end of input (expected DEC, HEX, STR, false, or true)" ++ LF)
      []
  else
    l <- get_next_token_line ;;
    dec <- check_next_token_type DECLIT ;;
    if dec then
      token <- TokenQueue_remove ;;
      let i := int_of_long (strtol (text token) 10) in
      ret (LiteralNode_new_int i l)
    else
      hex <- check_next_token_type HEXLIT ;;
      if hex then
        token <- TokenQueue_remove ;;
        let h := int_of_long (strtol (text token) 16) in
        ret (LiteralNode_new_int h l)
      else
        key <- check_next_token_type KEY ;;
        if key then
          t <- check_next_token KEY "true" ;;
          if t then TokenQueue_remove ;;; ret (LiteralNode_new_bool true l)
          else TokenQueue_remove ;;; ret (LiteralNode_new_bool false l)
        else
          token <- TokenQueue_remove ;;
          match strip_quotes (text token) with
          | None => undefined
          | Some p =>
              match fix_escape p with
              | None => undefined
              | Some s => ret (LiteralNode_new_string s l)
              end
          end.

(** ** Grammar rules

    [parse_expr] and [parse_block] are the prototypes the source declares
    ahead of the rules because of the mutual recursion; the rules are written
    against them and the knot is tied afterwards. *)

Section Rules.

Variable parse_expr : M ASTNode.
Variable parse_block : M ASTNode.

Definition parse_args : M (list ASTNode) :=
  e <- TokenQueue_is_empty ;;
  if e then
    Error_throw_printf ("Unexpected end of input (expected expr)" ++ LF) []
  else
    expr <- parse_expr ;;
    let args := [expr] in
    b <- check_next_token SYM "," ;;
    if b then
      while (notM (check_next_token SYM ")"))
            (fun args =>
               match_and_discard_next_token SYM "," ;;;
               expr <- parse_expr ;;
               ret (args ++ [expr])%list)
            args
    else ret args.

Definition parse_funccall : M ASTNode :=
  e <- TokenQueue_is_empty ;;
  if e then
    Error_throw_printf ("Unexpected end of input (expected ID)" ++ LF) []
  else
    l <- get_next_token_line ;;
    buffer <- parse_id ;;
    match_and_discard_next_token SYM "(" ;;;
    b <- check_next_token SYM ")" ;;
    args <- (if negb b then parse_args else ret []) ;;
    match_and_discard_next_token SYM ")" ;;;
    ret (FuncCallNode buffer args l).

Definition parse_loc : M ASTNode :=
  e <- TokenQueue_is_empty ;;
  if e then
    Error_throw_printf ("Location expected but not found at line 1" ++ LF) []
  else
    l <- get_next_token_line ;;
    buffer <- parse_id ;;
    b <- check_next_token SYM "[" ;;
    if b then
      match_and_discard_next_token SYM "[" ;;;
      index <- parse_expr ;;
      match_and_discard_next_token SYM "]" ;;;
      ret (LocationNode buffer (Some index) l)
    else ret (LocationNode buffer None l).

(** The test shared by [parse_base_expr] and [parse_statement]:
    [check_next_token_type(input, ID) &&
     token_str_eq(input->head->next->text, "(")]. *)
Definition id_then_paren : M bool :=
  check_next_token_type ID
  &&& (s <- head_next_text ;; ret (token_str_eq s "(")).

Definition parse_base_expr : M ASTNode :=
  e <- TokenQueue_is_empty ;;
  if e then
    Error_throw_printf
      "Unexpected end of input (expected another expression, location, function call, or literal"
      []
  else
    l <- get_next_token_line ;;
    b <- check_next_token SYM "(" ;;
    if b then
      match_and_discard_next_token SYM "(" ;;;
      n <- parse_expr ;;
      match_and_discard_next_token SYM ")" ;;;
      ret n
    else
      b <- id_then_paren ;;
      if b then parse_funccall
      else
        b <- check_next_token_type ID ;;
        if b then parse_loc
        else
          b <- (check_next_token_type DECLIT ||| check_next_token_type HEXLIT
                ||| check_next_token_type STRLIT
                ||| check_next_token KEY "true"
                ||| check_next_token KEY "false") ;;
          if b then parse_lit
          else
            t <- TokenQueue_remove ;;
            Error_throw_printf
              ("Invalid base expression '%s' on line %d" ++ LF)
              [arg_s (text t); arg_d l].

Definition parse_neg : M ASTNode :=
  e <- TokenQueue_is_empty ;;
  if e then
    Error_throw_printf
      ("Unexpected end of input (expected unary operator: - or !)" ++ LF) []
  else
    l <- get_next_token_line ;;
    b <- (check_next_token SYM "-" ||| check_next_token SYM "!") ;;
    if b then
      b <- check_next_token SYM "-" ;;
      if b then
        match_and_discard_next_token SYM "-" ;;;
        child <- parse_base_expr ;;
        ret (UnaryOpNode NEGOP child l)
      else
        match_and_discard_next_token SYM "!" ;;;
        child <- parse_base_expr ;;
        ret (UnaryOpNode NOTOP child l)
    else parse_base_expr.

Definition parse_mult : M ASTNode :=
  e <- TokenQueue_is_empty ;;
  if e then Error_throw_printf ("Unexpected end of input" ++ LF) []
  else
    l <- get_next_token_line ;;
    root <- parse_neg ;;
    while (check_next_token SYM "*" ||| check_next_token SYM "/"
           ||| check_next_token SYM "%")
          (fun root =>
             b <- check_next_token SYM "*" ;;
             if b then
               match_and_discard_next_token SYM "*" ;;;
               right <- parse_neg ;;
               ret (BinaryOpNode MULOP root right l)
             else
               b <- check_next_token SYM "/" ;;
               if b then
                 match_and_discard_next_token SYM "/" ;;;
                 right <- parse_neg ;;
                 ret (BinaryOpNode DIVOP root right l)
               else
                 match_and_discard_next_token SYM "%" ;;;
                 right <- parse_neg ;;
                 ret (BinaryOpNode MODOP root right l))
          root.

Definition parse_arith : M ASTNode :=
  e <- TokenQueue_is_empty ;;
  if e then Error_throw_printf ("Unexpected end of input" ++ LF) []
  else
    l <- get_next_token_line ;;
    root <- parse_mult ;;
    while (check_next_token SYM "+" ||| check_next_token SYM "-")
          (fun root =>
             b <- check_next_token SYM "+" ;;
             if b then
               match_and_discard_next_token SYM "+" ;;;
               right <- parse_mult ;;
               ret (BinaryOpNode ADDOP root right l)
             else
               match_and_discard_next_token SYM "-" ;;;
               right <- parse_mult ;;
               ret (BinaryOpNode SUBOP root right l))
          root.

Definition parse_relational : M ASTNode :=
  e <- TokenQueue_is_empty ;;
  if e then Error_throw_printf ("Unexpected end of input" ++ LF) []
  else
    l <- get_next_token_line ;;
    root <- parse_arith ;;
    while (check_next_token SYM "<" ||| check_next_token SYM "<="
           ||| check_next_token SYM ">" ||| check_next_token SYM ">=")
          (fun root =>
             b <- check_next_token SYM "<" ;;
             if b then
               match_and_discard_next_token SYM "<" ;;;
               right <- parse_arith ;;
               ret (BinaryOpNode LTOP root right l)
             else
               b <- check_next_token SYM "<=" ;;
               if b then
                 match_and_discard_next_token SYM "<=" ;;;
                 right <- parse_arith ;;
                 ret (BinaryOpNode LEOP root right l)
               else
                 b <- check_next_token SYM ">" ;;
                 if b then
                   match_and_discard_next_token SYM ">" ;;;
                   right <- parse_arith ;;
                   ret (BinaryOpNode GTOP root right l)
                 else
                   match_and_discard_next_token SYM ">=" ;;;
                   right <- parse_arith ;;
                   ret (BinaryOpNode GEOP root right l))
          root.

Definition parse_equality : M ASTNode :=
  e <- TokenQueue_is_empty ;;
  if e then Error_throw_printf ("Unexpected end of input" ++ LF) []
  else
    l <- get_next_token_line ;;
    root <- parse_relational ;;
    while (check_next_token SYM "==" ||| check_next_token SYM "!=")
          (fun root =>
             b <- check_next_token SYM "==" ;;
             if b then
               match_and_discard_next_token SYM "==" ;;;
               right <- parse_relational ;;
               ret (BinaryOpNode EQOP root right l)
             else
               match_and_discard_next_token SYM "!=" ;;;
               right <- parse_relational ;;
               ret (BinaryOpNode NEQOP root right l))
          root.

Definition parse_and : M ASTNode :=
  e <- TokenQueue_is_empty ;;
  if e then Error_throw_printf ("Unexpected end of input" ++ LF) []
  else
    l <- get_next_token_line ;;
    root <- parse_equality ;;
    while (check_next_token SYM "&&")
          (fun root =>
             b <- check_next_token SYM "&&" ;;
             if b then
               match_and_discard_next_token SYM "&&" ;;;
               right <- parse_equality ;;
               ret (BinaryOpNode ANDOP root right l)
             else ret root)
          root.

Definition parse_or : M ASTNode :=
  e <- TokenQueue_is_empty ;;
  if e then Error_throw_printf ("Unexpected end of input" ++ LF) []
  else
    l <- get_next_token_line ;;
    root <- parse_and ;;
    while (check_next_token SYM "||")
          (fun root =>
             b <- check_next_token SYM "||" ;;
             if b then
               match_and_discard_next_token SYM "||" ;;;
               right <- parse_and ;;
               ret (BinaryOpNode OROP root right l)
             else ret root)
          root.

(** The body of [parse_expr]. *)
Definition parse_expr_body : M ASTNode :=
  e <- TokenQueue_is_empty ;;
  if e then Error_throw_printf ("Unexpected end of input" ++ LF) []
  else parse_or.

Definition parse_conditional : M ASTNode :=
  e <- TokenQueue_is_empty ;;
  if e then
    Error_throw_printf ("Conditional expected but not found at line 1" ++ LF) []
  else
    l <- get_next_token_line ;;
    TokenQueue_remove ;;;
    match_and_discard_next_token SYM "(" ;;;
    condition <- parse_expr ;;
    match_and_discard_next_token SYM ")" ;;;
    if_block <- parse_block ;;
    b <- check_next_token KEY "else" ;;
    else_block <- (if b then
                     match_and_discard_next_token KEY "else" ;;;
                     n <- parse_expr ;;
                     ret (Some n)
                   else ret None) ;;
    ret (ConditionalNode condition if_block else_block l).

Definition parse_while : M ASTNode :=
  e <- TokenQueue_is_empty ;;
  if e then
    Error_throw_printf ("While loop expected but not found at line 1" ++ LF) []
  else
    l <- get_next_token_line ;;
    TokenQueue_remove ;;;
    match_and_discard_next_token SYM "(" ;;;
    expr <- parse_expr ;;
    match_and_discard_next_token SYM ")" ;;;
    block <- parse_block ;;
    ret (WhileLoopNode expr block l).

Definition parse_statement : M ASTNode :=
  e <- TokenQueue_is_empty ;;
  if e then Error_throw_printf ("Unexpected end of input" ++ LF) []
  else
    l <- get_next_token_line ;;
    b <- check_next_token KEY "break" ;;
    if b then
      TokenQueue_remove ;;;
      match_and_discard_next_token SYM ";" ;;;
      ret (BreakNode l)
    else
      b <- check_next_token KEY "continue" ;;
      if b then
        TokenQueue_remove ;;;
        match_and_discard_next_token SYM ";" ;;;
        ret (ContinueNode l)
      else
        b <- check_next_token KEY "return" ;;
        if b then
          TokenQueue_remove ;;;
          semi <- check_next_token SYM ";" ;;
          val <- (if negb semi then v <- parse_expr ;; ret (Some v)
                  else ret None) ;;
          match_and_discard_next_token SYM ";" ;;;
          ret (ReturnNode val l)
        else
          b <- check_next_token KEY "while" ;;
          if b then parse_while
          else
            b <- check_next_token KEY "if" ;;
            if b then parse_conditional
            else
              b <- id_then_paren ;;
              if b then
                n <- parse_funccall ;;
                match_and_discard_next_token SYM ";" ;;;
                ret n
              else
                b <- check_next_token_type ID ;;
                if b then
                  loc <- parse_loc ;;
                  match_and_discard_next_token SYM "=" ;;;
                  value <- parse_expr ;;
                  match_and_discard_next_token SYM ";" ;;;
                  ret (AssignmentNode loc value l)
                else
                  Error_throw_printf ("Invalid statement on line %d" ++ LF)
                                     [arg_d l].

(** The body of [parse_block]. *)
Definition parse_block_body : M ASTNode :=
  e <- TokenQueue_is_empty ;;
  if e then
    Error_throw_printf ("Unexpected end of input (expected '{')" ++ LF) []
  else
    l <- get_next_token_line ;;
    match_and_discard_next_token SYM "{" ;;;
    b <- check_next_token SYM "}" ;;
    if b then
      match_and_discard_next_token SYM "}" ;;;
      ret (BlockNode [] [] l)
    else
      vs <- while (notM (check_next_token SYM "}"))
                  (fun vs : list ASTNode * list ASTNode =>
                     b <- (check_next_token KEY "int"
                           ||| check_next_token KEY "bool"
                           ||| check_next_token KEY "void") ;;
                     if b then
                       var <- parse_vardecl ;;
                       ret (fst vs ++ [var], snd vs)%list
                     else
                       stmnt <- parse_statement ;;
                       ret (fst vs, snd vs ++ [stmnt])%list)
                  ([], []) ;;
      match_and_discard_next_token SYM "}" ;;;
      ret (BlockNode (fst vs) (snd vs) l).

Definition parse_funcdecl : M ASTNode :=
  e <- TokenQueue_is_empty ;;
  if e then
    Error_throw_printf ("Unexpected end of input (expected 'def')" ++ LF) []
  else
    l <- get_next_token_line ;;
    match_and_discard_next_token KEY "def" ;;;
    ty <- parse_type ;;
    buffer <- parse_id ;;
    match_and_discard_next_token SYM "(" ;;;
    b <- check_next_token SYM ")" ;;
    params <- (if negb b then parse_params else ret []) ;;
    match_and_discard_next_token SYM ")" ;;;
    body <- parse_block ;;
    ret (FuncDeclNode buffer ty params body l).

(** The body of the loop of [parse_program]; [vf] holds the lists [vars]
    and [funcs]. *)
Definition parse_program_step (vf : list ASTNode * list ASTNode)
  : M (list ASTNode * list ASTNode) :=
  b <- check_next_token KEY "def" ;;
  if b then
    n <- parse_funcdecl ;;
    ret (fst vf, snd vf ++ [n])%list
  else
    n <- parse_vardecl ;;
    ret (fst vf ++ [n], snd vf)%list.

Definition parse_program : M ASTNode :=
  vf <- while (notM TokenQueue_is_empty) parse_program_step ([], []) ;;
  ret (ProgramNode (fst vf) (snd vf)).

End Rules.

(** ** Tying the recursion

    [parse_expr n] follows the recursion of the source through at most [n]
    nested calls of [parse_expr]; likewise [parse_block n]. *)

Fixpoint parse_expr (n : nat) : M ASTNode :=
  match n with
  | O => out_of_fuel
  | S n' => parse_expr_body (parse_expr n')
  end.

Fixpoint parse_block (n : nat) : M ASTNode :=
  match n with
  | O => out_of_fuel
  | S n' => parse_block_body (parse_expr n) (parse_block n')
  end.

(** The entry point.  [input == NULL] is [None].  A nested call is made
    only after a token has been consumed, so a depth of one more than the
    number of tokens is never exceeded ([parse_never_out_of_fuel]). *)
Definition parse (input : option TokenQueue) : result (ASTNode * TokenQueue) :=
  match input with
  | None =>
      Throw (mkError ("TokenQueue is NULL there are no tokens to parse" ++ LF) [])
  | Some q => parse_program (parse_block (S (List.length q))) q
  end.

(** ** Notions used by the statements *)

(** [post m q Q]: if [m] returns from the queue [q], its value and the queue
    it leaves satisfy [Q]. *)
Definition post {A} (m : M A) (q : TokenQueue)
           (Q : A -> TokenQueue -> Prop) : Prop :=
  forall a q', m q = OK (a, q') -> Q a q'.

(** [consumes d m]: whenever [m] returns it has removed at least [d]
    tokens and added none. *)
Definition consumes {A} (d : nat) (m : M A) : Prop :=
  forall q, post m q (fun _ q' => (List.length q' + d <= List.length q)%nat).

(** [safe m q]: running [m] on [q] stays within the depth of the model. *)
Definition safe {A} (m : M A) (q : TokenQueue) : Prop := m q <> OutOfFuel.

(** [safe_below n m]: [m] stays within the depth of the model on every
    queue of fewer than [n] tokens. *)
Definition safe_below {A} (n : nat) (m : M A) : Prop :=
  forall q, (List.length q < n)%nat -> safe m q.

(** [refines m m']: [m'] agrees with [m] wherever [m] stays within the depth
    of the model. *)
Definition refines {A} (m m' : M A) : Prop :=
  forall q, m q <> OutOfFuel -> m' q = m q.

(** [pure m]: [m] only reads the queue and always returns. *)
Definition pure {A} (m : M A) : Prop := forall q, exists a, m q = OK (a, q).

(** [spost m q Q]: [m] stays within the depth of the model on [q] and, if it
    returns, satisfies [Q]. *)
Definition spost {A} (m : M A) (q : TokenQueue)
           (Q : A -> TokenQueue -> Prop) : Prop :=
  safe m q /\ post m q Q.

(** *** Errors by kind *)

(** The error of [match_and_discard_next_token] on a token of the wrong
    type or text. *)
Definition TokenMismatch (expected actual : string) (l : Z) : Error :=
  mkError ("Expected '%s' but found '%s' on line %d" ++ LF)
          [arg_s expected; arg_s actual; arg_d l].

(** The error of [get_next_token_line] on an empty queue. *)
Definition UnexpectedEndOfInput : Error :=
  mkError ("Unexpected end of input" ++ LF) [].

(** The error of [parse_base_expr] when no alternative matches. *)
Definition InvalidBaseExpression (actual : string) (l : Z) : Error :=
  mkError ("Invalid base expression '%s' on line %d" ++ LF)
          [arg_s actual; arg_d l].

(** *** Token sequences of the examples *)

Definition dec (n : string) (l : Z) : Token := mkToken DECLIT n l.
Definition sym (s : string) (l : Z) : Token := mkToken SYM s l.
Definition key (s : string) (l : Z) : Token := mkToken KEY s l.
Definition ident (s : string) (l : Z) : Token := mkToken ID s l.

(** [if (x) { } else { }] on line [l]. *)
Definition if_else_tokens (l : Z) : TokenQueue :=
  [key "if" l; sym "(" l; ident "x" l; sym ")" l; sym "{" l; sym "}" l;
   key "else" l; sym "{" l; sym "}" l].

(** [if (x) { } else y;] on line [l]. *)
Definition if_else_expr_tokens (l : Z) : TokenQueue :=
  [key "if" l; sym "(" l; ident "x" l; sym ")" l; sym "{" l; sym "}" l;
   key "else" l; ident "y" l; sym ";" l].

(** [1 + 2 * 3] and [8 - 3 - 2], each token on a line of its own. *)
Definition one_plus_two_times_three (l1 l2 l3 l4 l5 : Z) : TokenQueue :=
  [dec "1" l1; sym "+" l2; dec "2" l3; sym "*" l4; dec "3" l5].
Definition eight_minus_three_minus_two (l1 l2 l3 l4 l5 : Z) : TokenQueue :=
  [dec "8" l1; sym "-" l2; dec "3" l3; sym "-" l4; dec "2" l5].

(** [int a[10];] and [int a;] on line [l]. *)
Definition array_decl_tokens (l : Z) : TokenQueue :=
  [key "int" l; ident "a" l; sym "[" l; dec "10" l; sym "]" l; sym ";" l].
Definition scalar_decl_tokens (l : Z) : TokenQueue :=
  [key "int" l; ident "a" l; sym ";" l].

(** [int a; def int main() { return a; }] on lines 1 to 4, and its tree. *)
Definition example_program_tokens : TokenQueue :=
  [key "int" 1; ident "a" 1; sym ";" 1;
   key "def" 2; key "int" 2; ident "main" 2; sym "(" 2; sym ")" 2; sym "{" 2;
   key "return" 3; ident "a" 3; sym ";" 3;
   sym "}" 4].

Definition example_program : ASTNode :=
  ProgramNode
    [VarDeclNode "a" INT false 1 1]
    [FuncDeclNode "main" INT []
       (BlockNode [] [ReturnNode (Some (LocationNode "a" None 3)) 3] 2) 2].

(** *** The levels of binary operators *)

Inductive Level :=
| OrLevel | AndLevel | EqualityLevel | RelationalLevel | ArithLevel | MultLevel.

(** The rule of a level and the rule it reads its operands with. *)
Definition rule (lv : Level) (parse_expr : M ASTNode) : M ASTNode :=
  match lv with
  | OrLevel => parse_or parse_expr
  | AndLevel => parse_and parse_expr
  | EqualityLevel => parse_equality parse_expr
  | RelationalLevel => parse_relational parse_expr
  | ArithLevel => parse_arith parse_expr
  | MultLevel => parse_mult parse_expr
  end.

Definition operand (lv : Level) (parse_expr : M ASTNode) : M ASTNode :=
  match lv with
  | OrLevel => parse_and parse_expr
  | AndLevel => parse_equality parse_expr
  | EqualityLevel => parse_relational parse_expr
  | RelationalLevel => parse_arith parse_expr
  | ArithLevel => parse_mult parse_expr
  | MultLevel => parse_neg parse_expr
  end.

Definition operators (lv : Level) : list (string * BinaryOpType) :=
  match lv with
  | OrLevel => [("||", OROP)]
  | AndLevel => [("&&", ANDOP)]
  | EqualityLevel => [("==", EQOP); ("!=", NEQOP)]
  | RelationalLevel => [("<", LTOP); ("<=", LEOP); (">", GTOP); (">=", GEOP)]
  | ArithLevel => [("+", ADDOP); ("-", SUBOP)]
  | MultLevel => [("*", MULOP); ("/", DIVOP); ("%", MODOP)]
  end.

Fixpoint assoc (txt : string) (ops : list (string * BinaryOpType))
  : option BinaryOpType :=
  match ops with
  | [] => None
  | (s, op) :: ops' => if token_str_eq txt s then Some op else assoc txt ops'
  end.

(** The operator of level [lv] that the token [t] denotes, if any. *)
Definition operator_of (lv : Level) (t : Token) : option BinaryOpType :=
  if TokenType_eqb (type t) SYM then assoc (text t) (operators lv) else None.

(** The test of the loop of a level: the next token is one of its
    operators. *)
Definition at_operator (lv : Level) (q : TokenQueue) : bool :=
  match q with
  | t :: _ => match operator_of lv t with Some _ => true | None => false end
  | [] => false
  end.

(** [chain P lv q items qf]: the queue [q] spells the operators of level
    [lv], each followed by an operand that [P] parses, up to [qf], which
    does not start with an operator of the level; [items] are the operators
    with the trees of their right operands, in order. *)
Inductive chain (P : M ASTNode) (lv : Level)
  : TokenQueue -> list (BinaryOpType * ASTNode) -> TokenQueue -> Prop :=
| chain_end q :
    match q with [] => True | t :: _ => operator_of lv t = None end ->
    chain P lv q [] q
| chain_step t q op right q' items qf :
    operator_of lv t = Some op ->
    P q = OK (right, q') ->
    chain P lv q' items qf ->
    chain P lv (t :: q) ((op, right) :: items) qf.

(** The left-leaning tree over a first operand and the items of a chain. *)
Definition fold_tree (l : Z) (first : ASTNode)
           (items : list (BinaryOpType * ASTNode)) : ASTNode :=
  fold_left (fun acc item => BinaryOpNode (fst item) acc (snd item) l)
            items first.

(** *** One escape of a string literal, in the spec's words *)

Definition occurs (sub s : string) : Prop :=
  exists pre post, s = pre ++ sub ++ post.

(** [s] splits at the first occurrence of [sub]. *)
Definition first_split (sub s pre post : string) : Prop :=
  s = pre ++ sub ++ post /\
  forall pre' post', s = pre' ++ sub ++ post' ->
                     (String.length pre <= String.length pre')%nat.

(** The four escape forms in their priority order, with the character each
    stands for. *)
Definition escape_forms : list (string * string) :=
  [(BACKSLASH ++ "n", LF); (BACKSLASH ++ "t", TAB);
   (BACKSLASH ++ BACKSLASH, BACKSLASH); (BACKSLASH ++ DQUOTE, DQUOTE)].

(** [resolved forms body out]: [out] is [body] with the first occurrence of
    the first form of [forms] that occurs in it replaced, everything else
    untouched; [body] itself if no form occurs. *)
Fixpoint resolved (forms : list (string * string)) (body out : string) : Prop :=
  match forms with
  | [] => out = body
  | (esc, ch) :: more =>
      (exists pre post, first_split esc body pre post /\ out = pre ++ ch ++ post)
      \/ (~ occurs esc body /\ resolved more body out)
  end.

(** [splits forms body pre ch post]: of [forms], taken in order, the first
    form that occurs in [body] stands for [ch], and [pre] and [post] are the
    text before and the text behind its first occurrence. *)
Fixpoint splits (forms : list (string * string)) (body pre ch post : string)
  : Prop :=
  match forms with
  | [] => False
  | (esc, c) :: more =>
      (first_split esc body pre post /\ ch = c)
      \/ (~ occurs esc body /\ splits more body pre ch post)
  end.

(** No form of [forms] occurs in [body]. *)
Fixpoint escape_free (forms : list (string * string)) (body : string) : Prop :=
  match forms with
  | [] => True
  | (esc, _) :: more => ~ occurs esc body /\ escape_free more body
  end.

(** *** The value of a numeral *)

(** The digits of [s] in base [base], if all its characters are digits. *)
Fixpoint digits (base : Z) (s : string) : option (list Z) :=
  match s with
  | EmptyString => Some []
  | String c s' =>
      match digit_value c, digits base s' with
      | Some d, Some ds => if d <? base then Some (d :: ds) else None
      | _, _ => None
      end
  end.

(** The positional value of a list of digits, most significant first. *)
Fixpoint positional (base : Z) (ds : list Z) : Z :=
  match ds with
  | [] => 0
  | d :: ds' => d * base ^ Z.of_nat (List.length ds') + positional base ds'
  end.

(** *** The top level *)

(** [top_level q vars funcs]: [q] is a sequence of top-level declarations
    that ends exactly where [q] ends; [vars] and [funcs] are the trees of
    the variable and the function declarations, each in source order. *)
Inductive top_level : TokenQueue -> list ASTNode -> list ASTNode -> Prop :=
| top_level_done : top_level [] [] []
| top_level_func t q f q' vars funcs :
    (type t = KEY /\ text t = "def") ->
    parse_funcdecl (parse_block (S (List.length q))) (t :: q) = OK (f, q') ->
    top_level q' vars funcs ->
    top_level (t :: q) vars (f :: funcs)
| top_level_var t q v q' vars funcs :
    ~ (type t = KEY /\ text t = "def") ->
    parse_vardecl (t :: q) = OK (v, q') ->
    top_level q' vars funcs ->
    top_level (t :: q) (v :: vars) funcs.

(** ** Notions used by the further properties *)

(** *** Shapes of queues and of what the rules accept *)

(** [is_token ty txt t]: the token [t] has type [ty] and text [txt]. *)
Definition is_token (ty : TokenType) (txt : string) (t : Token) : Prop :=
  type t = ty /\ text t = txt.

(** [starts_with ty txt q]: the queue [q] starts with a token of type [ty]
    and text [txt]; [starts_with_type ty q]: with a token of type [ty]. *)
Definition starts_with (ty : TokenType) (txt : string) (q : TokenQueue)
  : Prop :=
  match q with
  | t :: _ => is_token ty txt t
  | [] => False
  end.

Definition starts_with_type (ty : TokenType) (q : TokenQueue) : Prop :=
  match q with
  | t :: _ => type t = ty
  | [] => False
  end.

(** The answers of [check_next_token] and [check_next_token_type]. *)
Definition headb (ty : TokenType) (txt : string) (q : TokenQueue) : bool :=
  match q with
  | t :: _ => TokenType_eqb (type t) ty && token_str_eq (text t) txt
  | [] => false
  end.

Definition head_typeb (ty : TokenType) (q : TokenQueue) : bool :=
  match q with
  | t :: _ => TokenType_eqb (type t) ty
  | [] => false
  end.

(** The type a keyword names, if it names one. *)
Definition keyword_type (txt : string) : option DecafType :=
  if token_str_eq "int" txt then Some INT
  else if token_str_eq "bool" txt then Some BOOL
  else if token_str_eq "void" txt then Some VOID
  else None.

(** The errors of [parse_type], [parse_id] and [parse_statement] on a token
    they reject. *)
Definition InvalidType (actual : string) (l : Z) : Error :=
  mkError ("Invalid type '%s' on line %d" ++ LF) [arg_s actual; arg_d l].
Definition InvalidID (actual : string) (l : Z) : Error :=
  mkError ("Invalid ID '%s' on line %d" ++ LF) [arg_s actual; arg_d l].
Definition InvalidStatement (l : Z) : Error :=
  mkError ("Invalid statement on line %d" ++ LF) [arg_d l].

(** The outcome of an error message that reads the line of the next token
    of [q] after the offending token was removed: the error [e] with that
    line, or the end-of-input error of the lookup when [q] is empty. *)
Definition error_after {A} (q : TokenQueue) (e : Z -> Error) : result A :=
  match q with
  | next :: _ => Throw (e (line next))
  | [] => Throw UnexpectedEndOfInput
  end.

(** [iterates cond body s q s' q']: the loop [while (cond) body], started
    in state [s] on the queue [q], leaves in state [s'] on the queue [q']
    after finitely many rounds. *)
Inductive iterates {St} (cond : M bool) (body : St -> M St)
  : St -> TokenQueue -> St -> TokenQueue -> Prop :=
| iterates_done s q :
    cond q = OK (false, q) -> iterates cond body s q s q
| iterates_step s q s1 q1 s' q' :
    cond q = OK (true, q) ->
    body s q = OK (s1, q1) ->
    iterates cond body s1 q1 s' q' ->
    iterates cond body s q s' q'.

(** The two shapes of a variable declaration at the head of a queue, with
    the node each gives and the queue behind it. *)
Inductive vardecl_shape : TokenQueue -> ASTNode -> TokenQueue -> Prop :=
| scalar_shape kt idt semi ty q' :
    type kt = KEY -> keyword_type (text kt) = Some ty -> type idt = ID ->
    is_token SYM ";" semi ->
    vardecl_shape (kt :: idt :: semi :: q')
                  (VarDeclNode (snprintf_s MAX_ID_LEN (text idt)) ty false 1
                               (line kt))
                  q'
| array_shape kt idt lb len rb semi ty q' :
    type kt = KEY -> keyword_type (text kt) = Some ty -> type idt = ID ->
    is_token SYM "[" lb -> is_token SYM "]" rb -> is_token SYM ";" semi ->
    vardecl_shape (kt :: idt :: lb :: len :: rb :: semi :: q')
                  (VarDeclNode (snprintf_s MAX_ID_LEN (text idt)) ty true
                               (int_of_long (strtol (text len) 10)) (line kt))
                  q'.

(** The parameters behind the first one: a comma, a type keyword and an
    identifier, repeated up to a closing parenthesis, which stays in the
    queue. *)
Inductive more_params : TokenQueue -> list Param -> TokenQueue -> Prop :=
| more_params_end q :
    starts_with SYM ")" q -> more_params q [] q
| more_params_next c kt idt ty q ps q' :
    is_token SYM "," c ->
    type kt = KEY -> keyword_type (text kt) = Some ty -> type idt = ID ->
    more_params q ps q' ->
    more_params (c :: kt :: idt :: q)
                (mkParam (snprintf_s MAX_ID_LEN (text idt)) ty :: ps) q'.

(** The shapes of a parameter list: one parameter with no comma behind it,
    or a parameter, a comma and more parameters up to the parenthesis. *)
Inductive params_shape : TokenQueue -> list Param -> TokenQueue -> Prop :=
| params_one kt idt ty q :
    type kt = KEY -> keyword_type (text kt) = Some ty -> type idt = ID ->
    ~ starts_with SYM "," q ->
    params_shape (kt :: idt :: q)
                 [mkParam (snprintf_s MAX_ID_LEN (text idt)) ty] q
| params_more kt idt ty q ps q' :
    type kt = KEY -> keyword_type (text kt) = Some ty -> type idt = ID ->
    starts_with SYM "," q ->
    more_params q ps q' ->
    params_shape (kt :: idt :: q)
                 (mkParam (snprintf_s MAX_ID_LEN (text idt)) ty :: ps) q'.

(** The shape of a function declaration at the head of a queue: [def], a
    type keyword, an identifier, a parenthesis, nothing or a parameter
    list, the closing parenthesis, and a block. *)
Inductive funcdecl_shape (parse_block : M ASTNode)
  : TokenQueue -> ASTNode -> TokenQueue -> Prop :=
| funcdecl_no_params d kt idt lp rp ty q body q' :
    is_token KEY "def" d ->
    type kt = KEY -> keyword_type (text kt) = Some ty -> type idt = ID ->
    is_token SYM "(" lp -> is_token SYM ")" rp ->
    parse_block q = OK (body, q') ->
    funcdecl_shape parse_block (d :: kt :: idt :: lp :: rp :: q)
                   (FuncDeclNode (snprintf_s MAX_ID_LEN (text idt)) ty []
                                 body (line d))
                   q'
| funcdecl_params d kt idt lp ty q ps rp q1 body q' :
    is_token KEY "def" d ->
    type kt = KEY -> keyword_type (text kt) = Some ty -> type idt = ID ->
    is_token SYM "(" lp ->
    params_shape q ps (rp :: q1) -> is_token SYM ")" rp ->
    parse_block q1 = OK (body, q') ->
    funcdecl_shape parse_block (d :: kt :: idt :: lp :: q)
                   (FuncDeclNode (snprintf_s MAX_ID_LEN (text idt)) ty ps
                                 body (line d))
                   q'.

(** The shapes of a location: an identifier with no bracket behind it, or
    an identifier, a bracket, an expression and the closing bracket. *)
Inductive loc_shape (parse_expr : M ASTNode)
  : TokenQueue -> ASTNode -> TokenQueue -> Prop :=
| loc_plain t q :
    type t = ID -> ~ starts_with SYM "[" q ->
    loc_shape parse_expr (t :: q)
              (LocationNode (snprintf_s MAX_ID_LEN (text t)) None (line t)) q
| loc_index t lb q index rb q' :
    type t = ID -> is_token SYM "[" lb ->
    parse_expr q = OK (index, rb :: q') -> is_token SYM "]" rb ->
    loc_shape parse_expr (t :: lb :: q)
              (LocationNode (snprintf_s MAX_ID_LEN (text t)) (Some index)
                            (line t))
              q'.

(** The arguments behind the first one: a comma and an expression, repeated
    up to a closing parenthesis, which stays in the queue. *)
Inductive more_args (parse_expr : M ASTNode)
  : TokenQueue -> list ASTNode -> TokenQueue -> Prop :=
| more_args_end q :
    starts_with SYM ")" q -> more_args parse_expr q [] q
| more_args_next c q e q1 es q' :
    is_token SYM "," c ->
    parse_expr q = OK (e, q1) ->
    more_args parse_expr q1 es q' ->
    more_args parse_expr (c :: q) (e :: es) q'.

Inductive args_shape (parse_expr : M ASTNode)
  : TokenQueue -> list ASTNode -> TokenQueue -> Prop :=
| args_one q e q1 :
    q <> [] -> parse_expr q = OK (e, q1) -> ~ starts_with SYM "," q1 ->
    args_shape parse_expr q [e] q1
| args_more q e q1 es q' :
    q <> [] -> parse_expr q = OK (e, q1) -> starts_with SYM "," q1 ->
    more_args parse_expr q1 es q' ->
    args_shape parse_expr q (e :: es) q'.

(** The shapes of a call: an identifier, a parenthesis, nothing or an
    argument list, and the closing parenthesis. *)
Inductive funccall_shape (parse_expr : M ASTNode)
  : TokenQueue -> ASTNode -> TokenQueue -> Prop :=
| call_no_args t lp rp q' :
    type t = ID -> is_token SYM "(" lp -> is_token SYM ")" rp ->
    funccall_shape parse_expr (t :: lp :: rp :: q')
                   (FuncCallNode (snprintf_s MAX_ID_LEN (text t)) [] (line t))
                   q'
| call_args t lp q es rp q' :
    type t = ID -> is_token SYM "(" lp -> ~ starts_with SYM ")" q ->
    args_shape parse_expr q es (rp :: q') -> is_token SYM ")" rp ->
    funccall_shape parse_expr (t :: lp :: q)
                   (FuncCallNode (snprintf_s MAX_ID_LEN (text t)) es (line t))
                   q'.

(** The tokens a literal starts with, as [parse_base_expr] tests them. *)
Definition literal_start (t : Token) : Prop :=
  type t = DECLIT \/ type t = HEXLIT \/ type t = STRLIT
  \/ is_token KEY "true" t \/ is_token KEY "false" t.

(** The shapes of a base expression: a parenthesised expression, a call, a
    location, or a literal. *)
Inductive base_expr_shape (parse_expr : M ASTNode)
  : TokenQueue -> ASTNode -> TokenQueue -> Prop :=
| base_paren lp q e rp q' :
    is_token SYM "(" lp ->
    parse_expr q = OK (e, rp :: q') -> is_token SYM ")" rp ->
    base_expr_shape parse_expr (lp :: q) e q'
| base_call t t2 q n q' :
    type t = ID -> text t2 = "(" ->
    parse_funccall parse_expr (t :: t2 :: q) = OK (n, q') ->
    base_expr_shape parse_expr (t :: t2 :: q) n q'
| base_loc t t2 q n q' :
    type t = ID -> text t2 <> "(" ->
    parse_loc parse_expr (t :: t2 :: q) = OK (n, q') ->
    base_expr_shape parse_expr (t :: t2 :: q) n q'
| base_lit t q n q' :
    literal_start t ->
    parse_lit (t :: q) = OK (n, q') ->
    base_expr_shape parse_expr (t :: q) n q'.

(** The shapes of a unary expression: one prefix operator and a base
    expression, or a base expression. *)
Inductive neg_shape (parse_expr : M ASTNode)
  : TokenQueue -> ASTNode -> TokenQueue -> Prop :=
| neg_minus m q e q' :
    is_token SYM "-" m ->
    parse_base_expr parse_expr q = OK (e, q') ->
    neg_shape parse_expr (m :: q) (UnaryOpNode NEGOP e (line m)) q'
| neg_not m q e q' :
    is_token SYM "!" m ->
    parse_base_expr parse_expr q = OK (e, q') ->
    neg_shape parse_expr (m :: q) (UnaryOpNode NOTOP e (line m)) q'
| neg_base t q e q' :
    ~ is_token SYM "-" t -> ~ is_token SYM "!" t ->
    parse_base_expr parse_expr (t :: q) = OK (e, q') ->
    neg_shape parse_expr (t :: q) e q'.

(** The shape [parse_while] accepts: any token (the rule removes the first
    one unseen), a parenthesised expression and a block. *)
Inductive while_shape (parse_expr parse_block : M ASTNode)
  : TokenQueue -> ASTNode -> TokenQueue -> Prop :=
| while_shape_intro k lp q c rp q1 body q' :
    is_token SYM "(" lp ->
    parse_expr q = OK (c, rp :: q1) -> is_token SYM ")" rp ->
    parse_block q1 = OK (body, q') ->
    while_shape parse_expr parse_block (k :: lp :: q)
                (WhileLoopNode c body (line k)) q'.

(** The shapes [parse_conditional] accepts: any token, a parenthesised
    expression and a block, and then either no [else], or [else] and what
    [parse_expr] accepts. *)
Inductive conditional_shape (parse_expr parse_block : M ASTNode)
  : TokenQueue -> ASTNode -> TokenQueue -> Prop :=
| conditional_if k lp q c rp q1 body q' :
    is_token SYM "(" lp ->
    parse_expr q = OK (c, rp :: q1) -> is_token SYM ")" rp ->
    parse_block q1 = OK (body, q') -> ~ starts_with KEY "else" q' ->
    conditional_shape parse_expr parse_block (k :: lp :: q)
                      (ConditionalNode c body None (line k)) q'
| conditional_if_else k lp q c rp q1 body el q2 e q' :
    is_token SYM "(" lp ->
    parse_expr q = OK (c, rp :: q1) -> is_token SYM ")" rp ->
    parse_block q1 = OK (body, el :: q2) -> is_token KEY "else" el ->
    parse_expr q2 = OK (e, q') ->
    conditional_shape parse_expr parse_block (k :: lp :: q)
                      (ConditionalNode c body (Some e) (line k)) q'.

(** The shapes of a statement. *)
Inductive statement_shape (parse_expr parse_block : M ASTNode)
  : TokenQueue -> ASTNode -> TokenQueue -> Prop :=
| statement_break k semi q' :
    is_token KEY "break" k -> is_token SYM ";" semi ->
    statement_shape parse_expr parse_block (k :: semi :: q')
                    (BreakNode (line k)) q'
| statement_continue k semi q' :
    is_token KEY "continue" k -> is_token SYM ";" semi ->
    statement_shape parse_expr parse_block (k :: semi :: q')
                    (ContinueNode (line k)) q'
| statement_return k semi q' :
    is_token KEY "return" k -> is_token SYM ";" semi ->
    statement_shape parse_expr parse_block (k :: semi :: q')
                    (ReturnNode None (line k)) q'
| statement_return_value k q v semi q' :
    is_token KEY "return" k -> ~ starts_with SYM ";" q ->
    parse_expr q = OK (v, semi :: q') -> is_token SYM ";" semi ->
    statement_shape parse_expr parse_block (k :: q)
                    (ReturnNode (Some v) (line k)) q'
| statement_while k q n q' :
    is_token KEY "while" k ->
    while_shape parse_expr parse_block (k :: q) n q' ->
    statement_shape parse_expr parse_block (k :: q) n q'
| statement_if k q n q' :
    is_token KEY "if" k ->
    conditional_shape parse_expr parse_block (k :: q) n q' ->
    statement_shape parse_expr parse_block (k :: q) n q'
| statement_call t t2 q n semi q' :
    type t = ID -> text t2 = "(" ->
    parse_funccall parse_expr (t :: t2 :: q) = OK (n, semi :: q') ->
    is_token SYM ";" semi ->
    statement_shape parse_expr parse_block (t :: t2 :: q) n q'
| statement_assign t t2 q loc eq q1 v semi q' :
    type t = ID -> text t2 <> "(" ->
    parse_loc parse_expr (t :: t2 :: q) = OK (loc, eq :: q1) ->
    is_token SYM "=" eq ->
    parse_expr q1 = OK (v, semi :: q') -> is_token SYM ";" semi ->
    statement_shape parse_expr parse_block (t :: t2 :: q)
                    (AssignmentNode loc v (line t)) q'.

(** The keywords a statement starts with. *)
Definition statement_keyword (t : Token) : Prop :=
  is_token KEY "break" t \/ is_token KEY "continue" t
  \/ is_token KEY "return" t \/ is_token KEY "while" t \/ is_token KEY "if" t.

(** A queue that starts with one of the keywords [int], [bool], [void]. *)
Definition starts_with_type_keyword (q : TokenQueue) : Prop :=
  starts_with KEY "int" q \/ starts_with KEY "bool" q
  \/ starts_with KEY "void" q.

(** The items of a block up to its closing brace, which stays in the
    queue: declarations and statements in any order, collected in two
    lists. *)
Inductive block_items (parse_expr parse_block : M ASTNode)
  : TokenQueue -> list ASTNode -> list ASTNode -> TokenQueue -> Prop :=
| block_items_end q :
    starts_with SYM "}" q -> block_items parse_expr parse_block q [] [] q
| block_items_var q v q1 vs ss q' :
    starts_with_type_keyword q ->
    parse_vardecl q = OK (v, q1) ->
    block_items parse_expr parse_block q1 vs ss q' ->
    block_items parse_expr parse_block q (v :: vs) ss q'
| block_items_statement q s q1 vs ss q' :
    ~ starts_with SYM "}" q -> ~ starts_with_type_keyword q ->
    parse_statement parse_expr parse_block q = OK (s, q1) ->
    block_items parse_expr parse_block q1 vs ss q' ->
    block_items parse_expr parse_block q vs (s :: ss) q'.

(** The test and the body of the loop of [parse_block]; [vs] holds the
    lists [vars] and [stmnts]. *)
Definition block_cond : M bool := notM (check_next_token SYM "}").

Definition parse_block_item (parse_expr parse_block : M ASTNode)
           (vs : list ASTNode * list ASTNode)
  : M (list ASTNode * list ASTNode) :=
  b <- (check_next_token KEY "int" ||| check_next_token KEY "bool"
        ||| check_next_token KEY "void") ;;
  if b then
    var <- parse_vardecl ;;
    ret (fst vs ++ [var], snd vs)%list
  else
    stmnt <- parse_statement parse_expr parse_block ;;
    ret (fst vs, snd vs ++ [stmnt])%list.

Inductive block_shape (parse_expr parse_block : M ASTNode)
  : TokenQueue -> ASTNode -> TokenQueue -> Prop :=
| block_shape_intro lb q vs ss rb q' :
    is_token SYM "{" lb ->
    block_items parse_expr parse_block q vs ss (rb :: q') ->
    block_shape parse_expr parse_block (lb :: q)
                (BlockNode vs ss (line lb)) q'.

(** The declarations of a program up to the end of the queue. *)
Inductive program_items (parse_block : M ASTNode)
  : TokenQueue -> list ASTNode -> list ASTNode -> Prop :=
| program_items_end : program_items parse_block [] [] []
| program_items_func q f q1 vs fs :
    starts_with KEY "def" q ->
    parse_funcdecl parse_block q = OK (f, q1) ->
    program_items parse_block q1 vs fs ->
    program_items parse_block q vs (f :: fs)
| program_items_var q v q1 vs fs :
    q <> [] -> ~ starts_with KEY "def" q ->
    parse_vardecl q = OK (v, q1) ->
    program_items parse_block q1 vs fs ->
    program_items parse_block q (v :: vs) fs.

(** *** Queues on which the parser reads no memory it does not own *)

(** [splice_overlaps body]: the escape handling of [parse_lit] finds in
    [body] an escape with text behind it, which its splice copies within one
    buffer. *)
Definition splice_overlaps (body : string) : Prop :=
  exists pre ch post,
    splits escape_forms body pre ch post /\ post <> EmptyString.

(** A queue is well formed when every string literal has room for its two
    quotes and, between them, no escape whose splice overlaps, and every
    identifier has a token behind it. *)
Fixpoint well_formed (q : TokenQueue) : Prop :=
  match q with
  | [] => True
  | t :: q' =>
      (type t = STRLIT ->
       (2 <= String.length (text t))%nat
       /\ forall body, strip_quotes (text t) = Some body ->
                       ~ splice_overlaps body)
      /\ (type t = ID -> q' <> [])
      /\ well_formed q'
  end.

(** [def void main() { print_str("hi\n"); }] with the escape at the end of
    the literal. *)
Definition example_print_tokens : TokenQueue :=
  [key "def" 1; key "void" 1; ident "main" 1; sym "(" 1; sym ")" 1; sym "{" 1;
   ident "print_str" 2; sym "(" 2;
   mkToken STRLIT (DQUOTE ++ "hi" ++ BACKSLASH ++ "n" ++ DQUOTE) 2;
   sym ")" 2; sym ";" 2;
   sym "}" 3].

(** [defined_on m q]: on [q] the rule [m] has no undefined behaviour, and
    the queue it leaves is well formed; [defined m]: so on every well-formed
    queue. *)
Definition defined_on {A} (m : M A) (q : TokenQueue) : Prop :=
  m q <> Undefined /\ post m q (fun _ q' => well_formed q').

Definition defined {A} (m : M A) : Prop :=
  forall q, well_formed q -> defined_on m q.

(** [takes_prefix m]: whenever [m] returns, the queue it leaves is the
    queue it was given without a non-empty prefix: tokens are removed from
    the front only, in order, and at least one is removed. *)
Definition takes_prefix {A} (m : M A) : Prop :=
  forall q a q', m q = OK (a, q') ->
                 exists pre, pre <> [] /\ q = (pre ++ q')%list.

(** [leaves_suffix m]: the same, the prefix possibly empty. *)
Definition leaves_suffix {A} (m : M A) : Prop :=
  forall q a q', m q = OK (a, q') -> exists pre, q = (pre ++ q')%list.

(** [throws r]: the outcome [r] is an error. *)
Definition throws {A} (r : result A) : Prop := exists e, r = Throw e.

(** The end-of-input error of a rule, with what the rule says it
    expected, and the error of the rules that name themselves. *)
Definition EndOfInput (expected : string) : Error :=
  mkError ("Unexpected end of input (expected " ++ expected ++ ")" ++ LF) [].

Definition NotFound (what : string) : Error :=
  mkError (what ++ " expected but not found at line 1" ++ LF) [].

(** * Properties *)

(** ** The monad and the loop combinator *)

Lemma post_ret {A} (a : A) q (Q : A -> TokenQueue -> Prop) :
  Q a q -> post (ret a) q Q.
Proof. intros H a' q' E. inversion E; subst; exact H. Qed.

Lemma post_bind {A B} (m : M A) (f : A -> M B) q Q :
  post m q (fun a q1 => post (f a) q1 Q) -> post (bind m f) q Q.
Proof.
  unfold post, bind. intros H b q' E.
  destruct (m q) as [[a q1]| | |] eqn:Em; try discriminate.
  exact (H a q1 eq_refl b q' E).
Qed.

Lemma post_conseq {A} (m : M A) q (P Q : A -> TokenQueue -> Prop) :
  post m q P -> (forall a q', P a q' -> Q a q') -> post m q Q.
Proof. unfold post. intros H HPQ a q' E. apply HPQ, H, E. Qed.

Lemma post_throw {A} f a q (Q : A -> TokenQueue -> Prop) :
  post (Error_throw_printf f a) q Q.
Proof. intros x q' E. discriminate. Qed.

Lemma post_undefined {A} q (Q : A -> TokenQueue -> Prop) : post undefined q Q.
Proof. intros x q' E. discriminate. Qed.

Lemma post_out_of_fuel {A} q (Q : A -> TokenQueue -> Prop) :
  post out_of_fuel q Q.
Proof. intros x q' E. discriminate. Qed.

Lemma consumes_post {A} d (m : M A) q :
  consumes d m ->
  post m q (fun _ q' => (List.length q' + d <= List.length q)%nat).
Proof. intros H. apply H. Qed.

Lemma consumes_weaken {A} d d' (m : M A) :
  (d' <= d)%nat -> consumes d m -> consumes d' m.
Proof.
  intros Hd H q. eapply post_conseq; [apply H|]. cbv beta. intros; lia.
Qed.

Lemma TokenQueue_is_empty_consumes : consumes 0 TokenQueue_is_empty.
Proof. intros q a q' E. inversion E; subst. lia. Qed.

Lemma TokenQueue_peek_consumes : consumes 0 TokenQueue_peek.
Proof.
  intros [|t q] a q' E; [discriminate|]. inversion E; subst. lia.
Qed.

Lemma TokenQueue_remove_consumes : consumes 1 TokenQueue_remove.
Proof.
  intros [|t q] a q' E; [discriminate|]. inversion E; subst. simpl. lia.
Qed.

Lemma head_next_text_consumes : consumes 0 head_next_text.
Proof.
  intros [|t [|t2 q]] a q' E; try discriminate. inversion E; subst. lia.
Qed.

Create HintDb consumes.
#[export] Hint Resolve TokenQueue_is_empty_consumes TokenQueue_peek_consumes
  TokenQueue_remove_consumes head_next_text_consumes : consumes.

Lemma while_loop_consumes {St} (cond : M bool) (body : St -> M St) :
  consumes 0 cond -> (forall s, consumes 0 (body s)) ->
  forall k s, consumes 0 (while_loop k cond body s).
Proof.
  intros Hc Hb. induction k as [|k IH]; intros s q; simpl.
  - apply post_bind. eapply post_conseq; [apply Hc|].
    cbv beta. intros [|] q1 H1; [apply post_out_of_fuel|].
    apply post_ret. lia.
  - apply post_bind. eapply post_conseq; [apply Hc|].
    cbv beta. intros [|] q1 H1; [|apply post_ret; lia].
    apply post_bind. eapply post_conseq; [apply Hb|].
    cbv beta. intros s' q2 H2.
    eapply post_conseq; [apply IH|]. cbv beta. intros; lia.
Qed.

Lemma while_consumes {St} (cond : M bool) (body : St -> M St) s :
  consumes 0 cond -> (forall s, consumes 0 (body s)) ->
  consumes 0 (while cond body s).
Proof.
  intros Hc Hb q. unfold while. apply (while_loop_consumes _ _ Hc Hb).
Qed.

(** A proof of [consumes] follows the rule: split each bind, use what is
    known about the rule called, case on each test. *)
Ltac consumes_tac :=
  let rec go :=
    cbv beta;
    lazymatch goal with
    | |- post (bind _ _) _ _ => apply post_bind; go
    | |- post (ret _) _ _ => apply post_ret; go
    | |- post (Error_throw_printf _ _) _ _ => apply post_throw
    | |- post undefined _ _ => apply post_undefined
    | |- post out_of_fuel _ _ => apply post_out_of_fuel
    | |- post (if ?b then _ else _) _ _ => destruct b; go
    | |- post (match ?x with Some _ => _ | None => _ end) _ _ =>
        destruct x; go
    | |- post (orM _ _) _ _ => unfold orM; go
    | |- post (andM _ _) _ _ => unfold andM; go
    | |- post (notM _) _ _ => unfold notM; go
    | |- post (while _ _ _) _ _ =>
        eapply post_conseq;
        [ eapply consumes_post; apply while_consumes;
          [ intros ?q; go | intros ?s ?q; go ]
        | cbv beta; intros; go ]
    | |- post _ _ _ =>
        eapply post_conseq;
        [ eapply consumes_post; solve [eauto with consumes]
        | cbv beta; intros; go ]
    | |- _ => simpl in *; lia
    end
  in intros ?q; go.

(** ** Every rule consumes what it parses *)

Lemma get_next_token_line_consumes : consumes 0 get_next_token_line.
Proof. unfold get_next_token_line. consumes_tac. Qed.

Lemma check_next_token_type_consumes ty : consumes 0 (check_next_token_type ty).
Proof. unfold check_next_token_type. consumes_tac. Qed.

Lemma check_next_token_consumes ty txt : consumes 0 (check_next_token ty txt).
Proof. unfold check_next_token. consumes_tac. Qed.

#[export] Hint Resolve get_next_token_line_consumes
  check_next_token_type_consumes check_next_token_consumes : consumes.

Lemma match_and_discard_next_token_consumes ty txt :
  consumes 1 (match_and_discard_next_token ty txt).
Proof. unfold match_and_discard_next_token. consumes_tac. Qed.

Lemma parse_type_consumes : consumes 1 parse_type.
Proof. unfold parse_type. consumes_tac. Qed.

Lemma parse_id_consumes : consumes 1 parse_id.
Proof. unfold parse_id. consumes_tac. Qed.

#[export] Hint Resolve match_and_discard_next_token_consumes
  parse_type_consumes parse_id_consumes : consumes.

Lemma parse_vardecl_consumes : consumes 1 parse_vardecl.
Proof. unfold parse_vardecl. consumes_tac. Qed.

Lemma parse_params_consumes : consumes 1 parse_params.
Proof. unfold parse_params. consumes_tac. Qed.

Lemma parse_lit_consumes : consumes 1 parse_lit.
Proof. unfold parse_lit. consumes_tac. Qed.

#[export] Hint Resolve parse_vardecl_consumes parse_params_consumes
  parse_lit_consumes : consumes.

Section RulesConsume.

Variables parse_expr parse_block : M ASTNode.
Hypothesis parse_expr_consumes : consumes 0 parse_expr.
Hypothesis parse_block_consumes : consumes 0 parse_block.

Local Hint Resolve parse_expr_consumes parse_block_consumes : consumes.

Lemma parse_args_consumes : consumes 0 (parse_args parse_expr).
Proof. unfold parse_args. consumes_tac. Qed.
Local Hint Resolve parse_args_consumes : consumes.

Lemma parse_funccall_consumes : consumes 1 (parse_funccall parse_expr).
Proof. unfold parse_funccall. consumes_tac. Qed.

Lemma parse_loc_consumes : consumes 1 (parse_loc parse_expr).
Proof. unfold parse_loc. consumes_tac. Qed.

Lemma id_then_paren_consumes : consumes 0 id_then_paren.
Proof. unfold id_then_paren. consumes_tac. Qed.
Local Hint Resolve parse_funccall_consumes parse_loc_consumes
  id_then_paren_consumes : consumes.

Lemma parse_base_expr_consumes : consumes 1 (parse_base_expr parse_expr).
Proof. unfold parse_base_expr. consumes_tac. Qed.
Local Hint Resolve parse_base_expr_consumes : consumes.

Lemma parse_neg_consumes : consumes 1 (parse_neg parse_expr).
Proof. unfold parse_neg. consumes_tac. Qed.
Local Hint Resolve parse_neg_consumes : consumes.

Lemma parse_mult_consumes : consumes 1 (parse_mult parse_expr).
Proof. unfold parse_mult. consumes_tac. Qed.
Local Hint Resolve parse_mult_consumes : consumes.

Lemma parse_arith_consumes : consumes 1 (parse_arith parse_expr).
Proof. unfold parse_arith. consumes_tac. Qed.
Local Hint Resolve parse_arith_consumes : consumes.

Lemma parse_relational_consumes : consumes 1 (parse_relational parse_expr).
Proof. unfold parse_relational. consumes_tac. Qed.
Local Hint Resolve parse_relational_consumes : consumes.

Lemma parse_equality_consumes : consumes 1 (parse_equality parse_expr).
Proof. unfold parse_equality. consumes_tac. Qed.
Local Hint Resolve parse_equality_consumes : consumes.

Lemma parse_and_consumes : consumes 1 (parse_and parse_expr).
Proof. unfold parse_and. consumes_tac. Qed.
Local Hint Resolve parse_and_consumes : consumes.

Lemma parse_or_consumes : consumes 1 (parse_or parse_expr).
Proof. unfold parse_or. consumes_tac. Qed.
Local Hint Resolve parse_or_consumes : consumes.

Lemma parse_expr_body_consumes : consumes 1 (parse_expr_body parse_expr).
Proof. unfold parse_expr_body. consumes_tac. Qed.

Lemma parse_conditional_consumes :
  consumes 1 (parse_conditional parse_expr parse_block).
Proof. unfold parse_conditional. consumes_tac. Qed.

Lemma parse_while_consumes : consumes 1 (parse_while parse_expr parse_block).
Proof. unfold parse_while. consumes_tac. Qed.
Local Hint Resolve parse_conditional_consumes parse_while_consumes : consumes.

Lemma parse_statement_consumes :
  consumes 1 (parse_statement parse_expr parse_block).
Proof. unfold parse_statement. consumes_tac. Qed.
Local Hint Resolve parse_statement_consumes : consumes.

Lemma parse_block_body_consumes :
  consumes 1 (parse_block_body parse_expr parse_block).
Proof. unfold parse_block_body. consumes_tac. Qed.

Lemma parse_funcdecl_consumes : consumes 1 (parse_funcdecl parse_block).
Proof. unfold parse_funcdecl. consumes_tac. Qed.
Local Hint Resolve parse_funcdecl_consumes : consumes.

Lemma parse_program_consumes : consumes 0 (parse_program parse_block).
Proof. unfold parse_program, parse_program_step. consumes_tac. Qed.

End RulesConsume.

Lemma parse_expr_consumes n : consumes 1 (parse_expr n).
Proof.
  induction n as [|n IH]; simpl.
  - intros q. apply post_out_of_fuel.
  - apply parse_expr_body_consumes. eapply consumes_weaken; [|exact IH]. lia.
Qed.

Lemma parse_block_consumes n : consumes 1 (parse_block n).
Proof.
  induction n as [|n IH].
  - intros q. apply post_out_of_fuel.
  - change (parse_block (S n))
      with (parse_block_body (parse_expr (S n)) (parse_block n)).
    apply parse_block_body_consumes.
    + eapply consumes_weaken; [|apply parse_expr_consumes]. lia.
    + eapply consumes_weaken; [|exact IH]. lia.
Qed.

(** ** The rules stay within the depth of the model

    A nested call of [parse_expr] or [parse_block] is reached only after a
    token has been consumed: if the prototype is safe on queues of fewer
    than [n] tokens, the rule is safe on queues of fewer than [S n]. *)

Lemma spost_ret {A} (a : A) q (Q : A -> TokenQueue -> Prop) :
  Q a q -> spost (ret a) q Q.
Proof. intros H. split; [discriminate | apply post_ret, H]. Qed.

Lemma spost_bind {A B} (m : M A) (f : A -> M B) q Q :
  spost m q (fun a q1 => spost (f a) q1 Q) -> spost (bind m f) q Q.
Proof.
  unfold spost, safe, post, bind. intros [Hs Hp].
  destruct (m q) as [[a q1]| | |] eqn:Em; try congruence.
  - destruct (Hp a q1 eq_refl) as [Hs' Hp']. split; assumption.
  - split; [discriminate | intros; discriminate].
  - split; [discriminate | intros; discriminate].
Qed.

Lemma spost_bind_known {A B} (m : M A) (f : A -> M B) q a q1 Q :
  m q = OK (a, q1) -> spost (f a) q1 Q -> spost (bind m f) q Q.
Proof.
  unfold spost, safe, post, bind. intros Em [Hs Hp]. rewrite Em.
  split; assumption.
Qed.

Lemma spost_conseq {A} (m : M A) q (P Q : A -> TokenQueue -> Prop) :
  spost m q P -> (forall a q', P a q' -> Q a q') -> spost m q Q.
Proof.
  intros [Hs Hp] HPQ. split; [exact Hs | eapply post_conseq; eassumption].
Qed.

Lemma spost_throw {A} f a q (Q : A -> TokenQueue -> Prop) :
  spost (Error_throw_printf f a) q Q.
Proof. split; [discriminate | apply post_throw]. Qed.

Lemma spost_undefined {A} q (Q : A -> TokenQueue -> Prop) :
  spost undefined q Q.
Proof. split; [discriminate | apply post_undefined]. Qed.

Lemma spost_of {A} d (m : M A) q :
  consumes d m -> safe m q ->
  spost m q (fun _ q' => (List.length q' + d <= List.length q)%nat).
Proof. intros Hc Hs. split; [exact Hs | apply Hc]. Qed.

Lemma safe_below_apply {A} n (m : M A) q :
  safe_below n m -> (List.length q < n)%nat -> safe m q.
Proof. intros H Hq. apply H, Hq. Qed.

Lemma safe_below_weaken {A} n n' (m : M A) :
  (n' <= n)%nat -> safe_below n m -> safe_below n' m.
Proof. intros Hn H q Hq. apply H. lia. Qed.

Lemma pure_safe {A} (m : M A) q : pure m -> safe m q.
Proof. intros H. destruct (H q) as [a E]. unfold safe. congruence. Qed.

Lemma pure_spost {A} (m : M A) q (Q : A -> TokenQueue -> Prop) :
  pure m -> (forall a, m q = OK (a, q) -> Q a q) -> spost m q Q.
Proof.
  intros H HQ. destruct (H q) as [a E]. split.
  - unfold safe. congruence.
  - intros a' q' E'. rewrite E in E'. inversion E'; subst. apply HQ, E.
Qed.

Lemma pure_ret {A} (a : A) : pure (ret a).
Proof. intros q. exists a. reflexivity. Qed.

Lemma pure_bind {A B} (m : M A) (f : A -> M B) :
  pure m -> (forall a, pure (f a)) -> pure (bind m f).
Proof.
  intros Hm Hf q. destruct (Hm q) as [a E]. destruct (Hf a q) as [b E'].
  exists b. unfold bind. rewrite E. exact E'.
Qed.

Lemma TokenQueue_is_empty_pure : pure TokenQueue_is_empty.
Proof. intros q. eexists. reflexivity. Qed.

Lemma check_next_token_type_pure ty : pure (check_next_token_type ty).
Proof. intros [|t q]; eexists; reflexivity. Qed.

Lemma check_next_token_pure ty txt : pure (check_next_token ty txt).
Proof. intros [|t q]; eexists; reflexivity. Qed.

Lemma orM_pure a b : pure a -> pure b -> pure (a ||| b).
Proof.
  intros Ha Hb. apply pure_bind; [exact Ha|].
  intros [|]; [apply pure_ret | exact Hb].
Qed.

Lemma notM_pure a : pure a -> pure (notM a).
Proof. intros Ha. apply pure_bind; [exact Ha|]. intros; apply pure_ret. Qed.

Create HintDb pure.
#[export] Hint Resolve TokenQueue_is_empty_pure check_next_token_type_pure
  check_next_token_pure orM_pure notM_pure : pure.

Lemma get_next_token_line_safe q : safe get_next_token_line q.
Proof. destruct q; discriminate. Qed.

Lemma TokenQueue_remove_safe q : safe TokenQueue_remove q.
Proof. destruct q; discriminate. Qed.

Lemma TokenQueue_peek_safe q : safe TokenQueue_peek q.
Proof. destruct q; discriminate. Qed.

Lemma head_next_text_safe q : safe head_next_text q.
Proof. destruct q as [|t [|t2 q]]; discriminate. Qed.

Lemma while_loop_spost {St} (cond : M bool) (body : St -> M St)
      (q0 : TokenQueue) :
  pure cond ->
  (forall s q,
      (List.length q <= List.length q0)%nat -> cond q = OK (true, q) ->
      spost (body s) q
            (fun _ q' => (List.length q' + 1 <= List.length q)%nat)) ->
  forall k s q,
    (List.length q < k)%nat -> (List.length q <= List.length q0)%nat ->
    spost (while_loop k cond body s) q
          (fun _ q' => (List.length q' <= List.length q)%nat).
Proof.
  intros Hc Hb. induction k as [|k IH]; intros s q Hk Hq; [lia|].
  simpl. destruct (Hc q) as [c Ec].
  eapply spost_bind_known; [exact Ec|].
  destruct c; [|apply spost_ret; lia].
  apply spost_bind. eapply spost_conseq; [apply Hb; assumption|].
  cbv beta. intros s' q1 H1.
  eapply spost_conseq; [apply IH; lia|]. cbv beta. intros; lia.
Qed.

Lemma while_spost {St} (cond : M bool) (body : St -> M St) s q :
  pure cond ->
  (forall s q',
      (List.length q' <= List.length q)%nat -> cond q' = OK (true, q') ->
      spost (body s) q'
            (fun _ q'' => (List.length q'' + 1 <= List.length q')%nat)) ->
  spost (while cond body s) q
        (fun _ q' => (List.length q' <= List.length q)%nat).
Proof.
  intros Hc Hb. unfold while.
  apply (while_loop_spost cond body q Hc Hb); lia.
Qed.

Create HintDb safe.
#[export] Hint Resolve get_next_token_line_safe TokenQueue_remove_safe
  TokenQueue_peek_safe head_next_text_safe : safe.

(** A proof of [spost] follows the rule like [consumes_tac] does; a rule
    that is called is safe because it only reads the queue, because it
    never recurses, or because the queue is short enough by now. *)
Ltac safe_leaf :=
  first
    [ solve [apply pure_safe; eauto with pure]
    | solve [eauto with safe]
    | eapply safe_below_apply; [solve [eauto with safe] | simpl in *; lia] ].

Ltac safe_tac :=
  let rec go :=
    cbv beta iota;
    lazymatch goal with
    | H : ?m ?q = OK _ |- spost (bind ?m _) ?q _ =>
        eapply spost_bind_known; [exact H|]; go
    | |- spost (bind _ _) _ _ => apply spost_bind; go
    | |- spost (ret _) _ _ => apply spost_ret; go
    | |- spost (Error_throw_printf _ _) _ _ => apply spost_throw
    | |- spost undefined _ _ => apply spost_undefined
    | |- spost (if ?b then _ else _) _ _ => destruct b; go
    | |- spost (match ?x with Some _ => _ | None => _ end) _ _ =>
        destruct x; go
    | |- spost (orM _ _) _ _ => unfold orM; go
    | |- spost (andM _ _) _ _ => unfold andM; go
    | |- spost (notM _) _ _ => unfold notM; go
    | |- spost (while _ _ _) _ _ =>
        eapply spost_conseq;
        [ apply while_spost;
          [ solve [eauto 8 with pure] | intros ?s ?q ?Hle ?Hcond; go ]
        | cbv beta; intros; go ]
    | |- spost _ _ _ =>
        eapply spost_conseq;
        [ eapply spost_of; [ solve [eauto with consumes] | safe_leaf ]
        | cbv beta; intros; go ]
    | |- _ => simpl in *; lia
    end
  in go.

(** [safe_below] from [spost]. *)
Lemma safe_below_intro {A} n (m : M A) :
  (forall q, (List.length q < n)%nat -> spost m q (fun _ _ => True)) ->
  safe_below n m.
Proof. intros H q Hq. apply (H q Hq). Qed.

Ltac safe_start := apply safe_below_intro; intros ?q ?Hlen.

Lemma total_safe_below {A} n (m : M A) :
  (forall q, safe m q) -> safe_below n m.
Proof. intros H q _. apply H. Qed.

Lemma spost_safe {A} (m : M A) q :
  spost m q (fun _ _ => True) -> safe m q.
Proof. intros [H _]. exact H. Qed.

Ltac total_start := intros ?q; apply spost_safe.

Lemma match_and_discard_next_token_safe ty txt q :
  safe (match_and_discard_next_token ty txt) q.
Proof.
  revert q. total_start. unfold match_and_discard_next_token.
  safe_tac; exact I.
Qed.

Lemma parse_type_safe q : safe parse_type q.
Proof. revert q. total_start. unfold parse_type. safe_tac; exact I. Qed.

Lemma parse_id_safe q : safe parse_id q.
Proof. revert q. total_start. unfold parse_id. safe_tac; exact I. Qed.

#[export] Hint Resolve match_and_discard_next_token_safe parse_type_safe
  parse_id_safe : safe.

Lemma parse_vardecl_safe q : safe parse_vardecl q.
Proof. revert q. total_start. unfold parse_vardecl. safe_tac; exact I. Qed.

Lemma parse_params_safe q : safe parse_params q.
Proof. revert q. total_start. unfold parse_params. safe_tac; exact I. Qed.

Lemma parse_lit_safe q : safe parse_lit q.
Proof. revert q. total_start. unfold parse_lit. safe_tac; exact I. Qed.

#[export] Hint Resolve parse_vardecl_safe parse_params_safe
  parse_lit_safe : safe.

Section RulesSafe.

Variables parse_expr parse_block : M ASTNode.
Variable n : nat.
Hypothesis parse_expr_consumes : consumes 0 parse_expr.
Hypothesis parse_block_consumes : consumes 0 parse_block.
Hypothesis parse_expr_safe : safe_below n parse_expr.
Hypothesis parse_block_safe : safe_below n parse_block.

Local Hint Resolve parse_expr_consumes parse_block_consumes : consumes.
Local Hint Resolve parse_args_consumes parse_funccall_consumes
  parse_loc_consumes id_then_paren_consumes parse_base_expr_consumes
  parse_neg_consumes parse_mult_consumes parse_arith_consumes
  parse_relational_consumes parse_equality_consumes parse_and_consumes
  parse_or_consumes parse_conditional_consumes parse_while_consumes
  parse_statement_consumes parse_funcdecl_consumes : consumes.
Local Hint Resolve parse_expr_safe parse_block_safe : safe.

Lemma parse_args_safe : safe_below n (parse_args parse_expr).
Proof. safe_start. unfold parse_args. safe_tac; exact I. Qed.
Local Hint Resolve parse_args_safe : safe.

Lemma parse_funccall_safe : safe_below (S n) (parse_funccall parse_expr).
Proof. safe_start. unfold parse_funccall. safe_tac; exact I. Qed.

Lemma parse_loc_safe : safe_below (S n) (parse_loc parse_expr).
Proof. safe_start. unfold parse_loc. safe_tac; exact I. Qed.

Lemma id_then_paren_safe q : safe id_then_paren q.
Proof. revert q. total_start. unfold id_then_paren. safe_tac; exact I. Qed.
Local Hint Resolve parse_funccall_safe parse_loc_safe id_then_paren_safe : safe.

Lemma parse_base_expr_safe : safe_below (S n) (parse_base_expr parse_expr).
Proof. safe_start. unfold parse_base_expr. safe_tac; exact I. Qed.
Local Hint Resolve parse_base_expr_safe : safe.

Lemma parse_neg_safe : safe_below (S n) (parse_neg parse_expr).
Proof. safe_start. unfold parse_neg. safe_tac; exact I. Qed.
Local Hint Resolve parse_neg_safe : safe.

Lemma parse_mult_safe : safe_below (S n) (parse_mult parse_expr).
Proof. safe_start. unfold parse_mult. safe_tac; exact I. Qed.
Local Hint Resolve parse_mult_safe : safe.

Lemma parse_arith_safe : safe_below (S n) (parse_arith parse_expr).
Proof. safe_start. unfold parse_arith. safe_tac; exact I. Qed.
Local Hint Resolve parse_arith_safe : safe.

Lemma parse_relational_safe : safe_below (S n) (parse_relational parse_expr).
Proof. safe_start. unfold parse_relational. safe_tac; exact I. Qed.
Local Hint Resolve parse_relational_safe : safe.

Lemma parse_equality_safe : safe_below (S n) (parse_equality parse_expr).
Proof. safe_start. unfold parse_equality. safe_tac; exact I. Qed.
Local Hint Resolve parse_equality_safe : safe.

Lemma parse_and_safe : safe_below (S n) (parse_and parse_expr).
Proof. safe_start. unfold parse_and. safe_tac; exact I. Qed.
Local Hint Resolve parse_and_safe : safe.

Lemma parse_or_safe : safe_below (S n) (parse_or parse_expr).
Proof. safe_start. unfold parse_or. safe_tac; exact I. Qed.
Local Hint Resolve parse_or_safe : safe.

Lemma parse_expr_body_safe : safe_below (S n) (parse_expr_body parse_expr).
Proof. safe_start. unfold parse_expr_body. safe_tac; exact I. Qed.

Lemma parse_conditional_safe :
  safe_below (S n) (parse_conditional parse_expr parse_block).
Proof. safe_start. unfold parse_conditional. safe_tac; exact I. Qed.

Lemma parse_while_safe :
  safe_below (S n) (parse_while parse_expr parse_block).
Proof. safe_start. unfold parse_while. safe_tac; exact I. Qed.
Local Hint Resolve parse_conditional_safe parse_while_safe : safe.

Lemma parse_statement_safe :
  safe_below (S n) (parse_statement parse_expr parse_block).
Proof. safe_start. unfold parse_statement. safe_tac; exact I. Qed.
Local Hint Resolve parse_statement_safe : safe.

Lemma parse_block_body_safe :
  safe_below (S n) (parse_block_body parse_expr parse_block).
Proof. safe_start. unfold parse_block_body. safe_tac; exact I. Qed.

Lemma parse_funcdecl_safe : safe_below (S n) (parse_funcdecl parse_block).
Proof. safe_start. unfold parse_funcdecl. safe_tac; exact I. Qed.
Local Hint Resolve parse_funcdecl_safe : safe.

Lemma parse_program_safe : safe_below (S n) (parse_program parse_block).
Proof.
  safe_start. unfold parse_program, parse_program_step. safe_tac; exact I.
Qed.

End RulesSafe.

Lemma parse_expr_safe n : safe_below n (parse_expr n).
Proof.
  induction n as [|n IH].
  - intros q Hq. lia.
  - apply parse_expr_body_safe; [|exact IH].
    eapply consumes_weaken; [|apply parse_expr_consumes]. lia.
Qed.

Lemma parse_block_safe n : safe_below n (parse_block n).
Proof.
  induction n as [|n IH].
  - intros q Hq. lia.
  - change (parse_block (S n))
      with (parse_block_body (parse_expr (S n)) (parse_block n)).
    apply parse_block_body_safe.
    + eapply consumes_weaken; [|apply parse_expr_consumes]. lia.
    + eapply consumes_weaken; [|apply parse_block_consumes]. lia.
    + eapply safe_below_weaken; [|apply parse_expr_safe]. lia.
    + exact IH.
Qed.

(** The entry point never exhausts the depth it starts with. *)
Lemma parse_never_out_of_fuel input : parse input <> OutOfFuel.
Proof.
  destruct input as [q|]; simpl; [|discriminate].
  apply (parse_program_safe (parse_block (S (List.length q)))
                            (List.length q)).
  - eapply consumes_weaken; [|apply parse_block_consumes]. lia.
  - eapply safe_below_weaken; [|apply parse_block_safe]. lia.
  - lia.
Qed.

(** ** A deeper recursion changes nothing once the depth suffices *)

Lemma refines_refl {A} (m : M A) : refines m m.
Proof. intros q _. reflexivity. Qed.

Lemma refines_bind {A B} (m m' : M A) (f f' : A -> M B) :
  refines m m' -> (forall a, refines (f a) (f' a)) ->
  refines (bind m f) (bind m' f').
Proof.
  intros Hm Hf q. unfold bind. intros H.
  rewrite (Hm q) by (intros E; rewrite E in H; congruence).
  destruct (m q) as [[a q1]| | |]; try reflexivity.
  apply Hf, H.
Qed.

Lemma refines_while_loop {St} (cond : M bool) (body body' : St -> M St) :
  (forall s, refines (body s) (body' s)) ->
  forall k s, refines (while_loop k cond body s) (while_loop k cond body' s).
Proof.
  intros Hb. induction k as [|k IH]; intros s; simpl.
  - apply refines_refl.
  - apply refines_bind; [apply refines_refl|].
    intros [|]; [|apply refines_refl].
    apply refines_bind; [apply Hb | apply IH].
Qed.

Lemma refines_while {St} (cond : M bool) (body body' : St -> M St) s :
  (forall s, refines (body s) (body' s)) ->
  refines (while cond body s) (while cond body' s).
Proof. intros Hb q. unfold while. apply refines_while_loop, Hb. Qed.

Create HintDb refines.

(** A proof of [refines] between two instances of a rule follows the rule:
    equal parts are skipped, the prototypes refine by assumption. *)
Ltac refines_tac :=
  let rec go :=
    cbv beta;
    lazymatch goal with
    | |- refines ?m ?m' =>
        first
          [ constr_eq m m'; apply refines_refl
          | lazymatch m with
            | bind _ _ => apply refines_bind; [go | intros ?a; go]
            | while _ _ _ => apply refines_while; intros ?s; go
            | if ?b then _ else _ => destruct b; go
            | _ => solve [auto with refines]
            end ]
    end
  in go.

Section RulesRefine.

Variables parse_expr parse_expr' parse_block parse_block' : M ASTNode.
Hypothesis parse_expr_refines : refines parse_expr parse_expr'.
Hypothesis parse_block_refines : refines parse_block parse_block'.

Local Hint Resolve parse_expr_refines parse_block_refines : refines.

Lemma parse_args_refines :
  refines (parse_args parse_expr) (parse_args parse_expr').
Proof. unfold parse_args. refines_tac. Qed.
Local Hint Resolve parse_args_refines : refines.

Lemma parse_funccall_refines :
  refines (parse_funccall parse_expr) (parse_funccall parse_expr').
Proof. unfold parse_funccall. refines_tac. Qed.

Lemma parse_loc_refines :
  refines (parse_loc parse_expr) (parse_loc parse_expr').
Proof. unfold parse_loc. refines_tac. Qed.
Local Hint Resolve parse_funccall_refines parse_loc_refines : refines.

Lemma parse_base_expr_refines :
  refines (parse_base_expr parse_expr) (parse_base_expr parse_expr').
Proof. unfold parse_base_expr. refines_tac. Qed.
Local Hint Resolve parse_base_expr_refines : refines.

Lemma parse_neg_refines :
  refines (parse_neg parse_expr) (parse_neg parse_expr').
Proof. unfold parse_neg. refines_tac. Qed.
Local Hint Resolve parse_neg_refines : refines.

Lemma parse_mult_refines :
  refines (parse_mult parse_expr) (parse_mult parse_expr').
Proof. unfold parse_mult. refines_tac. Qed.
Local Hint Resolve parse_mult_refines : refines.

Lemma parse_arith_refines :
  refines (parse_arith parse_expr) (parse_arith parse_expr').
Proof. unfold parse_arith. refines_tac. Qed.
Local Hint Resolve parse_arith_refines : refines.

Lemma parse_relational_refines :
  refines (parse_relational parse_expr) (parse_relational parse_expr').
Proof. unfold parse_relational. refines_tac. Qed.
Local Hint Resolve parse_relational_refines : refines.

Lemma parse_equality_refines :
  refines (parse_equality parse_expr) (parse_equality parse_expr').
Proof. unfold parse_equality. refines_tac. Qed.
Local Hint Resolve parse_equality_refines : refines.

Lemma parse_and_refines :
  refines (parse_and parse_expr) (parse_and parse_expr').
Proof. unfold parse_and. refines_tac. Qed.
Local Hint Resolve parse_and_refines : refines.

Lemma parse_or_refines :
  refines (parse_or parse_expr) (parse_or parse_expr').
Proof. unfold parse_or. refines_tac. Qed.
Local Hint Resolve parse_or_refines : refines.

Lemma parse_expr_body_refines :
  refines (parse_expr_body parse_expr) (parse_expr_body parse_expr').
Proof. unfold parse_expr_body. refines_tac. Qed.

Lemma parse_conditional_refines :
  refines (parse_conditional parse_expr parse_block)
          (parse_conditional parse_expr' parse_block').
Proof. unfold parse_conditional. refines_tac. Qed.

Lemma parse_while_refines :
  refines (parse_while parse_expr parse_block)
          (parse_while parse_expr' parse_block').
Proof. unfold parse_while. refines_tac. Qed.
Local Hint Resolve parse_conditional_refines parse_while_refines : refines.

Lemma parse_statement_refines :
  refines (parse_statement parse_expr parse_block)
          (parse_statement parse_expr' parse_block').
Proof. unfold parse_statement. refines_tac. Qed.
Local Hint Resolve parse_statement_refines : refines.

Lemma parse_block_body_refines :
  refines (parse_block_body parse_expr parse_block)
          (parse_block_body parse_expr' parse_block').
Proof. unfold parse_block_body. refines_tac. Qed.

Lemma parse_funcdecl_refines :
  refines (parse_funcdecl parse_block) (parse_funcdecl parse_block').
Proof. unfold parse_funcdecl. refines_tac. Qed.
Local Hint Resolve parse_funcdecl_refines : refines.

Lemma parse_program_refines :
  refines (parse_program parse_block) (parse_program parse_block').
Proof. unfold parse_program, parse_program_step. refines_tac. Qed.

End RulesRefine.

Lemma refines_trans {A} (m1 m2 m3 : M A) :
  refines m1 m2 -> refines m2 m3 -> refines m1 m3.
Proof.
  intros H12 H23 q H. rewrite <- (H12 q H). apply H23.
  rewrite (H12 q H). exact H.
Qed.

Lemma parse_expr_step n : refines (parse_expr n) (parse_expr (S n)).
Proof.
  induction n as [|n IH].
  - intros q H. exfalso. apply H. reflexivity.
  - apply parse_expr_body_refines, IH.
Qed.

Lemma parse_expr_mono n m :
  (n <= m)%nat -> refines (parse_expr n) (parse_expr m).
Proof.
  induction 1 as [|m Hle IH]; [apply refines_refl|].
  eapply refines_trans; [exact IH | apply parse_expr_step].
Qed.

Lemma parse_block_step n : refines (parse_block n) (parse_block (S n)).
Proof.
  induction n as [|n IH].
  - intros q H. exfalso. apply H. reflexivity.
  - change (refines (parse_block_body (parse_expr (S n)) (parse_block n))
                    (parse_block_body (parse_expr (S (S n)))
                                      (parse_block (S n)))).
    apply parse_block_body_refines; [apply parse_expr_step | exact IH].
Qed.

Lemma parse_block_mono n m :
  (n <= m)%nat -> refines (parse_block n) (parse_block m).
Proof.
  induction 1 as [|m Hle IH]; [apply refines_refl|].
  eapply refines_trans; [exact IH | apply parse_block_step].
Qed.

(** Any two depths above the number of tokens give the same result. *)
Lemma parse_expr_depth n m q :
  (List.length q < n)%nat -> (List.length q < m)%nat ->
  parse_expr n q = parse_expr m q.
Proof.
  intros Hn Hm. destruct (Nat.le_ge_cases n m) as [H|H].
  - symmetry. apply (parse_expr_mono n m H), parse_expr_safe, Hn.
  - apply (parse_expr_mono m n H), parse_expr_safe, Hm.
Qed.

Lemma parse_block_depth n m q :
  (List.length q < n)%nat -> (List.length q < m)%nat ->
  parse_block n q = parse_block m q.
Proof.
  intros Hn Hm. destruct (Nat.le_ge_cases n m) as [H|H].
  - symmetry. apply (parse_block_mono n m H), parse_block_safe, Hn.
  - apply (parse_block_mono m n H), parse_block_safe, Hm.
Qed.

(** The depth that [parse] starts with is immaterial: any depth above the
    number of tokens gives its result. *)
Lemma parse_program_depth n q :
  (List.length q < n)%nat ->
  parse_program (parse_block n) q = parse (Some q).
Proof.
  intros Hn. simpl.
  apply (parse_program_refines (parse_block (S (List.length q)))
                               (parse_block n)).
  - apply parse_block_mono. lia.
  - apply (parse_never_out_of_fuel (Some q)).
Qed.

(** * The statements of the specification *)

(** ** Conditionals *)

(** C1 (evaluated at the input on which the code departs from it).  On the
    statement [if (x) { } else { }] the parser does not return an If node
    with an empty else-block: after [else], [parse_conditional] calls
    [parse_expr], not [parse_block], so the opening brace of the else-branch
    is rejected as an invalid base expression.  The same call makes
    [if (x) { } else y;] parse, with the expression [y] stored as the
    else-block. *)
Theorem parse_conditional_else_is_parsed_as_expr (n : nat) (l : Z) :
  parse_statement (parse_expr (S n)) (parse_block (S n)) (if_else_tokens l)
  = Throw (InvalidBaseExpression "{" l)
  /\ parse_statement (parse_expr (S n)) (parse_block (S n))
                     (if_else_expr_tokens l)
     = OK (ConditionalNode (LocationNode "x" None l) (BlockNode [] [] l)
                           (Some (LocationNode "y" None l)) l,
           [sym ";" l]).
Proof. split; reflexivity. Qed.

(** ** Precedence *)

(** C2.  Multiplicative operators bind tighter than additive ones: the
    tokens of [1 + 2 * 3], on any lines and at any depth of at least one,
    parse to ADD(1, MUL(2, 3)) with nothing left, and so not to
    MUL(ADD(1, 2), 3). *)
Theorem parse_expr_mul_binds_tighter (n : nat) (l1 l2 l3 l4 l5 : Z) :
  parse_expr (S n) (one_plus_two_times_three l1 l2 l3 l4 l5)
  = OK (BinaryOpNode ADDOP
          (LiteralNode (IntLit 1) l1)
          (BinaryOpNode MULOP (LiteralNode (IntLit 2) l3)
                        (LiteralNode (IntLit 3) l5) l3)
          l1, [])
  /\ forall la lb lc ld le q',
      parse_expr (S n) (one_plus_two_times_three l1 l2 l3 l4 l5)
      <> OK (BinaryOpNode MULOP
               (BinaryOpNode ADDOP (LiteralNode (IntLit 1) la)
                             (LiteralNode (IntLit 2) lb) lc)
               (LiteralNode (IntLit 3) ld) le, q').
Proof.
  assert (E : parse_expr (S n) (one_plus_two_times_three l1 l2 l3 l4 l5)
              = OK (BinaryOpNode ADDOP
                      (LiteralNode (IntLit 1) l1)
                      (BinaryOpNode MULOP (LiteralNode (IntLit 2) l3)
                                    (LiteralNode (IntLit 3) l5) l3)
                      l1, [])) by reflexivity.
  split; [exact E|].
  intros la lb lc ld le q'. rewrite E. discriminate.
Qed.

(** ** Variable declarations *)

(** C5.  [int a[10];] yields the array declaration of [a] with type INT and
    length 10; [int a;] yields the scalar declaration with length 1.  Both
    consume exactly their own tokens. *)
Theorem parse_vardecl_scalar_and_array (l : Z) (rest : TokenQueue) :
  parse_vardecl (array_decl_tokens l ++ rest)%list
  = OK (VarDeclNode "a" INT true 10 l, rest)
  /\ parse_vardecl (scalar_decl_tokens l ++ rest)%list
     = OK (VarDeclNode "a" INT false 1 l, rest).
Proof. split; reflexivity. Qed.

(** ** Mismatched tokens *)

Lemma TokenType_eqb_eq a b : TokenType_eqb a b = true <-> a = b.
Proof. destruct a, b; simpl; split; intros H; congruence. Qed.

Lemma mismatch_test ty txt t :
  type t <> ty \/ text t <> txt ->
  negb (TokenType_eqb (type t) ty) || negb (token_str_eq (text t) txt) = true.
Proof.
  intros [H|H].
  - destruct (TokenType_eqb (type t) ty) eqn:E; [|reflexivity].
    apply TokenType_eqb_eq in E. contradiction.
  - unfold token_str_eq. destruct (String.eqb (text t) txt) eqn:E.
    + apply String.eqb_eq in E. contradiction.
    + apply orb_true_r.
Qed.

(** C6, as the code has it.  When the next token has the wrong type or
    text, [match_and_discard_next_token] removes it and then reads the line
    of the token that follows: with a following token the error is a
    TokenMismatch stating the expected text, the actual text and that line;
    with none, the read itself fails and the error raised is an
    UnexpectedEndOfInput, with no texts and no line. *)
Theorem match_and_discard_next_token_mismatch
        (ty : TokenType) (txt : string) (t : Token) (q : TokenQueue) :
  type t <> ty \/ text t <> txt ->
  match_and_discard_next_token ty txt (t :: q)
  = match q with
    | next :: _ => Throw (TokenMismatch txt (text t) (line next))
    | [] => Throw UnexpectedEndOfInput
    end.
Proof.
  intros H. apply mismatch_test in H.
  unfold match_and_discard_next_token, bind. simpl. rewrite H.
  destruct q; reflexivity.
Qed.

Lemma match_and_discard_next_token_mismatch_witness :
  (type (sym "}" 3) <> SYM \/ text (sym "}" 3) <> ";")
  /\ match_and_discard_next_token SYM ";" [sym "}" 3; ident "x" 7]
     = Throw (TokenMismatch ";" "}" 7).
Proof.
  assert (H : type (sym "}" 3) <> SYM \/ text (sym "}" 3) <> ";")
    by (right; discriminate).
  split; [exact H|].
  exact (match_and_discard_next_token_mismatch SYM ";" (sym "}" 3)
                                               [ident "x" 7] H).
Defined.

(** C6 as stated fails: a mismatched last token, [}] on line 3 where [;] is
    expected, does not give a TokenMismatch on line 3 but the error of the
    empty queue. *)
Lemma match_and_discard_next_token_last_token :
  match_and_discard_next_token SYM ";" [sym "}" 3]
  <> Throw (TokenMismatch ";" "}" 3)
  /\ match_and_discard_next_token SYM ";" [sym "}" 3]
     = Throw UnexpectedEndOfInput.
Proof. split; [discriminate | reflexivity]. Qed.

(** ** The two-token lookahead *)

(** C10.  With an identifier as the only token left, [parse_base_expr] and
    [parse_statement] read [input->head->next->text] through the null
    [next] of the head and end in undefined behaviour, not in an error.
    With a second token behind the identifier the read returns its text and
    the dispatch goes on to the call or to the location. *)
Theorem identifier_lookahead_needs_second_token (t : Token) :
  type t = ID ->
  (forall E, parse_base_expr E [t] = Undefined)
  /\ (forall E B, parse_statement E B [t] = Undefined)
  /\ (forall t2 q,
         head_next_text (t :: t2 :: q) = OK (text t2, t :: t2 :: q)
         /\ id_then_paren (t :: t2 :: q)
            = OK (token_str_eq (text t2) "(", t :: t2 :: q))
  /\ (forall E t2 q,
         parse_base_expr E (t :: t2 :: q)
         = if token_str_eq (text t2) "(" then parse_funccall E (t :: t2 :: q)
           else parse_loc E (t :: t2 :: q))
  /\ (forall E B t2 q,
         parse_statement E B (t :: t2 :: q)
         = if token_str_eq (text t2) "("
           then (n <- parse_funccall E ;;
                 match_and_discard_next_token SYM ";" ;;;
                 ret n) (t :: t2 :: q)
           else (loc <- parse_loc E ;;
                 match_and_discard_next_token SYM "=" ;;;
                 value <- E ;;
                 match_and_discard_next_token SYM ";" ;;;
                 ret (AssignmentNode loc value (line t))) (t :: t2 :: q)).
Proof.
  destruct t as [ty tx l]. simpl. intros ->.
  split; [reflexivity|]. split; [reflexivity|].
  split; [intros; split; reflexivity|].
  split.
  - intros E t2 q. unfold parse_base_expr, id_then_paren, bind. simpl.
    destruct (token_str_eq (text t2) "("); reflexivity.
  - intros E B t2 q. unfold parse_statement, id_then_paren, bind. simpl.
    destruct (token_str_eq (text t2) "("); reflexivity.
Qed.

Lemma identifier_lookahead_needs_second_token_witness :
  type (ident "x" 1) = ID
  /\ parse_base_expr (parse_expr 1) [ident "x" 1] = Undefined
  /\ parse_statement (parse_expr 1) (parse_block 1) [ident "x" 1] = Undefined.
Proof.
  split; [reflexivity|].
  destruct (identifier_lookahead_needs_second_token (ident "x" 1) eq_refl)
    as (H1 & H2 & _).
  split; [apply H1 | apply H2].
Defined.

(** ** The top level *)

Lemma while_loop_exit {St} (cond : M bool) (body : St -> M St) :
  pure cond ->
  forall k s q,
    post (while_loop k cond body s) q (fun _ q' => cond q' = OK (false, q')).
Proof.
  intros Hc. induction k as [|k IH]; intros s q s' q'; simpl; unfold bind;
    destruct (Hc q) as [c Ec]; rewrite Ec; destruct c; try discriminate.
  - intros H. inversion H; subst. exact Ec.
  - destruct (body s q) as [[s1 q1]| | |] eqn:Eb; try discriminate.
    apply IH.
  - intros H. inversion H; subst. exact Ec.
Qed.

Lemma parse_program_returns_at_end B q p q' :
  parse_program B q = OK (p, q') ->
  q' = [] /\ exists vars funcs, p = ProgramNode vars funcs.
Proof.
  unfold parse_program, bind, while. intros H.
  destruct (while_loop _ _ _ _ q) as [[vf q1]| | |] eqn:Ew; try discriminate.
  inversion H; subst. split; [|eauto].
  apply while_loop_exit in Ew; [|auto with pure].
  destruct q'; [reflexivity | discriminate].
Qed.

Lemma parse_funcdecl_depth n m q :
  (List.length q <= n)%nat -> (List.length q <= m)%nat ->
  parse_funcdecl (parse_block n) q = parse_funcdecl (parse_block m) q.
Proof.
  assert (H : forall n m, (n <= m)%nat -> (List.length q <= n)%nat ->
               parse_funcdecl (parse_block m) q
               = parse_funcdecl (parse_block n) q).
  { intros a b Hab Ha.
    apply (parse_funcdecl_refines (parse_block a) (parse_block b)
                                  (parse_block_mono a b Hab)).
    apply (parse_funcdecl_safe (parse_block a) a).
    - eapply consumes_weaken; [|apply parse_block_consumes]. lia.
    - apply parse_block_safe.
    - lia. }
  intros Hn Hm. destruct (Nat.le_ge_cases n m) as [Hle|Hle].
  - symmetry. apply H; assumption.
  - apply H; assumption.
Qed.

Lemma def_test t q :
  check_next_token KEY "def" (t :: q)
  = OK (TokenType_eqb (type t) KEY && token_str_eq (text t) "def", t :: q).
Proof. reflexivity. Qed.

Lemma def_test_true t :
  TokenType_eqb (type t) KEY && token_str_eq (text t) "def" = true
  <-> type t = KEY /\ text t = "def".
Proof.
  rewrite andb_true_iff, TokenType_eqb_eq. unfold token_str_eq.
  rewrite String.eqb_eq. reflexivity.
Qed.

Lemma program_loop_sound N :
  forall k vs fs q vs' fs' q',
    (List.length q <= N)%nat ->
    while_loop k (notM TokenQueue_is_empty)
               (parse_program_step (parse_block N)) (vs, fs) q
    = OK ((vs', fs'), q') ->
    q' = [] /\
    exists dv df, vs' = (vs ++ dv)%list /\ fs' = (fs ++ df)%list /\
                  top_level q dv df.
Proof.
  induction k as [|k IH]; intros vs fs q vs' fs' q' HN H.
  - destruct q as [|t q]; simpl in H; [|discriminate].
    inversion H; subst. split; [reflexivity|].
    exists [], []. rewrite !app_nil_r. repeat split. constructor.
  - destruct q as [|t q].
    + simpl in H. inversion H; subst. split; [reflexivity|].
      exists [], []. rewrite !app_nil_r. repeat split. constructor.
    + change (while_loop (S k) (notM TokenQueue_is_empty)
                (parse_program_step (parse_block N)) (vs, fs) (t :: q))
        with (bind (parse_program_step (parse_block N) (vs, fs))
                   (while_loop k (notM TokenQueue_is_empty)
                      (parse_program_step (parse_block N))) (t :: q)) in H.
      unfold bind at 1 in H. unfold parse_program_step in H at 1.
      unfold bind at 1 in H. rewrite def_test in H.
      destruct (TokenType_eqb (type t) KEY && token_str_eq (text t) "def")
        eqn:Edef.
      * unfold bind at 1 in H.
        destruct (parse_funcdecl (parse_block N) (t :: q))
          as [[f q1]| | |] eqn:Ef; try discriminate.
        simpl fst in H. simpl snd in H. unfold ret at 1 in H.
        pose proof (parse_funcdecl_consumes (parse_block N)
                      (consumes_weaken 1 0 _ (Nat.le_0_l 1)
                                       (parse_block_consumes N))
                      _ _ _ Ef) as Hlen.
        simpl in Hlen, HN.
        apply IH in H; [|lia].
        destruct H as (-> & dv & df & -> & -> & Htop).
        split; [reflexivity|].
        exists dv, (f :: df). rewrite <- app_assoc. repeat split.
        eapply top_level_func; [apply def_test_true, Edef| |exact Htop].
        rewrite <- Ef. apply parse_funcdecl_depth; simpl; lia.
      * unfold bind at 1 in H.
        destruct (parse_vardecl (t :: q)) as [[v q1]| | |] eqn:Ev;
          try discriminate.
        simpl fst in H. simpl snd in H. unfold ret at 1 in H.
        pose proof (parse_vardecl_consumes _ _ _ Ev) as Hlen.
        simpl in Hlen, HN.
        apply IH in H; [|lia].
        destruct H as (-> & dv & df & -> & -> & Htop).
        split; [reflexivity|].
        exists (v :: dv), df. rewrite <- app_assoc. repeat split.
        eapply top_level_var; [|exact Ev|exact Htop].
        rewrite <- def_test_true, Edef. discriminate.
Qed.

Lemma program_loop_complete N q dv df :
  top_level q dv df ->
  forall k vs fs,
    (List.length q < k)%nat -> (List.length q <= N)%nat ->
    while_loop k (notM TokenQueue_is_empty)
               (parse_program_step (parse_block N)) (vs, fs) q
    = OK ((vs ++ dv, fs ++ df)%list, []).
Proof.
  induction 1 as [|t q f q' vars funcs Hdef Hf Htop IH
                  |t q v q' vars funcs Hdef Hv Htop IH];
    intros k vs fs Hk HN.
  - destruct k; [lia|]. simpl. rewrite !app_nil_r. reflexivity.
  - destruct k as [|k]; [lia|].
    change (while_loop (S k) (notM TokenQueue_is_empty)
              (parse_program_step (parse_block N)) (vs, fs) (t :: q))
      with (bind (parse_program_step (parse_block N) (vs, fs))
                 (while_loop k (notM TokenQueue_is_empty)
                    (parse_program_step (parse_block N))) (t :: q)).
    unfold bind at 1. unfold parse_program_step at 1.
    unfold bind at 1. rewrite def_test.
    apply def_test_true in Hdef. rewrite Hdef.
    unfold bind at 1.
    rewrite (parse_funcdecl_depth N (S (List.length q)) (t :: q))
      by (simpl in *; lia).
    rewrite Hf. simpl fst. simpl snd. unfold ret at 1.
    pose proof (parse_funcdecl_consumes (parse_block (S (List.length q)))
                  (consumes_weaken 1 0 _ (Nat.le_0_l 1)
                                   (parse_block_consumes _))
                  _ _ _ Hf) as Hlen.
    simpl in Hlen, HN, Hk.
    rewrite IH by lia. rewrite <- app_assoc. reflexivity.
  - destruct k as [|k]; [lia|].
    change (while_loop (S k) (notM TokenQueue_is_empty)
              (parse_program_step (parse_block N)) (vs, fs) (t :: q))
      with (bind (parse_program_step (parse_block N) (vs, fs))
                 (while_loop k (notM TokenQueue_is_empty)
                    (parse_program_step (parse_block N))) (t :: q)).
    unfold bind at 1. unfold parse_program_step at 1.
    unfold bind at 1. rewrite def_test.
    destruct (TokenType_eqb (type t) KEY && token_str_eq (text t) "def")
      eqn:Edef; [apply def_test_true in Edef; contradiction|].
    unfold bind at 1. rewrite Hv. simpl fst. simpl snd. unfold ret at 1.
    pose proof (parse_vardecl_consumes _ _ _ Hv) as Hlen.
    simpl in Hlen, HN, Hk.
    rewrite IH by lia. rewrite <- app_assoc. reflexivity.
Qed.

(** C8.  The empty sequence is a legal program: [parse] returns the
    Program with no globals and no functions.  In general [parse] succeeds
    exactly when the sequence is used up by top-level declarations, each
    parsed by [parse_funcdecl] (after [def]) or [parse_vardecl], the last
    one ending where the sequence ends; the Program lists their trees in
    source order. *)
Theorem parse_succeeds_exactly_at_end :
  parse (Some []) = OK (ProgramNode [] [], [])
  /\ forall q vars funcs q',
      parse (Some q) = OK (ProgramNode vars funcs, q')
      <-> q' = [] /\ top_level q vars funcs.
Proof.
  split; [reflexivity|].
  intros q vars funcs q'. unfold parse, parse_program, while. split.
  - unfold bind at 1.
    destruct (while_loop _ _ _ _ q) as [[[vs fs] q1]| | |] eqn:Ew;
      try discriminate.
    unfold ret. simpl. intros H. inversion H; subst.
    apply program_loop_sound in Ew; [|lia].
    destruct Ew as (-> & dv & df & -> & -> & Htop). split; [reflexivity|].
    exact Htop.
  - intros [-> Htop]. unfold bind at 1.
    rewrite (program_loop_complete _ q vars funcs Htop) by lia.
    reflexivity.
Qed.

(** C7.  Whenever the top-level parse succeeds the queue is empty
    afterwards, and what is returned is a Program node: [parse_program]
    leaves its loop only on an empty queue. *)
Theorem parse_consumes_every_token input p q' :
  parse input = OK (p, q') ->
  q' = [] /\ exists vars funcs, p = ProgramNode vars funcs.
Proof.
  destruct input as [q|]; simpl; [|discriminate].
  apply parse_program_returns_at_end.
Qed.

Lemma parse_consumes_every_token_witness :
  parse (Some example_program_tokens) = OK (example_program, [])
  /\ (@nil Token = []
      /\ exists vars funcs, example_program = ProgramNode vars funcs).
Proof.
  assert (H : parse (Some example_program_tokens) = OK (example_program, []))
    by reflexivity.
  split; [exact H|].
  exact (parse_consumes_every_token (Some example_program_tokens)
                                    example_program [] H).
Defined.

(** ** Left-leaning trees *)

Lemma while_loop_chain (P : M ASTNode) lv (cond : M bool)
      (body : ASTNode -> M ASTNode) (l : Z) :
  consumes 0 P ->
  (forall q, cond q = OK (at_operator lv q, q)) ->
  (forall root t q op,
      operator_of lv t = Some op ->
      body root (t :: q)
      = (right <- P ;; ret (BinaryOpNode op root right l)) q) ->
  forall q items qf,
    chain P lv q items qf ->
    forall k root,
      (List.length q < k)%nat ->
      while_loop k cond body root q = OK (fold_tree l root items, qf).
Proof.
  intros HP Hc Hb q items qf Hch.
  induction Hch as [q Hq|t q op right q' items qf Hop HPq Hch IH];
    intros k root Hk; (destruct k as [|k]; [lia|]); simpl;
    unfold bind at 1; rewrite Hc.
  - assert (E : at_operator lv q = false)
      by (destruct q; simpl; [reflexivity | rewrite Hq; reflexivity]).
    rewrite E. reflexivity.
  - simpl. rewrite Hop. unfold bind at 1. rewrite (Hb _ _ _ _ Hop).
    unfold bind at 1. rewrite HPq. unfold ret at 1.
    pose proof (HP _ _ _ HPq) as Hlen. simpl in Hlen, Hk.
    rewrite IH by lia. reflexivity.
Qed.

Lemma bind_OK {A B} (m : M A) (f : A -> M B) q a q1 :
  m q = OK (a, q1) -> bind m f q = f a q1.
Proof. intros E. unfold bind. rewrite E. reflexivity. Qed.

Ltac token_cases :=
  repeat match goal with
         | |- context [token_str_eq ?a ?b] =>
             destruct (token_str_eq a b) eqn:?; simpl
         end.

Ltac level_cond :=
  let q0 := fresh "q" in let ty0 := fresh "ty" in
  let tx0 := fresh "tx" in let ln0 := fresh "ln" in
  intros [|[ty0 tx0 ln0] q0]; [reflexivity|];
  destruct ty0;
  cbv beta iota delta
      [at_operator operator_of operators assoc orM bind check_next_token
       TokenQueue_is_empty TokenQueue_peek ret type text TokenType_eqb andb];
  try reflexivity; token_cases; try congruence; reflexivity.

Ltac level_body :=
  let q0 := fresh "q" in let ty0 := fresh "ty" in
  let tx0 := fresh "tx" in let ln0 := fresh "ln" in
  let root := fresh "root" in let op := fresh "op" in
  intros root [ty0 tx0 ln0] q0 op;
  destruct ty0;
  cbv beta iota delta
      [operator_of operators assoc bind check_next_token
       match_and_discard_next_token TokenQueue_is_empty TokenQueue_peek
       TokenQueue_remove ret type text TokenType_eqb andb orb negb];
  try discriminate; token_cases;
  let Hop := fresh "Hop" in
  intros Hop; try congruence; inversion Hop; subst; reflexivity.

(** C3.  Every level of binary operators folds to the left.  Let the rule
    of a level read its first operand [first] and let the queue go on with a
    chain of operators of that level, each followed by an operand that the
    next-higher rule parses: then the rule returns the tree in which each
    operator takes the tree accumulated so far as its left operand and its
    own operand as the right one, and stops where the chain stops.  In
    particular [8 - 3 - 2] parses to SUB(SUB(8, 3), 2). *)
Theorem binary_levels_fold_left :
  (forall lv n t q first q1 items qf,
      operand lv (parse_expr n) (t :: q) = OK (first, q1) ->
      chain (operand lv (parse_expr n)) lv q1 items qf ->
      rule lv (parse_expr n) (t :: q)
      = OK (fold_tree (line t) first items, qf))
  /\ (forall n l1 l2 l3 l4 l5,
         parse_expr (S n) (eight_minus_three_minus_two l1 l2 l3 l4 l5)
         = OK (BinaryOpNode SUBOP
                 (BinaryOpNode SUBOP (LiteralNode (IntLit 8) l1)
                               (LiteralNode (IntLit 3) l3) l1)
                 (LiteralNode (IntLit 2) l5) l1, [])).
Proof.
  split; [|reflexivity].
  intros lv n t q first q1 items qf Hfirst Hch.
  assert (HE : consumes 0 (parse_expr n))
    by (eapply consumes_weaken; [|apply parse_expr_consumes]; lia).
  assert (Hop : consumes 0 (operand lv (parse_expr n))).
  { eapply (consumes_weaken 1); [lia|].
    destruct lv; simpl;
      auto using parse_and_consumes, parse_equality_consumes,
        parse_relational_consumes, parse_arith_consumes, parse_mult_consumes,
        parse_neg_consumes. }
  destruct lv; unfold operand, rule in *;
    [ unfold parse_or | unfold parse_and | unfold parse_equality
    | unfold parse_relational | unfold parse_arith | unfold parse_mult ];
    match type of Hop with
    | consumes 0 ?R => generalize dependent R; intros P Hfirst Hch Hop
    end;
    rewrite (bind_OK TokenQueue_is_empty _ (t :: q) false (t :: q) eq_refl);
    cbv beta iota;
    rewrite (bind_OK get_next_token_line _ (t :: q) (line t) (t :: q) eq_refl);
    rewrite (bind_OK P _ (t :: q) first q1 Hfirst);
    unfold while;
    (eapply while_loop_chain;
     [ exact Hop | | | exact Hch | lia ]; [ level_cond | level_body ]).
Qed.

Lemma binary_levels_fold_left_witness :
  operand ArithLevel (parse_expr 1) (eight_minus_three_minus_two 1 1 1 1 1)
  = OK (LiteralNode (IntLit 8) 1, [sym "-" 1; dec "3" 1; sym "-" 1; dec "2" 1])
  /\ chain (operand ArithLevel (parse_expr 1)) ArithLevel
           [sym "-" 1; dec "3" 1; sym "-" 1; dec "2" 1]
           [(SUBOP, LiteralNode (IntLit 3) 1); (SUBOP, LiteralNode (IntLit 2) 1)]
           []
  /\ rule ArithLevel (parse_expr 1) (eight_minus_three_minus_two 1 1 1 1 1)
     = OK (BinaryOpNode SUBOP
             (BinaryOpNode SUBOP (LiteralNode (IntLit 8) 1)
                           (LiteralNode (IntLit 3) 1) 1)
             (LiteralNode (IntLit 2) 1) 1, []).
Proof.
  assert (H1 : operand ArithLevel (parse_expr 1)
                       (eight_minus_three_minus_two 1 1 1 1 1)
               = OK (LiteralNode (IntLit 8) 1,
                     [sym "-" 1; dec "3" 1; sym "-" 1; dec "2" 1]))
    by reflexivity.
  assert (H2 : chain (operand ArithLevel (parse_expr 1)) ArithLevel
                     [sym "-" 1; dec "3" 1; sym "-" 1; dec "2" 1]
                     [(SUBOP, LiteralNode (IntLit 3) 1);
                      (SUBOP, LiteralNode (IntLit 2) 1)]
                     []).
  { eapply chain_step; [reflexivity | reflexivity |].
    eapply chain_step; [reflexivity | reflexivity |].
    apply chain_end. exact I. }
  split; [exact H1|]. split; [exact H2|].
  exact (proj1 binary_levels_fold_left ArithLevel 1%nat (dec "8" 1) _ _ _ _ _
               H1 H2).
Defined.

(** ** String literals *)

Lemma prefix_app (a s : string) :
  String.prefix a s = true <-> exists post, s = a ++ post.
Proof.
  revert s. induction a as [|c a IH]; intros s.
  - split; [intros _; exists s; reflexivity | destruct s; reflexivity].
  - destruct s as [|c' s]; simpl.
    + split; [discriminate | intros [post H]; discriminate].
    + destruct (ascii_dec c c') as [->|Hne].
      * rewrite IH. split; intros [post H]; exists post.
        -- rewrite H. reflexivity.
        -- inversion H. reflexivity.
      * split; [discriminate|]. intros [post H]. inversion H. congruence.
Qed.

Lemma take_all n s : (String.length s <= n)%nat -> take n s = s.
Proof.
  revert s. induction n as [|n IH]; intros [|c s]; simpl; intros H;
    try reflexivity; try lia.
  rewrite IH by lia. reflexivity.
Qed.

Lemma append_assoc (a b c : string) : (a ++ b) ++ c = a ++ b ++ c.
Proof. induction a as [|x a IH]; simpl; [reflexivity | rewrite IH; reflexivity]. Qed.

Lemma drop_app_length (a b : string) : drop (String.length a) (a ++ b) = b.
Proof. induction a as [|x a IH]; simpl; [destruct b; reflexivity | exact IH]. Qed.

Lemma strstr_unfold s sub :
  strstr s sub
  = if String.prefix sub s then Some O
    else match s with
         | EmptyString => None
         | String _ s' => option_map S (strstr s' sub)
         end.
Proof. destruct s; reflexivity. Qed.

(** [strstr] finds the first occurrence, and fails only if there is none. *)
Lemma prefix_first_split sub s :
  String.prefix sub s = true ->
  first_split sub s EmptyString (drop (String.length sub) s).
Proof.
  intros E. apply prefix_app in E. destruct E as [post ->]. split.
  - rewrite drop_app_length. reflexivity.
  - intros; simpl; lia.
Qed.

Lemma strstr_Some s sub i :
  strstr s sub = Some i ->
  first_split sub s (take i s) (drop (i + String.length sub) s).
Proof.
  revert i. induction s as [|c s IH]; intros i H.
  - rewrite strstr_unfold in H.
    destruct (String.prefix sub EmptyString) eqn:E; [|discriminate].
    inversion H; subst. apply prefix_first_split, E.
  - rewrite strstr_unfold in H.
    destruct (String.prefix sub (String c s)) eqn:E.
    + inversion H; subst. apply prefix_first_split, E.
    + destruct (strstr s sub) as [j|] eqn:Ej; [|discriminate].
      simpl in H. inversion H; subst.
      destruct (IH j eq_refl) as [Hs Hmin]. split.
      * simpl. rewrite <- Hs. reflexivity.
      * intros pre' post' H'. destruct pre' as [|c' pre'].
        -- simpl in H'. assert (String.prefix sub (String c s) = true)
             by (apply prefix_app; exists post'; exact H').
           congruence.
        -- simpl in H'.
           assert (H2 : s = pre' ++ sub ++ post') by congruence.
           simpl. apply le_n_S. apply (Hmin pre' post' H2).
Qed.

Lemma strstr_None s sub : strstr s sub = None -> ~ occurs sub s.
Proof.
  induction s as [|c s IH]; intros H [pre [post E]].
  - rewrite strstr_unfold in H.
    destruct (String.prefix sub EmptyString) eqn:Ep; [discriminate|].
    destruct pre; [|discriminate]. simpl in E.
    assert (String.prefix sub EmptyString = true)
      by (apply prefix_app; exists post; exact E).
    congruence.
  - rewrite strstr_unfold in H.
    destruct (String.prefix sub (String c s)) eqn:Ep; [discriminate|].
    destruct (strstr s sub) as [j|] eqn:Ej; [discriminate|].
    destruct pre as [|c' pre].
    + simpl in E. assert (String.prefix sub (String c s) = true)
        by (apply prefix_app; exists post; exact E).
      congruence.
    + simpl in E. apply IH; [reflexivity|].
      exists pre, post. congruence.
Qed.

Lemma append_nil_r (a : string) : a ++ EmptyString = a.
Proof. induction a as [|x a IH]; simpl; [reflexivity | rewrite IH; reflexivity]. Qed.

Lemma append_length_inj (a a' b b' : string) :
  String.length a = String.length a' -> a ++ b = a' ++ b' ->
  a = a' /\ b = b'.
Proof.
  revert a'. induction a as [|x a IH]; intros [|x' a'] Hl H;
    try discriminate.
  - split; [reflexivity | exact H].
  - simpl in Hl, H. inversion H; subst.
    destruct (IH a') as [-> ->]; [lia | assumption |]. split; reflexivity.
Qed.

(** The first occurrence is one place. *)
Lemma first_split_unique sub s pre post pre' post' :
  first_split sub s pre post -> first_split sub s pre' post' ->
  pre = pre' /\ post = post'.
Proof.
  intros [E Hmin] [E' Hmin'].
  pose proof (Hmin _ _ E') as H1. pose proof (Hmin' _ _ E) as H2.
  rewrite E in E'.
  destruct (append_length_inj pre pre' _ _ ltac:(lia) E') as [-> E2].
  destruct (append_length_inj sub sub _ _ eq_refl E2) as [_ ->].
  split; reflexivity.
Qed.

Lemma first_split_occurs sub s pre post :
  first_split sub s pre post -> occurs sub s.
Proof. intros [E _]. exists pre, post. exact E. Qed.

Lemma splits_unique forms body pre ch post pre' ch' post' :
  splits forms body pre ch post -> splits forms body pre' ch' post' ->
  pre = pre' /\ ch = ch' /\ post = post'.
Proof.
  induction forms as [|[esc c] more IH]; simpl; [contradiction|].
  intros [[H ->]|[Hn H]] [[H' ->]|[Hn' H']].
  - destruct (first_split_unique _ _ _ _ _ _ H H') as [-> ->]. auto.
  - exfalso. apply Hn'. eapply first_split_occurs, H.
  - exfalso. apply Hn. eapply first_split_occurs, H'.
  - apply IH; assumption.
Qed.

Lemma splits_not_escape_free forms body pre ch post :
  splits forms body pre ch post -> ~ escape_free forms body.
Proof.
  induction forms as [|[esc c] more IH]; simpl; [contradiction|].
  intros [[H _]|[_ H]] [Hn Hf].
  - apply Hn. eapply first_split_occurs, H.
  - exact (IH H Hf).
Qed.

(** What the claim asks for, in terms of the split. *)
Lemma resolved_splits forms body pre ch post :
  splits forms body pre ch post -> resolved forms body (pre ++ ch ++ post).
Proof.
  induction forms as [|[esc c] more IH]; simpl; [contradiction|].
  intros [[H ->]|[Hn H]].
  - left. exists pre, post. split; [exact H | reflexivity].
  - right. split; [exact Hn | apply IH, H].
Qed.

Lemma resolved_escape_free forms body :
  escape_free forms body -> resolved forms body body.
Proof.
  induction forms as [|[esc c] more IH]; simpl; [reflexivity|].
  intros [Hn Hf]. right. split; [exact Hn | apply IH, Hf].
Qed.

(** The splice at the place [strstr] found: the escape is replaced when no
    text follows it, and the copy overlaps when some does. *)
Lemma splice_escape_eq p i sub ch :
  String.length sub = 2%nat -> (String.length ch <= 3)%nat ->
  strstr p sub = Some i ->
  exists pre post,
    first_split sub p pre post
    /\ splice_escape p i ch
       = match post with
         | EmptyString => Some (pre ++ ch)
         | String _ _ => None
         end.
Proof.
  intros Hsub Hch H. apply strstr_Some in H. rewrite Hsub in H.
  exists (take i p), (drop (i + 2) p). split; [exact H|].
  unfold splice_escape, strncat.
  rewrite (take_all 3 ch) by exact Hch.
  rewrite (take_all (String.length (drop (i + 2) p) + 1) (drop (i + 2) p))
    by lia.
  destruct (drop (i + 2) p); [|reflexivity].
  rewrite append_nil_r. reflexivity.
Qed.

(** The outcome of the escape handling on every text. *)
Lemma fix_escape_outcome body :
  (escape_free escape_forms body /\ fix_escape body = Some body)
  \/ (exists pre ch post,
         splits escape_forms body pre ch post
         /\ fix_escape body
            = match post with
              | EmptyString => Some (pre ++ ch)
              | String _ _ => None
              end).
Proof.
  unfold fix_escape.
  cbv beta iota delta [splits escape_free escape_forms].
  destruct (strstr body (BACKSLASH ++ "n")) as [i|] eqn:E1.
  { right. apply (splice_escape_eq _ _ _ LF) in E1; [|reflexivity|simpl; lia].
    destruct E1 as (pre & post & Hs & E). exists pre, LF, post.
    split; [|exact E].
    repeat first [ left; split; [exact Hs | reflexivity]
                 | right; split; [assumption|] ]. }
  apply strstr_None in E1.
  destruct (strstr body (BACKSLASH ++ "t")) as [i|] eqn:E2.
  { right. apply (splice_escape_eq _ _ _ TAB) in E2; [|reflexivity|simpl; lia].
    destruct E2 as (pre & post & Hs & E). exists pre, TAB, post.
    split; [|exact E].
    repeat first [ left; split; [exact Hs | reflexivity]
                 | right; split; [assumption|] ]. }
  apply strstr_None in E2.
  destruct (strstr body (BACKSLASH ++ BACKSLASH)) as [i|] eqn:E3.
  { right.
    apply (splice_escape_eq _ _ _ BACKSLASH) in E3; [|reflexivity|simpl; lia].
    destruct E3 as (pre & post & Hs & E). exists pre, BACKSLASH, post.
    split; [|exact E].
    repeat first [ left; split; [exact Hs | reflexivity]
                 | right; split; [assumption|] ]. }
  apply strstr_None in E3.
  destruct (strstr body (BACKSLASH ++ DQUOTE)) as [i|] eqn:E4.
  { right.
    apply (splice_escape_eq _ _ _ DQUOTE) in E4; [|reflexivity|simpl; lia].
    destruct E4 as (pre & post & Hs & E). exists pre, DQUOTE, post.
    split; [|exact E].
    repeat first [ left; split; [exact Hs | reflexivity]
                 | right; split; [assumption|] ]. }
  apply strstr_None in E4.
  left. repeat split; assumption.
Qed.

Lemma fix_escape_overlap body pre ch post :
  splits escape_forms body pre ch post -> post <> EmptyString ->
  fix_escape body = None.
Proof.
  intros H Hp. destruct (fix_escape_outcome body) as [[Hf _]|(p & c & q & Hs & E)].
  - exfalso. exact (splits_not_escape_free _ _ _ _ _ H Hf).
  - destruct (splits_unique _ _ _ _ _ _ _ _ H Hs) as (<- & <- & <-).
    rewrite E. destruct post; [contradiction | reflexivity].
Qed.

Lemma fix_escape_at_end body pre ch :
  splits escape_forms body pre ch EmptyString ->
  fix_escape body = Some (pre ++ ch).
Proof.
  intros H. destruct (fix_escape_outcome body) as [[Hf _]|(p & c & q & Hs & E)].
  - exfalso. exact (splits_not_escape_free _ _ _ _ _ H Hf).
  - destruct (splits_unique _ _ _ _ _ _ _ _ H Hs) as (<- & <- & <-).
    exact E.
Qed.

Lemma fix_escape_none_occurs body :
  escape_free escape_forms body -> fix_escape body = Some body.
Proof.
  intros H. destruct (fix_escape_outcome body) as [[_ E]|(p & c & q & Hs & _)].
  - exact E.
  - exfalso. exact (splits_not_escape_free _ _ _ _ _ Hs H).
Qed.

(** Where the escape handling is defined, it gives what the claim asks
    for. *)
Lemma fix_escape_resolved body out :
  fix_escape body = Some out -> resolved escape_forms body out.
Proof.
  intros H. destruct (fix_escape_outcome body) as [[Hf E]|(p & c & q & Hs & E)];
    rewrite E in H.
  - inversion H; subst. apply resolved_escape_free, Hf.
  - destruct q; [|discriminate]. inversion H; subst.
    apply resolved_splits in Hs. simpl in Hs.
    rewrite append_nil_r in Hs. exact Hs.
Qed.

Lemma removelast_app_last body c :
  removelast (body ++ String c EmptyString) = body.
Proof.
  induction body as [|x body IH]; [reflexivity|].
  simpl. rewrite IH. destruct body; reflexivity.
Qed.

Lemma strip_quotes_enclosed c1 c2 body :
  strip_quotes (String c1 (body ++ String c2 EmptyString)) = Some body.
Proof.
  unfold strip_quotes.
  destruct (body ++ String c2 EmptyString) as [|c p] eqn:E.
  - destruct body; discriminate.
  - rewrite <- E. rewrite removelast_app_last. reflexivity.
Qed.

Lemma parse_lit_STRLIT txt l rest :
  parse_lit (mkToken STRLIT txt l :: rest)
  = match strip_quotes txt with
    | None => Undefined
    | Some p =>
        match fix_escape p with
        | None => Undefined
        | Some s => OK (LiteralNode (StrLit s) l, rest)
        end
    end.
Proof.
  change (parse_lit (mkToken STRLIT txt l :: rest))
    with (match strip_quotes txt with
          | None => undefined
          | Some p =>
              match fix_escape p with
              | None => undefined
              | Some s => ret (LiteralNode_new_string s l)
              end
          end rest).
  destruct (strip_quotes txt) as [p|]; [|reflexivity].
  destruct (fix_escape p); reflexivity.
Qed.

(** C4.  For a string-literal token [parse_lit] drops the first and the
    last character of the text and looks for the forms backslash-n,
    backslash-t, backslash-backslash and backslash-quote in this order; the
    first form that occurs is spliced at its first occurrence.  The splice
    copies the text behind the escape with strncat inside the buffer it
    reads it from, so whenever any text follows the escape the source and
    the destination of the copy overlap and the behaviour is undefined.
    The escape is replaced as the claim says only when it ends the text; a
    text without any of the forms is returned as it is; and whenever
    [parse_lit] returns, it returns what the claim says.  The claim's own
    example, the quoted text a-backslash-n-b, ends in undefined behaviour
    and not in a, newline, b. *)
Theorem parse_lit_escape_splice_overlaps :
  (forall c1 c2 body pre ch post l rest,
      splits escape_forms body pre ch post -> post <> EmptyString ->
      parse_lit (mkToken STRLIT (String c1 (body ++ String c2 EmptyString)) l
                 :: rest)
      = Undefined)
  /\ (forall c1 c2 body pre ch l rest,
         splits escape_forms body pre ch EmptyString ->
         parse_lit (mkToken STRLIT (String c1 (body ++ String c2 EmptyString))
                            l :: rest)
         = OK (LiteralNode (StrLit (pre ++ ch)) l, rest))
  /\ (forall c1 c2 body l rest,
         escape_free escape_forms body ->
         parse_lit (mkToken STRLIT (String c1 (body ++ String c2 EmptyString))
                            l :: rest)
         = OK (LiteralNode (StrLit body) l, rest))
  /\ (forall c1 c2 body l rest node q',
         parse_lit (mkToken STRLIT (String c1 (body ++ String c2 EmptyString))
                            l :: rest)
         = OK (node, q') ->
         q' = rest
         /\ exists out, node = LiteralNode (StrLit out) l
                        /\ resolved escape_forms body out)
  /\ (forall l rest,
         parse_lit (mkToken STRLIT (DQUOTE ++ "a" ++ BACKSLASH ++ "nb" ++ DQUOTE)
                            l :: rest)
         = Undefined)
  /\ (forall l rest,
         parse_lit (mkToken STRLIT (DQUOTE ++ "a" ++ BACKSLASH ++ "n" ++ DQUOTE)
                            l :: rest)
         = OK (LiteralNode (StrLit ("a" ++ LF)) l, rest)).
Proof.
  split; [|split; [|split; [|split; [|split; reflexivity]]]].
  - intros c1 c2 body pre ch post l rest H Hp.
    rewrite parse_lit_STRLIT, strip_quotes_enclosed.
    rewrite (fix_escape_overlap _ _ _ _ H Hp). reflexivity.
  - intros c1 c2 body pre ch l rest H.
    rewrite parse_lit_STRLIT, strip_quotes_enclosed.
    rewrite (fix_escape_at_end _ _ _ H). reflexivity.
  - intros c1 c2 body l rest H.
    rewrite parse_lit_STRLIT, strip_quotes_enclosed.
    rewrite (fix_escape_none_occurs _ H). reflexivity.
  - intros c1 c2 body l rest node q'.
    rewrite parse_lit_STRLIT, strip_quotes_enclosed.
    destruct (fix_escape body) as [out|] eqn:E; [|discriminate].
    intros H. inversion H; subst. split; [reflexivity|].
    exists out. split; [reflexivity | apply fix_escape_resolved, E].
Qed.

(** ** Integer literals *)

Lemma digit_value_bounds c d : digit_value c = Some d -> 0 <= d < 36.
Proof.
  unfold digit_value. set (n := Z.of_nat (nat_of_ascii c)).
  destruct ((48 <=? n) && (n <=? 57)) eqn:E1.
  - intros H; inversion H; subst. apply andb_true_iff in E1. lia.
  - destruct ((97 <=? n) && (n <=? 122)) eqn:E2.
    + intros H; inversion H; subst. apply andb_true_iff in E2. lia.
    + destruct ((65 <=? n) && (n <=? 90)) eqn:E3; [|discriminate].
      intros H; inversion H; subst. apply andb_true_iff in E3. lia.
Qed.

Lemma digit_not_space_or_sign c d :
  digit_value c = Some d ->
  isspace c = false /\ c <> "-"%char /\ c <> "+"%char.
Proof.
  destruct c as [[] [] [] [] [] [] [] []]; vm_compute;
    intros H; try discriminate H; repeat split; discriminate.
Qed.

Lemma positional_nonneg base s ds :
  0 <= base -> digits base s = Some ds -> 0 <= positional base ds.
Proof.
  intros Hb. revert ds. induction s as [|c s IH]; intros ds H; simpl in H.
  - inversion H; subst. simpl. lia.
  - destruct (digit_value c) as [d|] eqn:Ed; [|discriminate].
    destruct (digits base s) as [ds'|]; [|discriminate].
    destruct (d <? base); [|discriminate]. inversion H; subst. simpl.
    specialize (IH ds' eq_refl). apply digit_value_bounds in Ed.
    assert (0 <= base ^ Z.of_nat (List.length ds')) by (apply Z.pow_nonneg; lia).
    nia.
Qed.

(** Left-to-right accumulation computes the positional value. *)
Lemma accumulate_positional base s ds :
  digits base s = Some ds ->
  forall acc,
    accumulate base acc s
    = acc * base ^ Z.of_nat (List.length ds) + positional base ds.
Proof.
  revert ds. induction s as [|c s IH]; intros ds H acc; simpl in H.
  - inversion H; subst. simpl. lia.
  - destruct (digit_value c) as [d|] eqn:Ed; [|discriminate].
    destruct (digits base s) as [ds'|]; [|discriminate].
    destruct (d <? base) eqn:Elt; [|discriminate]. inversion H; subst.
    simpl accumulate. rewrite Ed, Elt. rewrite (IH ds' eq_refl).
    simpl positional. simpl List.length. rewrite Nat2Z.inj_succ, Z.pow_succ_r by lia.
    ring.
Qed.

Lemma skip_space_digits base s ds :
  digits base s = Some ds -> skip_space s = s.
Proof.
  destruct s as [|c s]; [reflexivity|]. simpl.
  destruct (digit_value c) as [d|] eqn:Ed; [|discriminate]. intros _.
  destruct (digit_not_space_or_sign c d Ed) as (-> & _). reflexivity.
Qed.

Lemma skip_0x_decimal s : skip_0x 10 s = s.
Proof. destruct s as [|c0 [|cx [|c s]]]; reflexivity. Qed.

Lemma strtol_decimal s ds :
  digits 10 s = Some ds -> strtol s 10 = Z.min (positional 10 ds) LONG_MAX.
Proof.
  intros H. unfold strtol. rewrite (skip_space_digits 10 s ds H).
  assert (E : clamp_long (accumulate 10 0 (skip_0x 10 s))
              = Z.min (positional 10 ds) LONG_MAX).
  { rewrite skip_0x_decimal, (accumulate_positional 10 s ds H).
    pose proof (positional_nonneg 10 s ds ltac:(lia) H).
    unfold clamp_long, LONG_MIN, LONG_MAX. lia. }
  destruct s as [|c s]; [exact E|].
  simpl in H. destruct (digit_value c) as [d|] eqn:Ed; [|discriminate].
  destruct (digit_not_space_or_sign c d Ed) as (_ & Hm & Hp).
  destruct c as [[] [] [] [] [] [] [] []]; try exact E; congruence.
Qed.

Lemma strtol_hex s ds :
  digits 16 s = Some ds ->
  strtol ("0x" ++ s) 16 = Z.min (positional 16 ds) LONG_MAX.
Proof.
  intros H. unfold strtol.
  change (skip_space ("0x" ++ s)) with ("0x" ++ s).
  change (clamp_long (accumulate 16 0 (skip_0x 16 ("0x" ++ s)))
          = Z.min (positional 16 ds) LONG_MAX).
  pose proof (positional_nonneg 16 s ds ltac:(lia) H) as Hpos.
  destruct s as [|c s].
  - inversion H; subst. reflexivity.
  - assert (E : skip_0x 16 ("0x" ++ String c s) = String c s).
    { simpl in H. destruct (digit_value c) as [d|] eqn:Ed; [|discriminate].
      destruct (digits 16 s); [|discriminate].
      destruct (d <? 16) eqn:Elt; [|discriminate].
      simpl. unfold is_digit. rewrite Ed, Elt. reflexivity. }
    rewrite E, (accumulate_positional 16 _ ds H).
    unfold clamp_long, LONG_MIN, LONG_MAX in *. lia.
Qed.

Lemma int_of_long_range v : - 2 ^ 31 <= int_of_long v < 2 ^ 31.
Proof.
  unfold int_of_long. pose proof (Z.mod_pos_bound (v + 2 ^ 31) (2 ^ 32)). lia.
Qed.

Lemma int_of_long_congruent v : (int_of_long v - v) mod 2 ^ 32 = 0.
Proof.
  unfold int_of_long.
  rewrite (Z.mod_eq (v + 2 ^ 31) (2 ^ 32)) by lia.
  replace (v + 2 ^ 31 - 2 ^ 32 * ((v + 2 ^ 31) / 2 ^ 32) - 2 ^ 31 - v)
    with ((- ((v + 2 ^ 31) / 2 ^ 32)) * 2 ^ 32) by ring.
  apply Z.mod_mul. lia.
Qed.

Lemma int_of_long_small v : - 2 ^ 31 <= v < 2 ^ 31 -> int_of_long v = v.
Proof.
  intros H. unfold int_of_long. rewrite Z.mod_small by lia. lia.
Qed.

(** C9.  A decimal literal is read in base 10 and a hex literal (after its
    0x) in base 16: the long that strtol returns is the positional value of
    the digits, or LONG_MAX beyond the range of a 64-bit long.  The literal
    node holds the conversion of that long to int, which wraps modulo 2^32
    into the signed 32-bit range and is the identity within it.  Whatever
    the text of a decimal or hex token, [parse_lit] returns the literal of
    that conversion and raises no error. *)
Theorem parse_lit_integer_wraps :
  (forall s ds l rest,
      digits 10 s = Some ds ->
      parse_lit (mkToken DECLIT s l :: rest)
      = OK (LiteralNode
              (IntLit (int_of_long (Z.min (positional 10 ds) LONG_MAX))) l,
            rest))
  /\ (forall s ds l rest,
         digits 16 s = Some ds ->
         parse_lit (mkToken HEXLIT ("0x" ++ s) l :: rest)
         = OK (LiteralNode
                 (IntLit (int_of_long (Z.min (positional 16 ds) LONG_MAX))) l,
               rest))
  /\ (forall v,
         - 2 ^ 31 <= int_of_long v < 2 ^ 31
         /\ (int_of_long v - v) mod 2 ^ 32 = 0
         /\ (- 2 ^ 31 <= v < 2 ^ 31 -> int_of_long v = v))
  /\ (forall t rest,
         (type t = DECLIT ->
          parse_lit (t :: rest)
          = OK (LiteralNode (IntLit (int_of_long (strtol (text t) 10)))
                            (line t), rest))
         /\ (type t = HEXLIT ->
             parse_lit (t :: rest)
             = OK (LiteralNode (IntLit (int_of_long (strtol (text t) 16)))
                               (line t), rest))).
Proof.
  split; [|split; [|split]].
  - intros s ds l rest H. rewrite <- (strtol_decimal s ds H). reflexivity.
  - intros s ds l rest H. rewrite <- (strtol_hex s ds H). reflexivity.
  - intros v. split; [apply int_of_long_range|].
    split; [apply int_of_long_congruent | apply int_of_long_small].
  - intros [ty tx l] rest. split; simpl; intros ->; reflexivity.
Qed.

Lemma parse_lit_integer_wraps_witness :
  digits 10 "4294967297" = Some [4; 2; 9; 4; 9; 6; 7; 2; 9; 7]
  /\ parse_lit [dec "4294967297" 1] = OK (LiteralNode (IntLit 1) 1, [])
  /\ digits 16 "fFfFfFfE" = Some [15; 15; 15; 15; 15; 15; 15; 14]
  /\ parse_lit [mkToken HEXLIT "0xfFfFfFfE" 1]
     = OK (LiteralNode (IntLit (-2)) 1, []).
Proof.
  split; [reflexivity|].
  split; [exact (proj1 parse_lit_integer_wraps "4294967297" _ 1 [] eq_refl)|].
  split; [reflexivity|].
  exact (proj1 (proj2 parse_lit_integer_wraps) "fFfFfFfE" _ 1 [] eq_refl).
Defined.

(** C9 as stated fails beyond the range of long: the decimal literal
    9223372036854775808 has the value 2^63, which wraps to 0 in 32 bits;
    strtol returns LONG_MAX for it, and the literal holds -1. *)
Lemma parse_lit_integer_saturates :
  digits 10 "9223372036854775808"
  = Some [9; 2; 2; 3; 3; 7; 2; 0; 3; 6; 8; 5; 4; 7; 7; 5; 8; 0; 8]
  /\ positional 10 [9; 2; 2; 3; 3; 7; 2; 0; 3; 6; 8; 5; 4; 7; 7; 5; 8; 0; 8]
     = 2 ^ 63
  /\ int_of_long (2 ^ 63) = 0
  /\ parse_lit [dec "9223372036854775808" 1]
     = OK (LiteralNode (IntLit (-1)) 1, [])
  /\ parse_lit [dec "9223372036854775808" 1]
     <> OK (LiteralNode (IntLit 0) 1, []).
Proof.
  split; [reflexivity|]. split; [reflexivity|]. split; [reflexivity|].
  assert (H : parse_lit [dec "9223372036854775808" 1]
              = OK (LiteralNode (IntLit (-1)) 1, [])) by reflexivity.
  split; [exact H|]. rewrite H. discriminate.
Qed.

(** * More of the parser, rule by rule *)

(** ** Taking a rule apart and running it *)

Lemma bind_inv {A B} (m : M A) (f : A -> M B) q r :
  bind m f q = OK r -> exists a q1, m q = OK (a, q1) /\ f a q1 = OK r.
Proof.
  unfold bind. destruct (m q) as [[a q1]| | |]; try discriminate.
  intros H. exists a, q1. split; [reflexivity | exact H].
Qed.

Lemma ret_OK {A} (a a' : A) q q' : ret a q = OK (a', q') <-> a' = a /\ q' = q.
Proof.
  unfold ret. split; [intros H; inversion H; auto | intros [-> ->]; reflexivity].
Qed.

Lemma token_test ty txt t :
  TokenType_eqb (type t) ty && token_str_eq (text t) txt = true
  <-> is_token ty txt t.
Proof.
  unfold is_token, token_str_eq.
  rewrite andb_true_iff, TokenType_eqb_eq, String.eqb_eq. reflexivity.
Qed.

Lemma headb_true ty txt q : headb ty txt q = true <-> starts_with ty txt q.
Proof.
  destruct q as [|t q]; simpl; [split; [discriminate | contradiction]|].
  apply token_test.
Qed.

Lemma headb_false ty txt q : headb ty txt q = false <-> ~ starts_with ty txt q.
Proof.
  rewrite <- headb_true. destruct (headb ty txt q); split; congruence.
Qed.

Lemma head_typeb_true ty q : head_typeb ty q = true <-> starts_with_type ty q.
Proof.
  destruct q as [|t q]; simpl; [split; [discriminate | contradiction]|].
  apply TokenType_eqb_eq.
Qed.

Lemma head_typeb_false ty q :
  head_typeb ty q = false <-> ~ starts_with_type ty q.
Proof.
  rewrite <- head_typeb_true. destruct (head_typeb ty q); split; congruence.
Qed.

Lemma check_next_token_eq ty txt q :
  check_next_token ty txt q = OK (headb ty txt q, q).
Proof. destruct q; reflexivity. Qed.

Lemma check_next_token_type_eq ty q :
  check_next_token_type ty q = OK (head_typeb ty q, q).
Proof. destruct q; reflexivity. Qed.

Lemma check_next_token_yes ty txt q :
  starts_with ty txt q -> check_next_token ty txt q = OK (true, q).
Proof.
  intros H. rewrite check_next_token_eq. apply headb_true in H.
  rewrite H. reflexivity.
Qed.

Lemma check_next_token_no ty txt q :
  ~ starts_with ty txt q -> check_next_token ty txt q = OK (false, q).
Proof.
  intros H. rewrite check_next_token_eq. apply headb_false in H.
  rewrite H. reflexivity.
Qed.

Lemma check_next_token_type_yes ty q :
  starts_with_type ty q -> check_next_token_type ty q = OK (true, q).
Proof.
  intros H. rewrite check_next_token_type_eq. apply head_typeb_true in H.
  rewrite H. reflexivity.
Qed.

Lemma check_next_token_type_no ty q :
  ~ starts_with_type ty q -> check_next_token_type ty q = OK (false, q).
Proof.
  intros H. rewrite check_next_token_type_eq. apply head_typeb_false in H.
  rewrite H. reflexivity.
Qed.

Lemma not_check_next_token ty txt q :
  notM (check_next_token ty txt) q = OK (negb (headb ty txt q), q).
Proof. destruct q; reflexivity. Qed.

(** The prologue of the rules: the test for an empty queue, and the line of
    the first token. *)
Lemma not_empty {A} f a (k : M A) t q :
  (e <- TokenQueue_is_empty ;; if e then Error_throw_printf f a else k) (t :: q)
  = k (t :: q).
Proof. reflexivity. Qed.

Lemma entry {A} f a (k : Z -> M A) t q :
  (e <- TokenQueue_is_empty ;;
   if e then Error_throw_printf f a else bind get_next_token_line k) (t :: q)
  = k (line t) (t :: q).
Proof. reflexivity. Qed.

Lemma error_after_not_OK {A} q e (r : A) : error_after q e <> OK r.
Proof. destruct q; discriminate. Qed.

Lemma TokenQueue_remove_OK q t q' :
  TokenQueue_remove q = OK (t, q') <-> q = t :: q'.
Proof.
  destruct q as [|t0 q]; simpl; split; intros H; try discriminate;
    inversion H; subst; reflexivity.
Qed.

Lemma match_and_discard_next_token_cons ty txt t q :
  match_and_discard_next_token ty txt (t :: q)
  = if TokenType_eqb (type t) ty && token_str_eq (text t) txt
    then OK (tt, q)
    else error_after q (TokenMismatch txt (text t)).
Proof.
  unfold match_and_discard_next_token, bind. simpl.
  destruct (TokenType_eqb (type t) ty); simpl.
  - destruct (token_str_eq (text t) txt); simpl; [reflexivity|].
    destruct q; reflexivity.
  - destruct q; reflexivity.
Qed.

Lemma match_and_discard_next_token_yes ty txt t q :
  is_token ty txt t ->
  match_and_discard_next_token ty txt (t :: q) = OK (tt, q).
Proof.
  intros H. rewrite match_and_discard_next_token_cons.
  apply token_test in H. rewrite H. reflexivity.
Qed.

Lemma match_and_discard_next_token_OK ty txt q u q' :
  match_and_discard_next_token ty txt q = OK (u, q')
  <-> exists t, q = t :: q' /\ is_token ty txt t.
Proof.
  split.
  - destruct q as [|t q]; [discriminate|].
    rewrite match_and_discard_next_token_cons.
    destruct (TokenType_eqb (type t) ty && token_str_eq (text t) txt) eqn:E.
    + intros H; inversion H; subst. exists t.
      split; [reflexivity | apply token_test, E].
    + intros H. exfalso. exact (error_after_not_OK _ _ _ H).
  - intros [t [-> H]]. destruct u.
    apply match_and_discard_next_token_yes, H.
Qed.

Lemma parse_type_cons t q :
  parse_type (t :: q)
  = if TokenType_eqb (type t) KEY then
      match keyword_type (text t) with
      | Some ty => OK (ty, q)
      | None => error_after q (InvalidType (text t))
      end
    else error_after q (InvalidType (text t)).
Proof.
  unfold parse_type, keyword_type, bind. 
  change (TokenQueue_is_empty (t :: q)) with (OK (false, t :: q)).
  cbv beta iota.
  change (TokenQueue_remove (t :: q)) with (OK (t, q)). cbv beta iota.
  destruct (TokenType_eqb (type t) KEY); cbv beta iota delta [negb ret].
  - destruct (token_str_eq "int" (text t)); [reflexivity|].
    destruct (token_str_eq "bool" (text t)); [reflexivity|].
    destruct (token_str_eq "void" (text t)); [reflexivity|].
    destruct q; reflexivity.
  - destruct q; reflexivity.
Qed.

Lemma parse_type_OK q ty q' :
  parse_type q = OK (ty, q')
  <-> exists t, q = t :: q' /\ type t = KEY /\ keyword_type (text t) = Some ty.
Proof.
  split.
  - destruct q as [|t q]; [discriminate|]. rewrite parse_type_cons.
    destruct (TokenType_eqb (type t) KEY) eqn:Et.
    + destruct (keyword_type (text t)) as [ty'|] eqn:Ek.
      * intros H; inversion H; subst. exists t.
        apply TokenType_eqb_eq in Et. auto.
      * intros H. exfalso. exact (error_after_not_OK _ _ _ H).
    + intros H. exfalso. exact (error_after_not_OK _ _ _ H).
  - intros [t (-> & Ht & Hk)]. rewrite parse_type_cons.
    apply TokenType_eqb_eq in Ht. rewrite Ht, Hk. reflexivity.
Qed.

Lemma parse_id_cons t q :
  parse_id (t :: q)
  = if TokenType_eqb (type t) ID then OK (snprintf_s MAX_ID_LEN (text t), q)
    else error_after q (InvalidID (text t)).
Proof.
  unfold parse_id, bind.
  change (TokenQueue_is_empty (t :: q)) with (OK (false, t :: q)).
  cbv beta iota.
  change (TokenQueue_remove (t :: q)) with (OK (t, q)). cbv beta iota.
  destruct (TokenType_eqb (type t) ID); cbv beta iota delta [negb ret];
    [reflexivity|].
  destruct q; reflexivity.
Qed.

Lemma parse_id_OK q s q' :
  parse_id q = OK (s, q')
  <-> exists t, q = t :: q' /\ type t = ID
                /\ s = snprintf_s MAX_ID_LEN (text t).
Proof.
  split.
  - destruct q as [|t q]; [discriminate|]. rewrite parse_id_cons.
    destruct (TokenType_eqb (type t) ID) eqn:Et.
    + intros H; inversion H; subst. exists t.
      apply TokenType_eqb_eq in Et. auto.
    + intros H. exfalso. exact (error_after_not_OK _ _ _ H).
  - intros [t (-> & Ht & ->)]. rewrite parse_id_cons.
    apply TokenType_eqb_eq in Ht. rewrite Ht. reflexivity.
Qed.

Lemma id_then_paren_cons t q :
  id_then_paren (t :: q)
  = if TokenType_eqb (type t) ID then
      match q with
      | t2 :: _ => OK (token_str_eq (text t2) "(", t :: q)
      | [] => Undefined
      end
    else OK (false, t :: q).
Proof.
  destruct t as [ty tx l]. destruct ty; destruct q; reflexivity.
Qed.

Ltac list_eqs :=
  repeat match goal with
         | H : _ :: _ = _ :: _ |- _ => inversion H; subst; clear H
         end.

(** Take apart a rule that has returned, one operation at a time. *)
Ltac inv_step :=
  match goal with
  | H : bind _ _ _ = OK _ |- _ =>
      let a := fresh "a" in let q := fresh "q" in let H1 := fresh "H" in
      apply bind_inv in H; destruct H as (a & q & H1 & H); cbv beta in H
  | H : ret _ _ = OK _ |- _ =>
      apply ret_OK in H; destruct H as [? ?]; subst
  | H : match_and_discard_next_token _ _ _ = OK _ |- _ =>
      let t := fresh "t" in
      apply match_and_discard_next_token_OK in H;
      destruct H as (t & ? & ?); subst
  | H : parse_type _ = OK _ |- _ =>
      let t := fresh "t" in
      apply parse_type_OK in H; destruct H as (t & ? & ? & ?); subst
  | H : parse_id _ = OK _ |- _ =>
      let t := fresh "t" in
      apply parse_id_OK in H; destruct H as (t & ? & ? & ?); subst
  | H : TokenQueue_remove _ = OK _ |- _ =>
      apply TokenQueue_remove_OK in H; subst
  | H : check_next_token _ _ _ = OK _ |- _ =>
      rewrite check_next_token_eq in H; inversion H; subst; clear H
  | H : check_next_token_type _ _ = OK _ |- _ =>
      rewrite check_next_token_type_eq in H; inversion H; subst; clear H
  | H : Error_throw_printf _ _ _ = OK _ |- _ => discriminate H
  | H : undefined _ = OK _ |- _ => discriminate H
  | H : (if ?b then _ else _) _ = OK _ |- _ =>
      let E := fresh "E" in destruct b eqn:E
  end.

Lemma TokenType_eqb_neq a b : TokenType_eqb a b = false <-> a <> b.
Proof.
  rewrite <- TokenType_eqb_eq. destruct (TokenType_eqb a b); split; congruence.
Qed.

(** Turn the answers of the tests into facts about the queue. *)
Ltac tests :=
  repeat match goal with
         | H : TokenType_eqb (type ?t) ?ty && token_str_eq (text ?t) ?s = ?b
           |- _ => change (headb ty s [t] = b) in H
         | H : negb _ = true |- _ => apply negb_true_iff in H
         | H : negb _ = false |- _ => apply negb_false_iff in H
         | H : headb _ _ _ = true |- _ => apply headb_true in H
         | H : headb _ _ _ = false |- _ => apply headb_false in H
         | H : head_typeb _ _ = true |- _ => apply head_typeb_true in H
         | H : head_typeb _ _ = false |- _ => apply head_typeb_false in H
         | H : TokenType_eqb _ _ = true |- _ => apply TokenType_eqb_eq in H
         | H : TokenType_eqb _ _ = false |- _ => apply TokenType_eqb_neq in H
         end.

(** A token that is one thing is not another. *)
Ltac not_token :=
  let H := fresh in
  simpl; intros H; try destruct H;
  repeat match goal with
         | H' : is_token _ _ _ |- _ => destruct H'
         | H' : starts_with _ _ (_ :: _) |- _ => destruct H'
         end;
  simpl in *; congruence.

(** Run a rule forward on a queue whose tokens are known. *)
Ltac fwd_side :=
  first
    [ eassumption
    | apply match_and_discard_next_token_yes; solve [auto]
    | apply check_next_token_yes; solve [auto | simpl; auto]
    | apply check_next_token_no; solve [auto | not_token]
    | apply check_next_token_type_yes; solve [auto | simpl; auto]
    | apply check_next_token_type_no; solve [auto | not_token]
    | apply parse_type_OK; solve [eauto]
    | apply parse_id_OK; solve [eauto]
    | solve [fwd; reflexivity] ]
with fwd :=
  repeat (cbv beta iota zeta delta [negb];
          lazymatch goal with
          | |- bind _ _ _ = _ => erewrite bind_OK by fwd_side
          end);
  cbv beta iota zeta delta [negb].

(** ** Helpers and primitive parsers *)

Lemma keyword_type_Some txt ty :
  keyword_type txt = Some ty
  <-> (txt = "int" /\ ty = INT) \/ (txt = "bool" /\ ty = BOOL)
      \/ (txt = "void" /\ ty = VOID).
Proof.
  unfold keyword_type, token_str_eq.
  destruct (String.eqb "int" txt) eqn:E1;
    [apply String.eqb_eq in E1; subst|apply String.eqb_neq in E1].
  { split; [intros H; inversion H; auto|].
    intros [[_ ->]|[[H _]|[H _]]]; [reflexivity | discriminate | discriminate]. }
  destruct (String.eqb "bool" txt) eqn:E2;
    [apply String.eqb_eq in E2; subst|apply String.eqb_neq in E2].
  { split; [intros H; inversion H; auto|].
    intros [[H _]|[[_ ->]|[H _]]]; [discriminate | reflexivity | discriminate]. }
  destruct (String.eqb "void" txt) eqn:E3;
    [apply String.eqb_eq in E3; subst|apply String.eqb_neq in E3].
  { split; [intros H; inversion H; auto|].
    intros [[H _]|[[H _]|[_ ->]]]; [discriminate | discriminate | reflexivity]. }
  split; [discriminate|].
  intros [[H _]|[[H _]|[H _]]]; congruence.
Qed.

(** X1.  The lookahead helpers only read: [check_next_token] and
    [check_next_token_type] return on every queue, leave it as it is, and
    answer true exactly when the queue starts with a token of the type (and
    text) asked for; on the empty queue the answer is false, not an
    error. *)
Theorem lookahead_never_consumes (ty : TokenType) (txt : string)
        (q : TokenQueue) :
  (exists b, check_next_token ty txt q = OK (b, q)
             /\ (b = true <-> exists t rest, q = t :: rest /\ is_token ty txt t))
  /\ (exists b, check_next_token_type ty q = OK (b, q)
                /\ (b = true <-> exists t rest, q = t :: rest /\ type t = ty)).
Proof.
  split.
  - exists (headb ty txt q). split; [apply check_next_token_eq|].
    rewrite headb_true. destruct q as [|t q]; simpl.
    + split; [contradiction | intros (t & rest & H & _); discriminate].
    + split; [intros H; exists t, q; auto|].
      intros (t' & rest & H & Ht). inversion H; subst; assumption.
  - exists (head_typeb ty q). split; [apply check_next_token_type_eq|].
    rewrite head_typeb_true. destruct q as [|t q]; simpl.
    + split; [contradiction | intros (t & rest & H & _); discriminate].
    + split; [intros H; exists t, q; auto|].
      intros (t' & rest & H & Ht). inversion H. congruence.
Qed.

(** X2.  [match_and_discard_next_token] returns exactly when the queue
    starts with a token of the expected type and text, and then it has
    removed that token and nothing else; on the empty queue it throws the
    end-of-input error that names the expected text. *)
Theorem match_and_discard_next_token_accepts
        (ty : TokenType) (txt : string) :
  (forall q u q',
      match_and_discard_next_token ty txt q = OK (u, q')
      <-> exists t, q = t :: q' /\ is_token ty txt t)
  /\ match_and_discard_next_token ty txt []
     = Throw (mkError ("Unexpected end of input (expected '%s')" ++ LF)
                      [arg_s txt]).
Proof.
  split; [|reflexivity].
  intros q u q'. apply match_and_discard_next_token_OK.
Qed.

(** X3.  [parse_type] returns exactly on a keyword token whose text is
    int, bool or void, with the type it names and that one token removed.
    Any other first token is removed and rejected as an invalid type; the
    line in the error is the line of the token behind it, and with no token
    behind it the error is the end-of-input error of the line lookup. *)
Theorem parse_type_accepts_type_keywords :
  (forall q ty q',
      parse_type q = OK (ty, q')
      <-> exists t, q = t :: q' /\ type t = KEY
                    /\ ((text t = "int" /\ ty = INT)
                        \/ (text t = "bool" /\ ty = BOOL)
                        \/ (text t = "void" /\ ty = VOID)))
  /\ (forall t q,
         type t <> KEY
         \/ (text t <> "int" /\ text t <> "bool" /\ text t <> "void") ->
         parse_type (t :: q) = error_after q (InvalidType (text t))).
Proof.
  split.
  - intros q ty q'. rewrite parse_type_OK.
    split; intros (t & H1 & H2 & H3); exists t; repeat split; try assumption;
      apply keyword_type_Some; assumption.
  - intros t q H. rewrite parse_type_cons.
    destruct (TokenType_eqb (type t) KEY) eqn:Et; [|reflexivity].
    apply TokenType_eqb_eq in Et.
    destruct (keyword_type (text t)) as [ty|] eqn:Ek; [|reflexivity].
    apply keyword_type_Some in Ek.
    destruct H as [H|(H1 & H2 & H3)]; [contradiction|].
    destruct Ek as [[E _]|[[E _]|[E _]]]; contradiction.
Qed.

Lemma take_prefix n s : exists rest, s = take n s ++ rest.
Proof.
  revert s. induction n as [|n IH]; intros s.
  - exists s. destruct s; reflexivity.
  - destruct s as [|c s]; [exists EmptyString; reflexivity|].
    destruct (IH s) as [rest E]. exists rest. simpl. rewrite <- E. reflexivity.
Qed.

Lemma take_length_le n s : (String.length (take n s) <= n)%nat.
Proof.
  revert s. induction n as [|n IH]; intros [|c s]; simpl; try lia.
  specialize (IH s). lia.
Qed.

(** X4.  [parse_id] returns exactly on an identifier token, which it
    removes.  The name returned is the text of the token cut to at most
    MAX_ID_LEN - 1 characters: it is a prefix of the text, and the whole
    text when that is shorter than MAX_ID_LEN.  Any other first token is
    removed and rejected as an invalid ID, with the line of the token behind
    it. *)
Theorem parse_id_accepts_identifiers :
  (forall q s q',
      parse_id q = OK (s, q')
      <-> exists t, q = t :: q' /\ type t = ID
                    /\ s = snprintf_s MAX_ID_LEN (text t))
  /\ (forall txt,
         (String.length (snprintf_s MAX_ID_LEN txt) < MAX_ID_LEN)%nat
         /\ (exists rest, txt = snprintf_s MAX_ID_LEN txt ++ rest)
         /\ ((String.length txt < MAX_ID_LEN)%nat ->
             snprintf_s MAX_ID_LEN txt = txt))
  /\ (forall t q,
         type t <> ID -> parse_id (t :: q) = error_after q (InvalidID (text t))).
Proof.
  split; [|split].
  - intros q s q'. apply parse_id_OK.
  - intros txt. unfold snprintf_s, MAX_ID_LEN. split; [|split].
    + pose proof (take_length_le (256 - 1) txt). lia.
    + apply take_prefix.
    + intros H. apply take_all. lia.
  - intros t q H. rewrite parse_id_cons.
    destruct (TokenType_eqb (type t) ID) eqn:Et; [|reflexivity].
    apply TokenType_eqb_eq in Et. contradiction.
Qed.

(** ** Variable declarations, in general *)

Lemma parse_vardecl_OK q node q' :
  parse_vardecl q = OK (node, q') <-> vardecl_shape q node q'.
Proof.
  split.
  - destruct q as [|kt q]; [discriminate|]. unfold parse_vardecl.
    rewrite entry. intros H. repeat inv_step; tests; list_eqs.
    + match goal with
      | H : starts_with _ _ (_ :: _) |- _ => simpl in H
      end.
      apply array_shape; assumption.
    + apply scalar_shape; assumption.
  - intros H. destruct H; unfold parse_vardecl; rewrite entry; fwd;
      reflexivity.
Qed.

(** X5.  [parse_vardecl] returns exactly on the two shapes of a
    declaration: a type keyword, an identifier and [;], or a type keyword,
    an identifier, an opening bracket, one token, a closing bracket and [;].
    The node carries the line of the type keyword.  The token between the
    brackets is not checked: its text is read by strtol in base 10, whatever
    its type, and void is accepted as the type of a variable. *)
Theorem parse_vardecl_accepts_two_shapes (q : TokenQueue) (node : ASTNode)
        (q' : TokenQueue) :
  parse_vardecl q = OK (node, q') <-> vardecl_shape q node q'.
Proof. apply parse_vardecl_OK. Qed.

(** ** Loops, round by round *)

Lemma while_loop_iterates {St} (cond : M bool) (body : St -> M St) :
  pure cond ->
  forall k s q s' q',
    while_loop k cond body s q = OK (s', q') -> iterates cond body s q s' q'.
Proof.
  intros Hc. induction k as [|k IH]; intros s q s' q' H; simpl in H;
    apply bind_inv in H; destruct H as (c & q1 & Hcq & H);
    destruct (Hc q) as [c' Ec]; rewrite Ec in Hcq; inversion Hcq; subst c' q1;
    destruct c; try discriminate.
  - apply ret_OK in H. destruct H; subst. apply iterates_done, Ec.
  - apply bind_inv in H. destruct H as (s1 & q1 & Hb & H).
    eapply iterates_step; [exact Ec | exact Hb | apply IH, H].
  - apply ret_OK in H. destruct H; subst. apply iterates_done, Ec.
Qed.

Lemma iterates_while_loop {St} (cond : M bool) (body : St -> M St) :
  (forall s, consumes 1 (body s)) ->
  forall s q s' q',
    iterates cond body s q s' q' ->
    forall k, (List.length q < k)%nat ->
              while_loop k cond body s q = OK (s', q').
Proof.
  intros Hb s q s' q' H.
  induction H as [s q Hc|s q s1 q1 s' q' Hc Hbody Hit IH]; intros k Hk;
    (destruct k as [|k]; [lia|]); simpl;
    rewrite (bind_OK cond _ q _ q Hc); cbv beta iota.
  - reflexivity.
  - rewrite (bind_OK (body s) _ q s1 q1 Hbody).
    apply IH. pose proof (Hb s q s1 q1 Hbody). simpl in *. lia.
Qed.

(** The loop of the model returns exactly what finitely many rounds of the
    C loop give. *)
Lemma while_iterates {St} (cond : M bool) (body : St -> M St) s q s' q' :
  pure cond -> (forall s, consumes 1 (body s)) ->
  while cond body s q = OK (s', q') <-> iterates cond body s q s' q'.
Proof.
  intros Hc Hb. unfold while. split.
  - apply while_loop_iterates, Hc.
  - intros H. apply (iterates_while_loop cond body Hb _ _ _ _ H). lia.
Qed.

(** ** Parameter lists and function declarations *)

Lemma params_loop_iterates acc q acc' q' :
  iterates (notM (check_next_token SYM ")"))
           (fun params =>
              match_and_discard_next_token SYM "," ;;;
              ty <- parse_type ;;
              buffer <- parse_id ;;
              ret (params ++ [mkParam buffer ty])%list)
           acc q acc' q'
  <-> exists ps, acc' = (acc ++ ps)%list /\ more_params q ps q'.
Proof.
  split.
  - induction 1 as [s q Hc|s q s1 q1 s' q' Hc Hb Hit IH].
    + exists []. rewrite app_nil_r. split; [reflexivity|].
      rewrite not_check_next_token in Hc. inversion Hc as [E]. tests.
      apply more_params_end, E.
    + destruct IH as (ps & -> & Hps). repeat inv_step. list_eqs.
      eexists. rewrite <- app_assoc. split; [reflexivity|].
      apply more_params_next; assumption.
  - intros (ps & -> & H). revert acc.
    induction H as [q Hrp|c kt idt ty q ps q' Hc Hk Hty Hid Hps IH];
      intros acc.
    + rewrite app_nil_r. apply iterates_done. rewrite not_check_next_token.
      apply headb_true in Hrp. rewrite Hrp. reflexivity.
    + eapply iterates_step.
      * rewrite not_check_next_token.
        assert (E : ~ starts_with SYM ")" (c :: kt :: idt :: q)) by not_token.
        apply headb_false in E. rewrite E. reflexivity.
      * fwd. reflexivity.
      * specialize (IH (acc ++ [mkParam (snprintf_s MAX_ID_LEN (text idt)) ty])%list).
        rewrite <- app_assoc in IH. exact IH.
Qed.

Lemma params_body_consumes (params : list Param) :
  consumes 1 (match_and_discard_next_token SYM "," ;;;
              ty <- parse_type ;;
              buffer <- parse_id ;;
              ret (params ++ [mkParam buffer ty])%list).
Proof. consumes_tac. Qed.

Lemma parse_params_OK q ps q' :
  parse_params q = OK (ps, q') <-> params_shape q ps q'.
Proof.
  unfold parse_params. split.
  - intros H. destruct q as [|kt q]; [discriminate|].
    rewrite not_empty in H. repeat inv_step; tests; list_eqs.
    + apply while_iterates in H;
        [|auto with pure|intros; apply params_body_consumes].
      apply params_loop_iterates in H. destruct H as (ps' & -> & Hps).
      apply params_more; assumption.
    + apply params_one; assumption.
  - intros H.
    destruct H as [kt idt ty q Hk Hty Hid Hq|kt idt ty q ps q' Hk Hty Hid Hq Hps];
      rewrite not_empty; fwd.
    + reflexivity.
    + apply while_iterates;
        [auto with pure|intros; apply params_body_consumes|].
      apply params_loop_iterates. exists ps. split; [reflexivity | exact Hps].
Qed.

(** X6.  [parse_params] returns exactly on a parameter list: a type keyword
    and an identifier, followed either by a token that is not a comma (which
    is left in the queue, whatever it is) or by a comma and further
    parameters, each a comma, a type keyword and an identifier, up to a
    closing parenthesis, which is left in the queue.  The parameters come
    out in source order; equal names are not rejected. *)
Theorem parse_params_accepts_parameter_lists (q : TokenQueue)
        (ps : list Param) (q' : TokenQueue) :
  parse_params q = OK (ps, q') <-> params_shape q ps q'.
Proof. apply parse_params_OK. Qed.

Lemma params_shape_not_paren q ps q' :
  params_shape q ps q' -> ~ starts_with SYM ")" q.
Proof. intros H. destruct H; simpl; intros [Ht _]; congruence. Qed.

Lemma parse_funcdecl_OK B q node q' :
  parse_funcdecl B q = OK (node, q') <-> funcdecl_shape B q node q'.
Proof.
  unfold parse_funcdecl. split.
  - intros H. destruct q as [|d q]; [discriminate|]. rewrite entry in H.
    repeat inv_step; tests; list_eqs.
    + match goal with
      | H : parse_params _ = OK _ |- _ => apply parse_params_OK in H
      end.
      eapply funcdecl_params; eauto.
    + match goal with
      | H : starts_with _ _ (_ :: _) |- _ => simpl in H
      end.
      eapply funcdecl_no_params; eauto.
  - intros H.
    destruct H as [d kt idt lp rp ty q body q' Hd Hk Hty Hid Hlp Hrp HB
                  |d kt idt lp ty q ps rp q1 body q' Hd Hk Hty Hid Hlp Hps Hrp HB];
      rewrite entry; fwd.
    + reflexivity.
    + pose proof (params_shape_not_paren _ _ _ Hps) as Hn.
      apply parse_params_OK in Hps. fwd. reflexivity.
Qed.

(** X7.  [parse_funcdecl] returns exactly on [def], a type keyword, an
    identifier, an opening parenthesis, then either the closing parenthesis
    at once (no parameters) or a parameter list that [parse_params] accepts
    and that is followed by the closing parenthesis, and then a block that
    [parse_block] accepts.  The node holds the name, the return type, the
    parameters in order, the tree of the block and the line of [def]. *)
Theorem parse_funcdecl_accepts_declarations (parse_block : M ASTNode)
        (q : TokenQueue) (node : ASTNode) (q' : TokenQueue) :
  parse_funcdecl parse_block q = OK (node, q')
  <-> funcdecl_shape parse_block q node q'.
Proof. apply parse_funcdecl_OK. Qed.

Lemma parse_type_accepts_type_keywords_witness :
  parse_type [ident "x" 1; sym ";" 2]
  = error_after [sym ";" 2] (InvalidType "x").
Proof.
  apply (proj2 parse_type_accepts_type_keywords (ident "x" 1) [sym ";" 2]).
  left. simpl. discriminate.
Defined.

Lemma parse_id_accepts_identifiers_witness :
  parse_id [key "int" 1; sym ";" 2] = error_after [sym ";" 2] (InvalidID "int").
Proof.
  apply (proj2 (proj2 parse_id_accepts_identifiers) (key "int" 1) [sym ";" 2]).
  simpl. discriminate.
Defined.

(** ** Literals *)

Lemma parse_lit_cons t q :
  parse_lit (t :: q)
  = match type t with
    | DECLIT =>
        OK (LiteralNode (IntLit (int_of_long (strtol (text t) 10))) (line t), q)
    | HEXLIT =>
        OK (LiteralNode (IntLit (int_of_long (strtol (text t) 16))) (line t), q)
    | KEY =>
        OK (LiteralNode (BoolLit (token_str_eq (text t) "true")) (line t), q)
    | _ =>
        match strip_quotes (text t) with
        | Some p =>
            match fix_escape p with
            | Some s => OK (LiteralNode (StrLit s) (line t), q)
            | None => Undefined
            end
        | None => Undefined
        end
    end.
Proof.
  destruct t as [ty tx l]. destruct ty; simpl type; simpl text; simpl line;
    try reflexivity;
    try (change (parse_lit (mkToken _ tx l :: q))
           with (match strip_quotes tx with
                 | None => undefined
                 | Some p =>
                     match fix_escape p with
                     | None => undefined
                     | Some s => ret (LiteralNode_new_string s l)
                     end
                 end q);
         destruct (strip_quotes tx) as [p|]; [|reflexivity];
         destruct (fix_escape p); reflexivity).
  cbv beta iota delta
      [parse_lit bind TokenQueue_is_empty get_next_token_line TokenQueue_peek
       ret check_next_token_type check_next_token TokenQueue_remove type text
       line TokenType_eqb andb LiteralNode_new_bool].
  destruct (token_str_eq tx "true"); reflexivity.
Qed.

(** X8.  On a queue that is not empty [parse_lit] never throws, whatever
    the first token is.  A decimal or hex token is removed and gives an
    integer literal; any keyword is removed and gives a boolean literal,
    true for the keyword true and false for every other keyword; every
    other token, an identifier or a symbol as well as a string literal, is
    handled as a string literal: its first and last characters are dropped
    and the escape handling runs on the rest, whose outcome is the literal
    or, when text follows the escape, undefined behaviour.  A text of fewer
    than two characters is read out of bounds. *)
Theorem parse_lit_takes_any_token (t : Token) (q : TokenQueue) :
  parse_lit (t :: q)
  = match type t with
    | DECLIT =>
        OK (LiteralNode (IntLit (int_of_long (strtol (text t) 10))) (line t), q)
    | HEXLIT =>
        OK (LiteralNode (IntLit (int_of_long (strtol (text t) 16))) (line t), q)
    | KEY =>
        OK (LiteralNode (BoolLit (String.eqb (text t) "true")) (line t), q)
    | _ =>
        match text t with
        | String _ (String c p) =>
            match fix_escape (removelast (String c p)) with
            | Some s => OK (LiteralNode (StrLit s) (line t), q)
            | None => Undefined
            end
        | _ => Undefined
        end
    end.
Proof.
  rewrite parse_lit_cons.
  destruct (type t); try reflexivity;
    destruct (text t) as [|c0 [|c1 p]]; reflexivity.
Qed.

(** ** Locations, calls and base expressions *)

Lemma parse_loc_OK E q node q' :
  parse_loc E q = OK (node, q') <-> loc_shape E q node q'.
Proof.
  unfold parse_loc. split.
  - intros H. destruct q as [|t q]; [discriminate|]. rewrite entry in H.
    repeat inv_step; tests; list_eqs.
    + match goal with
      | H : starts_with _ _ (_ :: _) |- _ => simpl in H
      end.
      eapply loc_index; eauto.
    + apply loc_plain; assumption.
  - intros H. destruct H; rewrite entry; fwd; reflexivity.
Qed.

(** X9.  [parse_loc] returns exactly on an identifier that is not followed
    by an opening bracket, giving a location without index, or on an
    identifier, an opening bracket, an expression that [parse_expr] accepts
    and a closing bracket, giving the location indexed by the tree of that
    expression. *)
Theorem parse_loc_accepts_locations (parse_expr : M ASTNode)
        (q : TokenQueue) (node : ASTNode) (q' : TokenQueue) :
  parse_loc parse_expr q = OK (node, q') <-> loc_shape parse_expr q node q'.
Proof. apply parse_loc_OK. Qed.

Section Arguments.

Variable E : M ASTNode.
Hypothesis E_consumes : consumes 0 E.

Lemma args_loop_iterates acc q acc' q' :
  iterates (notM (check_next_token SYM ")"))
           (fun args =>
              match_and_discard_next_token SYM "," ;;;
              expr <- E ;;
              ret (args ++ [expr])%list)
           acc q acc' q'
  <-> exists es, acc' = (acc ++ es)%list /\ more_args E q es q'.
Proof.
  split.
  - induction 1 as [s q Hc|s q s1 q1 s' q' Hc Hb Hit IH].
    + exists []. rewrite app_nil_r. split; [reflexivity|].
      rewrite not_check_next_token in Hc. inversion Hc as [Hx]. tests.
      apply more_args_end, Hx.
    + destruct IH as (es & -> & Hes). repeat inv_step. list_eqs.
      eexists. rewrite <- app_assoc. split; [reflexivity|].
      eapply more_args_next; eassumption.
  - intros (es & -> & H). revert acc.
    induction H as [q Hrp|c q e q1 es q' Hc He Hes IH]; intros acc.
    + rewrite app_nil_r. apply iterates_done. rewrite not_check_next_token.
      apply headb_true in Hrp. rewrite Hrp. reflexivity.
    + eapply iterates_step.
      * rewrite not_check_next_token.
        assert (Hn : ~ starts_with SYM ")" (c :: q)) by not_token.
        apply headb_false in Hn. rewrite Hn. reflexivity.
      * fwd. reflexivity.
      * specialize (IH (acc ++ [e])%list).
        rewrite <- app_assoc in IH. exact IH.
Qed.

Lemma args_body_consumes (args : list ASTNode) :
  consumes 1 (match_and_discard_next_token SYM "," ;;;
              expr <- E ;;
              ret (args ++ [expr])%list).
Proof. consumes_tac. Qed.

Lemma parse_args_OK q es q' :
  parse_args E q = OK (es, q') <-> args_shape E q es q'.
Proof.
  unfold parse_args. split.
  - intros H. destruct q as [|t q]; [discriminate|].
    rewrite not_empty in H. repeat inv_step; tests.
    + apply while_iterates in H;
        [|auto with pure|intros; apply args_body_consumes].
      apply args_loop_iterates in H. destruct H as (es' & -> & Hes).
      eapply args_more; try eassumption. discriminate.
    + eapply args_one; try eassumption. discriminate.
  - intros H.
    destruct H as [q e q1 Hq He Hn|q e q1 es q' Hq He Hc Hes];
      (destruct q as [|t q]; [contradiction|]); rewrite not_empty; fwd.
    + reflexivity.
    + apply while_iterates;
        [auto with pure|intros; apply args_body_consumes|].
      apply args_loop_iterates. exists es. split; [reflexivity | exact Hes].
Qed.

Lemma parse_funccall_OK q node q' :
  parse_funccall E q = OK (node, q') <-> funccall_shape E q node q'.
Proof.
  unfold parse_funccall. split.
  - intros H. destruct q as [|t q]; [discriminate|]. rewrite entry in H.
    repeat inv_step; tests; list_eqs.
    + match goal with
      | H : parse_args _ _ = OK _ |- _ => apply parse_args_OK in H
      end.
      eapply call_args; eauto.
    + match goal with
      | H : starts_with _ _ (_ :: _) |- _ => simpl in H
      end.
      apply call_no_args; assumption.
  - intros H.
    destruct H as [t lp rp q' Ht Hlp Hrp|t lp q es rp q' Ht Hlp Hn Hes Hrp];
      rewrite entry; fwd.
    + reflexivity.
    + apply parse_args_OK in Hes. fwd. reflexivity.
Qed.

End Arguments.

(** X10.  [parse_funccall] returns exactly on an identifier, an opening
    parenthesis, then either the closing parenthesis at once or a list of
    expressions separated by commas and followed by the closing
    parenthesis.  The node holds the name and the trees of the arguments in
    source order, and the line of the identifier. *)
Theorem parse_funccall_accepts_calls (n : nat) (q : TokenQueue)
        (node : ASTNode) (q' : TokenQueue) :
  parse_funccall (parse_expr n) q = OK (node, q')
  <-> funccall_shape (parse_expr n) q node q'.
Proof.
  apply parse_funccall_OK.
  eapply consumes_weaken; [|apply parse_expr_consumes]. lia.
Qed.

Lemma literal_test q :
  (check_next_token_type DECLIT ||| check_next_token_type HEXLIT
   ||| check_next_token_type STRLIT ||| check_next_token KEY "true"
   ||| check_next_token KEY "false") q
  = OK (head_typeb DECLIT q || head_typeb HEXLIT q || head_typeb STRLIT q
        || headb KEY "true" q || headb KEY "false" q, q).
Proof.
  unfold orM, bind.
  rewrite !check_next_token_type_eq.
  destruct (head_typeb DECLIT q); [reflexivity|].
  rewrite !check_next_token_type_eq.
  destruct (head_typeb HEXLIT q); [reflexivity|].
  rewrite !check_next_token_type_eq.
  destruct (head_typeb STRLIT q); [reflexivity|].
  rewrite !check_next_token_eq.
  destruct (headb KEY "true" q); [reflexivity|].
  rewrite !check_next_token_eq. reflexivity.
Qed.

Lemma literal_start_test t q :
  head_typeb DECLIT (t :: q) || head_typeb HEXLIT (t :: q)
  || head_typeb STRLIT (t :: q) || headb KEY "true" (t :: q)
  || headb KEY "false" (t :: q) = true
  <-> literal_start t.
Proof.
  unfold literal_start.
  rewrite !orb_true_iff, !head_typeb_true, !headb_true. simpl. tauto.
Qed.

Lemma parse_base_expr_cons E t q :
  parse_base_expr E (t :: q)
  = if headb SYM "(" (t :: q) then
      (match_and_discard_next_token SYM "(" ;;;
       n <- E ;;
       match_and_discard_next_token SYM ")" ;;;
       ret n) (t :: q)
    else if TokenType_eqb (type t) ID then
      match q with
      | t2 :: _ =>
          if token_str_eq (text t2) "(" then parse_funccall E (t :: q)
          else parse_loc E (t :: q)
      | [] => Undefined
      end
    else if head_typeb DECLIT (t :: q) || head_typeb HEXLIT (t :: q)
            || head_typeb STRLIT (t :: q) || headb KEY "true" (t :: q)
            || headb KEY "false" (t :: q)
    then parse_lit (t :: q)
    else Throw (InvalidBaseExpression (text t) (line t)).
Proof.
  unfold parse_base_expr. rewrite entry.
  rewrite (bind_OK _ _ _ _ _ (check_next_token_eq SYM "(" (t :: q))).
  destruct (headb SYM "(" (t :: q)); [reflexivity|].
  unfold bind at 1. rewrite id_then_paren_cons.
  destruct (TokenType_eqb (type t) ID) eqn:Et.
  - destruct q as [|t2 q]; [reflexivity|].
    destruct (token_str_eq (text t2) "("); [reflexivity|].
    rewrite (bind_OK _ _ _ _ _ (check_next_token_type_eq ID (t :: t2 :: q))).
    unfold head_typeb. rewrite Et. reflexivity.
  - rewrite (bind_OK _ _ _ _ _ (check_next_token_type_eq ID (t :: q))).
    unfold head_typeb at 1. rewrite Et.
    rewrite (bind_OK _ _ _ _ _ (literal_test (t :: q))).
    destruct (head_typeb DECLIT (t :: q) || head_typeb HEXLIT (t :: q)
              || head_typeb STRLIT (t :: q) || headb KEY "true" (t :: q)
              || headb KEY "false" (t :: q)); reflexivity.
Qed.

Lemma parse_base_expr_OK E q node q' :
  parse_base_expr E q = OK (node, q') <-> base_expr_shape E q node q'.
Proof.
  split.
  - intros H. destruct q as [|t q]; [discriminate|].
    rewrite parse_base_expr_cons in H.
    destruct (headb SYM "(" (t :: q)) eqn:E1.
    { repeat inv_step; list_eqs. eapply base_paren; eauto. }
    destruct (TokenType_eqb (type t) ID) eqn:E2.
    { tests. destruct q as [|t2 q]; [discriminate|].
      destruct (token_str_eq (text t2) "(") eqn:E3.
      - apply base_call; try assumption. apply String.eqb_eq, E3.
      - apply base_loc; try assumption. apply String.eqb_neq, E3. }
    match type of H with
    | (if ?b then _ else _) = _ => destruct b eqn:E3; [|discriminate]
    end.
    apply base_lit; [apply (literal_start_test t q), E3 | exact H].
  - intros H.
    destruct H as [lp q e rp q' Hlp He Hrp|t t2 q n q' Ht Ht2 Hn
                  |t t2 q n q' Ht Ht2 Hn|t q n q' Ht Hn];
      rewrite parse_base_expr_cons.
    + assert (E1 : headb SYM "(" (lp :: q) = true) by (apply headb_true, Hlp).
      rewrite E1. fwd. reflexivity.
    + assert (E1 : headb SYM "(" (t :: t2 :: q) = false)
        by (apply headb_false; not_token).
      rewrite E1. apply TokenType_eqb_eq in Ht. rewrite Ht.
      unfold token_str_eq. apply String.eqb_eq in Ht2. rewrite Ht2. exact Hn.
    + assert (E1 : headb SYM "(" (t :: t2 :: q) = false)
        by (apply headb_false; not_token).
      rewrite E1. apply TokenType_eqb_eq in Ht. rewrite Ht.
      unfold token_str_eq. apply String.eqb_neq in Ht2. rewrite Ht2. exact Hn.
    + assert (E1 : headb SYM "(" (t :: q) = false).
      { apply headb_false. intros [Hty _].
        destruct Ht as [H|[H|[H|[[H _]|[H _]]]]]; congruence. }
      assert (E2 : TokenType_eqb (type t) ID = false).
      { destruct (TokenType_eqb (type t) ID) eqn:Ex; [|reflexivity].
        apply TokenType_eqb_eq in Ex.
        destruct Ht as [H|[H|[H|[[H _]|[H _]]]]]; congruence. }
      rewrite E1, E2. apply (literal_start_test t q) in Ht. rewrite Ht.
      exact Hn.
Qed.

(** X11.  [parse_base_expr] returns exactly on four shapes: a parenthesis,
    an expression and the closing parenthesis, giving the tree of the
    expression itself (no node stands for the parentheses); an identifier
    whose next token has the text of an opening parenthesis, parsed as a
    call; an identifier with any other token behind it, parsed as a
    location; or a token a literal starts with, parsed by [parse_lit].  A
    first token that is none of these is removed and rejected as an invalid
    base expression, with its own text and line. *)
Theorem parse_base_expr_accepts_four_shapes (parse_expr : M ASTNode) :
  (forall q node q',
      parse_base_expr parse_expr q = OK (node, q')
      <-> base_expr_shape parse_expr q node q')
  /\ (forall t q,
         ~ is_token SYM "(" t -> type t <> ID -> ~ literal_start t ->
         parse_base_expr parse_expr (t :: q)
         = Throw (InvalidBaseExpression (text t) (line t))).
Proof.
  split; [intros; apply parse_base_expr_OK|].
  intros t q H1 H2 H3. rewrite parse_base_expr_cons.
  assert (E1 : headb SYM "(" (t :: q) = false) by (apply headb_false, H1).
  assert (E2 : TokenType_eqb (type t) ID = false).
  { destruct (TokenType_eqb (type t) ID) eqn:Ex; [|reflexivity].
    apply TokenType_eqb_eq in Ex. contradiction. }
  rewrite E1, E2.
  match goal with
  | |- (if ?b then _ else _) = _ => destruct b eqn:E3; [|reflexivity]
  end.
  apply (literal_start_test t q) in E3. contradiction.
Qed.

Lemma parse_neg_cons E t q :
  parse_neg E (t :: q)
  = if headb SYM "-" (t :: q) then
      (child <- parse_base_expr E ;; ret (UnaryOpNode NEGOP child (line t))) q
    else if headb SYM "!" (t :: q) then
      (child <- parse_base_expr E ;; ret (UnaryOpNode NOTOP child (line t))) q
    else parse_base_expr E (t :: q).
Proof.
  unfold parse_neg. rewrite entry. unfold orM.
  unfold bind at 1. unfold bind at 1. rewrite check_next_token_eq.
  destruct (headb SYM "-" (t :: q)) eqn:E1.
  - unfold ret at 1. cbv beta iota.
    rewrite (bind_OK _ _ _ _ _ (check_next_token_eq SYM "-" (t :: q))).
    rewrite E1. apply headb_true in E1.
    rewrite (bind_OK _ _ _ _ _ (match_and_discard_next_token_yes _ _ _ q E1)).
    reflexivity.
  - cbv beta iota. rewrite check_next_token_eq.
    destruct (headb SYM "!" (t :: q)) eqn:E2; [|reflexivity].
    rewrite (bind_OK _ _ _ _ _ (check_next_token_eq SYM "-" (t :: q))).
    rewrite E1. apply headb_true in E2.
    rewrite (bind_OK _ _ _ _ _ (match_and_discard_next_token_yes _ _ _ q E2)).
    reflexivity.
Qed.

Lemma parse_neg_OK E q node q' :
  parse_neg E q = OK (node, q') <-> neg_shape E q node q'.
Proof.
  split.
  - intros H. destruct q as [|t q]; [discriminate|].
    rewrite parse_neg_cons in H.
    destruct (headb SYM "-" (t :: q)) eqn:E1.
    { repeat inv_step. tests. apply neg_minus; assumption. }
    destruct (headb SYM "!" (t :: q)) eqn:E2.
    { repeat inv_step. tests. apply neg_not; assumption. }
    tests. apply neg_base; assumption.
  - intros H. destruct H as [m q e q' Hm He|m q e q' Hm He|t q e q' H1 H2 He];
      rewrite parse_neg_cons.
    + assert (E1 : headb SYM "-" (m :: q) = true) by (apply headb_true, Hm).
      rewrite E1. fwd. reflexivity.
    + assert (E1 : headb SYM "-" (m :: q) = false)
        by (apply headb_false; not_token).
      assert (E2 : headb SYM "!" (m :: q) = true) by (apply headb_true, Hm).
      rewrite E1, E2. fwd. reflexivity.
    + assert (E1 : headb SYM "-" (t :: q) = false) by (apply headb_false, H1).
      assert (E2 : headb SYM "!" (t :: q) = false) by (apply headb_false, H2).
      rewrite E1, E2. exact He.
Qed.

(** X12.  [parse_neg] returns exactly on a minus or an exclamation mark
    followed by a base expression, giving the negation node with the line
    of the operator, or on a base expression alone.  The operand of a
    prefix operator is a base expression, so a second prefix operator
    directly behind the first is rejected as an invalid base expression. *)
Theorem parse_neg_takes_one_prefix_operator (parse_expr : M ASTNode) :
  (forall q node q',
      parse_neg parse_expr q = OK (node, q')
      <-> neg_shape parse_expr q node q')
  /\ (forall op1 op2 q,
         is_token SYM "-" op1 \/ is_token SYM "!" op1 ->
         is_token SYM "-" op2 \/ is_token SYM "!" op2 ->
         parse_neg parse_expr (op1 :: op2 :: q)
         = Throw (InvalidBaseExpression (text op2) (line op2))).
Proof.
  split; [intros; apply parse_neg_OK|].
  intros op1 op2 q H1 H2.
  assert (Hb : parse_base_expr parse_expr (op2 :: q)
               = Throw (InvalidBaseExpression (text op2) (line op2))).
  { rewrite parse_base_expr_cons.
    assert (E1 : headb SYM "(" (op2 :: q) = false)
      by (apply headb_false; destruct H2; not_token).
    assert (E2 : TokenType_eqb (type op2) ID = false).
    { destruct (TokenType_eqb (type op2) ID) eqn:Ex; [|reflexivity].
      apply TokenType_eqb_eq in Ex. destruct H2 as [[H _]|[H _]]; congruence. }
    rewrite E1, E2.
    match goal with
    | |- (if ?b then _ else _) = _ => destruct b eqn:E3; [|reflexivity]
    end.
    apply (literal_start_test op2 q) in E3.
    destruct H2 as [[Ha Hb]|[Ha Hb]];
      destruct E3 as [H|[H|[H|[[H _]|[H _]]]]]; congruence. }
  rewrite parse_neg_cons. destruct H1 as [H1|H1].
  - assert (E1 : headb SYM "-" (op1 :: op2 :: q) = true)
      by (apply headb_true, H1).
    rewrite E1. unfold bind. rewrite Hb. reflexivity.
  - assert (E1 : headb SYM "-" (op1 :: op2 :: q) = false)
      by (apply headb_false; not_token).
    assert (E2 : headb SYM "!" (op1 :: op2 :: q) = true)
      by (apply headb_true, H1).
    rewrite E1, E2. unfold bind. rewrite Hb. reflexivity.
Qed.

Lemma parse_base_expr_accepts_four_shapes_witness :
  parse_base_expr (parse_expr 1) [sym ";" 3; ident "x" 4]
  = Throw (InvalidBaseExpression ";" 3).
Proof.
  apply (proj2 (parse_base_expr_accepts_four_shapes (parse_expr 1))
               (sym ";" 3) [ident "x" 4]).
  - intros [_ H]. discriminate H.
  - simpl. discriminate.
  - intros [H|[H|[H|[[H _]|[H _]]]]]; discriminate H.
Defined.

Lemma parse_neg_takes_one_prefix_operator_witness :
  parse_neg (parse_expr 1) [sym "-" 1; sym "-" 1; dec "1" 1]
  = Throw (InvalidBaseExpression "-" 1).
Proof.
  apply (proj2 (parse_neg_takes_one_prefix_operator (parse_expr 1))
               (sym "-" 1) (sym "-" 1) [dec "1" 1]).
  - left. split; reflexivity.
  - left. split; reflexivity.
Defined.

(** ** Statements *)

Lemma parse_while_OK E B q node q' :
  parse_while E B q = OK (node, q') <-> while_shape E B q node q'.
Proof.
  unfold parse_while. split.
  - intros H. destruct q as [|k q]; [discriminate|]. rewrite entry in H.
    repeat inv_step; list_eqs. eapply while_shape_intro; eauto.
  - intros H. destruct H. rewrite entry. fwd. reflexivity.
Qed.

Lemma parse_conditional_OK E B q node q' :
  parse_conditional E B q = OK (node, q') <-> conditional_shape E B q node q'.
Proof.
  unfold parse_conditional. split.
  - intros H. destruct q as [|k q]; [discriminate|]. rewrite entry in H.
    repeat inv_step; tests; list_eqs.
    + eapply conditional_if_else; eauto.
    + eapply conditional_if; eauto.
  - intros H. destruct H; rewrite entry; fwd; reflexivity.
Qed.
Lemma id_then_paren_yes t t2 q :
  type t = ID -> text t2 = "(" ->
  id_then_paren (t :: t2 :: q) = OK (true, t :: t2 :: q).
Proof.
  intros Ht Ht2. rewrite id_then_paren_cons.
  apply TokenType_eqb_eq in Ht. rewrite Ht.
  unfold token_str_eq. apply String.eqb_eq in Ht2. rewrite Ht2. reflexivity.
Qed.

Lemma id_then_paren_no t t2 q :
  type t = ID -> text t2 <> "(" ->
  id_then_paren (t :: t2 :: q) = OK (false, t :: t2 :: q).
Proof.
  intros Ht Ht2. rewrite id_then_paren_cons.
  apply TokenType_eqb_eq in Ht. rewrite Ht.
  unfold token_str_eq. apply String.eqb_neq in Ht2. rewrite Ht2. reflexivity.
Qed.

Lemma id_then_paren_not_id t q :
  type t <> ID -> id_then_paren (t :: q) = OK (false, t :: q).
Proof.
  intros Ht. rewrite id_then_paren_cons.
  apply TokenType_eqb_neq in Ht. rewrite Ht. reflexivity.
Qed.

Lemma parse_statement_OK E B q node q' :
  parse_statement E B q = OK (node, q') <-> statement_shape E B q node q'.
Proof.
  unfold parse_statement. split.
  - intros H. destruct q as [|k q]; [discriminate|]. rewrite entry in H.
    repeat match goal with
           | H : bind id_then_paren _ _ = OK _ |- _ =>
               unfold bind at 1 in H; rewrite id_then_paren_cons in H
           | _ => inv_step
           end; tests; list_eqs.
    + apply statement_break; assumption.
    + apply statement_continue; assumption.
    + eapply statement_return_value; eassumption.
    + apply statement_return; assumption.
    + apply statement_while; [assumption|]. apply parse_while_OK, H.
    + apply statement_if; [assumption|]. apply parse_conditional_OK, H.
    + destruct (TokenType_eqb (type k) ID) eqn:Ek.
      * destruct q as [|t2 q]; [discriminate|].
        destruct (token_str_eq (text t2) "(") eqn:Et;
          repeat inv_step; tests; list_eqs.
        -- eapply statement_call; eauto. apply String.eqb_eq, Et.
        -- eapply statement_assign; eauto. apply String.eqb_neq, Et.
      * repeat inv_step; tests; simpl in *; congruence.
  - intros H.
    destruct H as [k semi q' Hk Hs|k semi q' Hk Hs|k semi q' Hk Hs
                  |k q v semi q' Hk Hn Hv Hs|k q n q' Hk Hw|k q n q' Hk Hc
                  |t t2 q n semi q' Ht Ht2 Hn Hs
                  |t t2 q loc eq q1 v semi q' Ht Ht2 Hl He Hv Hs];
      rewrite entry.
    + fwd. reflexivity.
    + fwd. reflexivity.
    + fwd. reflexivity.
    + fwd. reflexivity.
    + apply parse_while_OK in Hw. fwd. exact Hw.
    + apply parse_conditional_OK in Hc. fwd. exact Hc.
    + fwd. rewrite (bind_OK _ _ _ _ _ (id_then_paren_yes t t2 q Ht Ht2)).
      fwd. reflexivity.
    + fwd. rewrite (bind_OK _ _ _ _ _ (id_then_paren_no t t2 q Ht Ht2)).
      fwd. reflexivity.
Qed.

Lemma parse_statement_invalid E B t q :
  ~ statement_keyword t -> type t <> ID ->
  parse_statement E B (t :: q) = Throw (InvalidStatement (line t)).
Proof.
  intros Hk Ht. unfold statement_keyword in Hk.
  unfold parse_statement. rewrite entry.
  rewrite (bind_OK _ _ _ _ _
             (check_next_token_no KEY "break" (t :: q) ltac:(simpl; tauto))).
  rewrite (bind_OK _ _ _ _ _
             (check_next_token_no KEY "continue" (t :: q) ltac:(simpl; tauto))).
  rewrite (bind_OK _ _ _ _ _
             (check_next_token_no KEY "return" (t :: q) ltac:(simpl; tauto))).
  rewrite (bind_OK _ _ _ _ _
             (check_next_token_no KEY "while" (t :: q) ltac:(simpl; tauto))).
  rewrite (bind_OK _ _ _ _ _
             (check_next_token_no KEY "if" (t :: q) ltac:(simpl; tauto))).
  rewrite (bind_OK _ _ _ _ _ (id_then_paren_not_id t q Ht)).
  rewrite (bind_OK _ _ _ _ _ (check_next_token_type_no ID (t :: q) Ht)).
  reflexivity.
Qed.


(** X13.  [parse_while] and [parse_conditional] remove their first token
    without looking at it, then take a parenthesised expression and a
    block; [parse_conditional] then takes, when [else] follows, what
    [parse_expr] accepts.  They return on these shapes only, with the
    line of the removed token in the node. *)
Theorem parse_while_and_conditional_accept
        (parse_expr parse_block : M ASTNode)
        (q : TokenQueue) (node : ASTNode) (q' : TokenQueue) :
  (parse_while parse_expr parse_block q = OK (node, q')
   <-> while_shape parse_expr parse_block q node q')
  /\ (parse_conditional parse_expr parse_block q = OK (node, q')
      <-> conditional_shape parse_expr parse_block q node q').
Proof. split; [apply parse_while_OK | apply parse_conditional_OK]. Qed.

(** X14.  [parse_statement] returns exactly on the eight shapes of a
    statement: [break], [continue] and [return] with a semicolon, [return]
    with a value, a while loop, a conditional, a call with a semicolon
    (an identifier whose next token has the text of an opening
    parenthesis), and an assignment (an identifier with any other token
    behind it).  A first token that is neither one of the five statement
    keywords nor an identifier is rejected as an invalid statement on its
    line. *)
Theorem parse_statement_accepts_eight_shapes
        (parse_expr parse_block : M ASTNode) :
  (forall q node q',
      parse_statement parse_expr parse_block q = OK (node, q')
      <-> statement_shape parse_expr parse_block q node q')
  /\ (forall t q,
         ~ statement_keyword t -> type t <> ID ->
         parse_statement parse_expr parse_block (t :: q)
         = Throw (InvalidStatement (line t))).
Proof.
  split; [intros; apply parse_statement_OK|].
  intros; apply parse_statement_invalid; assumption.
Qed.

(** ** Blocks *)

Lemma type_keyword_test q :
  (check_next_token KEY "int" ||| check_next_token KEY "bool"
   ||| check_next_token KEY "void") q
  = OK (headb KEY "int" q || headb KEY "bool" q || headb KEY "void" q, q).
Proof.
  unfold orM, bind.
  rewrite !check_next_token_eq.
  destruct (headb KEY "int" q); [reflexivity|].
  rewrite !check_next_token_eq.
  destruct (headb KEY "bool" q); [reflexivity|].
  rewrite ?check_next_token_eq. reflexivity.
Qed.

Lemma starts_with_type_keyword_test q :
  headb KEY "int" q || headb KEY "bool" q || headb KEY "void" q = true
  <-> starts_with_type_keyword q.
Proof.
  unfold starts_with_type_keyword.
  rewrite !orb_true_iff, !headb_true. tauto.
Qed.

Lemma starts_with_type_keyword_test_false q :
  headb KEY "int" q || headb KEY "bool" q || headb KEY "void" q = false
  <-> ~ starts_with_type_keyword q.
Proof.
  rewrite <- starts_with_type_keyword_test.
  destruct (headb KEY "int" q || headb KEY "bool" q || headb KEY "void" q);
    split; congruence.
Qed.

Section Blocks.

Variables E B : M ASTNode.
Hypothesis E_consumes : consumes 0 E.
Hypothesis B_consumes : consumes 0 B.

Lemma block_body_consumes vs : consumes 1 (parse_block_item E B vs).
Proof.
  pose proof (parse_statement_consumes E B E_consumes B_consumes).
  unfold parse_block_item. consumes_tac.
Qed.

Lemma block_loop_iterates acc q acc' q' :
  iterates block_cond (parse_block_item E B) acc q acc' q'
  <-> exists vs ss,
      acc' = (fst acc ++ vs, snd acc ++ ss)%list /\ block_items E B q vs ss q'.
Proof.
  split.
  - induction 1 as [s q Hc|s q s1 q1 s' q' Hc Hb Hit IH].
    + exists [], []. rewrite !app_nil_r. split; [destruct s; reflexivity|].
      unfold block_cond in Hc. rewrite not_check_next_token in Hc.
      inversion Hc as [Ec]. tests. apply block_items_end, Ec.
    + destruct IH as (vs & ss & -> & Hit').
      unfold block_cond in Hc. rewrite not_check_next_token in Hc.
      inversion Hc as [Ec]. tests.
      unfold parse_block_item in Hb.
      rewrite (bind_OK _ _ _ _ _ (type_keyword_test q)) in Hb.
      destruct (headb KEY "int" q || headb KEY "bool" q || headb KEY "void" q)
        eqn:Ek; repeat inv_step; simpl fst; simpl snd.
      * apply starts_with_type_keyword_test in Ek.
        exists (a :: vs), ss. rewrite <- app_assoc. split; [reflexivity|].
        eapply block_items_var; eassumption.
      * apply starts_with_type_keyword_test_false in Ek.
        exists vs, (a :: ss). rewrite <- app_assoc. split; [reflexivity|].
        eapply block_items_statement; eassumption.
  - intros (vs & ss & -> & H). revert acc.
    induction H as [q Hrb|q v q1 vs ss q' Hk Hv Hit IH
                   |q s q1 vs ss q' Hrb Hk Hs Hit IH]; intros acc.
    + rewrite !app_nil_r. destruct acc as [a1 a2]. simpl.
      apply iterates_done. unfold block_cond. rewrite not_check_next_token.
      apply headb_true in Hrb. rewrite Hrb. reflexivity.
    + eapply iterates_step.
      * unfold block_cond. rewrite not_check_next_token.
        assert (Ec : ~ starts_with SYM "}" q).
        { destruct q as [|t q]; [exact (fun x => x)|].
          destruct Hk as [Hk|[Hk|Hk]]; not_token. }
        apply headb_false in Ec. rewrite Ec. reflexivity.
      * unfold parse_block_item.
        rewrite (bind_OK _ _ _ _ _ (type_keyword_test q)).
        apply starts_with_type_keyword_test in Hk. rewrite Hk.
        rewrite (bind_OK _ _ _ _ _ Hv). reflexivity.
      * specialize (IH (fst acc ++ [v], snd acc)%list). simpl in IH.
        rewrite <- app_assoc in IH. exact IH.
    + eapply iterates_step.
      * unfold block_cond. rewrite not_check_next_token.
        apply headb_false in Hrb. rewrite Hrb. reflexivity.
      * unfold parse_block_item.
        rewrite (bind_OK _ _ _ _ _ (type_keyword_test q)).
        apply starts_with_type_keyword_test_false in Hk. rewrite Hk.
        rewrite (bind_OK _ _ _ _ _ Hs). reflexivity.
      * specialize (IH (fst acc, snd acc ++ [s])%list). simpl in IH.
        rewrite <- app_assoc in IH. exact IH.
Qed.

Lemma block_items_end_brace q vs ss q' :
  block_items E B q vs ss q' -> starts_with SYM "}" q'.
Proof. induction 1; assumption. Qed.

Lemma parse_block_body_OK q node q' :
  parse_block_body E B q = OK (node, q') <-> block_shape E B q node q'.
Proof.
  unfold parse_block_body.
  change (while (notM (check_next_token SYM "}")) _ ([], []))
    with (while block_cond (parse_block_item E B) ([], [])).
  split.
  - intros H. destruct q as [|lb q]; [discriminate|]. rewrite entry in H.
    repeat inv_step; tests; list_eqs.
    + eapply block_shape_intro; [assumption|].
      apply block_items_end. assumption.
    + match goal with
      | H : while _ _ _ _ = OK _ |- _ =>
          apply while_iterates in H;
            [|unfold block_cond; auto with pure
             |intros; apply block_body_consumes];
            apply block_loop_iterates in H;
            destruct H as (vs & ss & Hvs & Hit)
      end.
      subst. simpl. eapply block_shape_intro; eassumption.
  - intros H. destruct H as [lb q vs ss rb q' Hlb Hit].
    rewrite entry.
    pose proof (block_items_end_brace _ _ _ _ Hit) as Hrb. simpl in Hrb.
    inversion Hit as [q0 Hq0|q0 v q1 vs0 ss0 q0' Hk Hv Hit'
                     |q0 s q1 vs0 ss0 q0' Hn Hk Hs Hit']; subst.
    + fwd. reflexivity.
    + assert (Ec : ~ starts_with SYM "}" q).
      { destruct q as [|t q]; [exact (fun x => x)|].
        destruct Hk as [Hk|[Hk|Hk]]; not_token. }
      fwd.
      assert (Hw : while block_cond (parse_block_item E B) ([], []) q
                   = OK ((v :: vs0, ss), rb :: q')).
      { apply while_iterates;
          [unfold block_cond; auto with pure
          |intros; apply block_body_consumes|].
        apply block_loop_iterates. exists (v :: vs0), ss.
        split; [reflexivity | exact Hit]. }
      rewrite (bind_OK _ _ _ _ _ Hw). fwd. reflexivity.
    + fwd.
      assert (Hw : while block_cond (parse_block_item E B) ([], []) q
                   = OK ((vs, s :: ss0), rb :: q')).
      { apply while_iterates;
          [unfold block_cond; auto with pure
          |intros; apply block_body_consumes|].
        apply block_loop_iterates. exists vs, (s :: ss0).
        split; [reflexivity | exact Hit]. }
      rewrite (bind_OK _ _ _ _ _ Hw). fwd. reflexivity.
Qed.

End Blocks.

(** X15.  [parse_block] returns exactly on an opening brace, items up to
    a closing brace, and that brace.  An item that starts with one of the
    keywords [int], [bool], [void] is a variable declaration, any other a
    statement; declarations and statements may come in any order and are
    collected in two lists, each in source order.  The node has the line
    of the opening brace. *)
Theorem parse_block_accepts_blocks (n : nat)
        (q : TokenQueue) (node : ASTNode) (q' : TokenQueue) :
  parse_block (S n) q = OK (node, q')
  <-> block_shape (parse_expr (S n)) (parse_block n) q node q'.
Proof.
  change (parse_block (S n))
    with (parse_block_body (parse_expr (S n)) (parse_block n)).
  apply parse_block_body_OK.
  - eapply consumes_weaken; [|apply parse_expr_consumes]. lia.
  - eapply consumes_weaken; [|apply parse_block_consumes]. lia.
Qed.

(** ** Programs *)

Section Programs.

Variable B : M ASTNode.
Hypothesis B_consumes : consumes 0 B.

Lemma parse_program_step_consumes vf : consumes 1 (parse_program_step B vf).
Proof.
  pose proof (parse_funcdecl_consumes B B_consumes).
  unfold parse_program_step. consumes_tac.
Qed.

Lemma not_TokenQueue_is_empty q :
  notM TokenQueue_is_empty q
  = OK (match q with [] => false | _ :: _ => true end, q).
Proof. destruct q; reflexivity. Qed.

Lemma program_loop_iterates acc q acc' q' :
  iterates (notM TokenQueue_is_empty) (parse_program_step B) acc q acc' q'
  <-> q' = [] /\ exists vs fs,
      acc' = (fst acc ++ vs, snd acc ++ fs)%list /\ program_items B q vs fs.
Proof.
  split.
  - induction 1 as [s q Hc|s q s1 q1 s' q' Hc Hb Hit IH].
    + rewrite not_TokenQueue_is_empty in Hc.
      destruct q; [|discriminate]. split; [reflexivity|].
      exists [], []. rewrite !app_nil_r. split; [destruct s; reflexivity|].
      apply program_items_end.
    + destruct IH as (-> & vs & fs & -> & Hit'). split; [reflexivity|].
      rewrite not_TokenQueue_is_empty in Hc.
      assert (Hq : q <> []) by (destruct q; [discriminate | discriminate]).
      unfold parse_program_step in Hb.
      repeat inv_step; tests; simpl fst; simpl snd.
      * exists vs, (a :: fs). rewrite <- app_assoc. split; [reflexivity|].
        eapply program_items_func; eassumption.
      * exists (a :: vs), fs. rewrite <- app_assoc. split; [reflexivity|].
        eapply program_items_var; eassumption.
  - intros (-> & vs & fs & -> & H). revert acc.
    induction H as [|q f q1 vs fs Hd Hf Hit IH|q v q1 vs fs Hq Hd Hv Hit IH];
      intros acc.
    + rewrite !app_nil_r. destruct acc as [a1 a2]. simpl.
      apply iterates_done. reflexivity.
    + eapply iterates_step.
      * rewrite not_TokenQueue_is_empty.
        destruct q; [contradiction | reflexivity].
      * unfold parse_program_step. fwd. reflexivity.
      * specialize (IH (fst acc, snd acc ++ [f])%list). simpl in IH.
        rewrite <- app_assoc in IH. exact IH.
    + eapply iterates_step.
      * rewrite not_TokenQueue_is_empty.
        destruct q; [contradiction | reflexivity].
      * unfold parse_program_step. fwd. reflexivity.
      * specialize (IH (fst acc ++ [v], snd acc)%list). simpl in IH.
        rewrite <- app_assoc in IH. exact IH.
Qed.

Lemma parse_program_OK q node q' :
  parse_program B q = OK (node, q')
  <-> q' = [] /\ exists vs fs,
      node = ProgramNode vs fs /\ program_items B q vs fs.
Proof.
  unfold parse_program. split.
  - intros H. repeat inv_step.
    apply while_iterates in H0;
      [|auto with pure|intros; apply parse_program_step_consumes].
    apply program_loop_iterates in H0.
    destruct H0 as (-> & vs & fs & -> & Hit). split; [reflexivity|].
    exists vs, fs. split; [reflexivity | exact Hit].
  - intros (-> & vs & fs & -> & Hit).
    assert (Hw : while (notM TokenQueue_is_empty) (parse_program_step B)
                       ([], []) q = OK ((vs, fs), [])).
    { apply while_iterates;
        [auto with pure|intros; apply parse_program_step_consumes|].
      apply program_loop_iterates. split; [reflexivity|].
      exists vs, fs. split; [reflexivity | exact Hit]. }
    rewrite (bind_OK _ _ _ _ _ Hw). reflexivity.
Qed.

End Programs.

(** X16.  [parse] returns exactly when the whole queue is a sequence of
    declarations: at each point a queue that starts with [def] must give
    a function declaration and any other a variable declaration, until
    no token is left.  The tree is a program node with the variable
    declarations and the function declarations in two lists, each in
    source order.  An empty queue gives the empty program. *)
Theorem parse_accepts_declaration_sequences (q : TokenQueue)
        (node : ASTNode) (q' : TokenQueue) :
  parse (Some q) = OK (node, q')
  <-> q' = [] /\ exists vars funcs,
      node = ProgramNode vars funcs
      /\ program_items (parse_block (S (List.length q))) q vars funcs.
Proof.
  apply parse_program_OK.
  eapply consumes_weaken; [|apply parse_block_consumes]. lia.
Qed.

Lemma parse_statement_accepts_eight_shapes_witness :
  parse_statement (parse_expr 1) (parse_block 1) [sym "}" 7]
  = Throw (InvalidStatement 7).
Proof.
  apply (proj2 (parse_statement_accepts_eight_shapes
                  (parse_expr 1) (parse_block 1))
               (sym "}" 7) []).
  - intros [[H _]|[[H _]|[[H _]|[[H _]|[H _]]]]]; discriminate H.
  - simpl. discriminate.
Defined.

(** ** No undefined behaviour on well-formed queues *)

Lemma defined_ret {A} (a : A) : defined (ret a).
Proof.
  intros q Hq. split; [discriminate|].
  intros a' q' E. inversion E; subst. exact Hq.
Qed.

Lemma defined_throw {A} f a : defined (@Error_throw_printf A f a).
Proof. intros q Hq. split; [discriminate|]. intros a' q' E. discriminate. Qed.

Lemma defined_out_of_fuel {A} : defined (@out_of_fuel A).
Proof. intros q Hq. split; [discriminate|]. intros a' q' E. discriminate. Qed.

Lemma defined_bind {A B} (m : M A) (f : A -> M B) :
  defined m -> (forall a, defined (f a)) -> defined (bind m f).
Proof.
  intros Hm Hf q Hq. destruct (Hm q Hq) as [Hu Hp].
  unfold defined_on, post, bind in *.
  destruct (m q) as [[a q1]| | |] eqn:Em.
  - apply (Hf a q1). apply (Hp a q1 eq_refl).
  - split; [discriminate|]. intros a' q' E. discriminate.
  - contradiction.
  - split; [discriminate|]. intros a' q' E. discriminate.
Qed.

Lemma pure_defined {A} (m : M A) : pure m -> defined m.
Proof.
  intros H q Hq. destruct (H q) as [a E]. split; [congruence|].
  intros a' q' E'. rewrite E in E'. inversion E'; subst. exact Hq.
Qed.

Lemma TokenQueue_remove_defined : defined TokenQueue_remove.
Proof.
  intros [|t q] Hq; (split; [discriminate|]); intros a q' E;
    [discriminate|].
  inversion E; subst. apply Hq.
Qed.

Lemma TokenQueue_peek_defined : defined TokenQueue_peek.
Proof.
  intros [|t q] Hq; (split; [discriminate|]); intros a q' E;
    [discriminate|].
  inversion E; subst. exact Hq.
Qed.

Lemma while_loop_defined {St} (cond : M bool) (body : St -> M St) :
  defined cond -> (forall s, defined (body s)) ->
  forall k s, defined (while_loop k cond body s).
Proof.
  intros Hc Hb. induction k as [|k IH]; intros s; simpl.
  - apply defined_bind; [exact Hc|].
    intros [|]; [apply defined_out_of_fuel | apply defined_ret].
  - apply defined_bind; [exact Hc|].
    intros [|]; [|apply defined_ret].
    apply defined_bind; [apply Hb|]. intros s'. apply IH.
Qed.

Lemma while_defined {St} (cond : M bool) (body : St -> M St) s :
  defined cond -> (forall s, defined (body s)) -> defined (while cond body s).
Proof.
  intros Hc Hb q Hq. unfold while. apply (while_loop_defined _ _ Hc Hb), Hq.
Qed.

Lemma id_then_paren_defined : defined id_then_paren.
Proof.
  intros [|t q] Hq.
  - split; [discriminate|]. intros a q' E. inversion E; subst. exact Hq.
  - unfold defined_on, post. rewrite id_then_paren_cons.
    destruct (TokenType_eqb (type t) ID) eqn:Et.
    + apply TokenType_eqb_eq in Et. pose proof Hq as (_ & Hn & _).
      destruct q as [|t2 q]; [exfalso; apply (Hn Et); reflexivity|].
      split; [discriminate|]. intros a q' E. inversion E; subst. exact Hq.
    + split; [discriminate|]. intros a q' E. inversion E; subst. assumption.
Qed.

Create HintDb defined.
#[export] Hint Resolve TokenQueue_remove_defined TokenQueue_peek_defined
  id_then_paren_defined : defined.

(** A proof of [defined] follows the rule, like [consumes_tac]. *)
Ltac defined_tac :=
  let rec go :=
    cbv beta;
    lazymatch goal with
    | |- defined (bind _ _) => apply defined_bind; [go | intros ?; go]
    | |- defined (ret _) => apply defined_ret
    | |- defined (Error_throw_printf _ _) => apply defined_throw
    | |- defined out_of_fuel => apply defined_out_of_fuel
    | |- defined (if ?b then _ else _) => destruct b; go
    | |- defined (match ?x with Some _ => _ | None => _ end) =>
        destruct x; go
    | |- defined (while _ _ _) =>
        apply while_defined; [go | intros ?; go]
    | |- defined _ =>
        first [ solve [apply pure_defined; auto with pure]
              | solve [auto with defined] ]
    end
  in go.

Lemma get_next_token_line_defined : defined get_next_token_line.
Proof. unfold get_next_token_line. defined_tac. Qed.
#[export] Hint Resolve get_next_token_line_defined : defined.

Lemma match_and_discard_next_token_defined ty txt :
  defined (match_and_discard_next_token ty txt).
Proof. unfold match_and_discard_next_token. defined_tac. Qed.

Lemma parse_type_defined : defined parse_type.
Proof. unfold parse_type. defined_tac. Qed.

Lemma parse_id_defined : defined parse_id.
Proof. unfold parse_id. defined_tac. Qed.
#[export] Hint Resolve match_and_discard_next_token_defined
  parse_type_defined parse_id_defined : defined.

Lemma parse_vardecl_defined : defined parse_vardecl.
Proof. unfold parse_vardecl. defined_tac. Qed.

Lemma parse_params_defined : defined parse_params.
Proof. unfold parse_params. defined_tac. Qed.
#[export] Hint Resolve parse_vardecl_defined parse_params_defined : defined.

Lemma parse_lit_defined_on t q :
  literal_start t -> well_formed (t :: q) -> defined_on parse_lit (t :: q).
Proof.
  intros Hl Hq. unfold defined_on, post. rewrite parse_lit_cons.
  destruct Hq as (Hs & _ & Hq).
  assert (Hok : forall n : ASTNode,
             OK (n, q) <> Undefined
             /\ (forall a q', OK (n, q) = OK (a, q') -> well_formed q')).
  { intros n. split; [discriminate|]. intros a q' E.
    inversion E; subst. exact Hq. }
  unfold literal_start, is_token in Hl.
  destruct (type t) eqn:Et; try apply Hok;
    try (exfalso; intuition discriminate).
  destruct (Hs eq_refl) as [Hlen Hbody].
  destruct (strip_quotes (text t)) as [body|] eqn:Eb.
  - specialize (Hbody body eq_refl).
    destruct (fix_escape_outcome body)
      as [[_ E]|(pre & ch & post & Hsp & E)]; rewrite E; [apply Hok|].
    destruct post as [|c post]; [apply Hok|].
    exfalso. apply Hbody. exists pre, ch, (String c post).
    split; [exact Hsp | discriminate].
  - exfalso. unfold strip_quotes in Eb.
    destruct (text t) as [|c1 [|c2 p]]; simpl in Hlen; try lia.
    discriminate.
Qed.

Section RulesDefined.

Variables parse_expr parse_block : M ASTNode.
Hypothesis parse_expr_defined : defined parse_expr.
Hypothesis parse_block_defined : defined parse_block.

Local Hint Resolve parse_expr_defined parse_block_defined : defined.

Lemma parse_args_defined : defined (parse_args parse_expr).
Proof. unfold parse_args. defined_tac. Qed.
Local Hint Resolve parse_args_defined : defined.

Lemma parse_funccall_defined : defined (parse_funccall parse_expr).
Proof. unfold parse_funccall. defined_tac. Qed.

Lemma parse_loc_defined : defined (parse_loc parse_expr).
Proof. unfold parse_loc. defined_tac. Qed.
Local Hint Resolve parse_funccall_defined parse_loc_defined : defined.

Lemma parse_base_expr_defined : defined (parse_base_expr parse_expr).
Proof.
  intros [|t q] Hq.
  - split; [discriminate|]. intros a q' E. discriminate.
  - unfold defined_on, post. rewrite parse_base_expr_cons.
    destruct (headb SYM "(" (t :: q)).
    { revert Hq. generalize (t :: q). change (defined
        (match_and_discard_next_token SYM "(" ;;;
         n <- parse_expr ;;
         match_and_discard_next_token SYM ")" ;;;
         ret n)).
      defined_tac. }
    destruct (TokenType_eqb (type t) ID) eqn:Et.
    { apply TokenType_eqb_eq in Et. pose proof Hq as (_ & Hn & _).
      destruct q as [|t2 q]; [exfalso; apply (Hn Et); reflexivity|].
      destruct (token_str_eq (text t2) "(").
      - apply parse_funccall_defined, Hq.
      - apply parse_loc_defined, Hq. }
    match goal with
    | |- context [if ?b then _ else _] => destruct b eqn:El
    end.
    + apply literal_start_test in El. apply parse_lit_defined_on; assumption.
    + split; [discriminate|]. intros a q' E. discriminate.
Qed.
Local Hint Resolve parse_base_expr_defined : defined.

Lemma parse_neg_defined : defined (parse_neg parse_expr).
Proof. unfold parse_neg. defined_tac. Qed.
Local Hint Resolve parse_neg_defined : defined.

Lemma parse_mult_defined : defined (parse_mult parse_expr).
Proof. unfold parse_mult. defined_tac. Qed.
Local Hint Resolve parse_mult_defined : defined.

Lemma parse_arith_defined : defined (parse_arith parse_expr).
Proof. unfold parse_arith. defined_tac. Qed.
Local Hint Resolve parse_arith_defined : defined.

Lemma parse_relational_defined : defined (parse_relational parse_expr).
Proof. unfold parse_relational. defined_tac. Qed.
Local Hint Resolve parse_relational_defined : defined.

Lemma parse_equality_defined : defined (parse_equality parse_expr).
Proof. unfold parse_equality. defined_tac. Qed.
Local Hint Resolve parse_equality_defined : defined.

Lemma parse_and_defined : defined (parse_and parse_expr).
Proof. unfold parse_and. defined_tac. Qed.
Local Hint Resolve parse_and_defined : defined.

Lemma parse_or_defined : defined (parse_or parse_expr).
Proof. unfold parse_or. defined_tac. Qed.
Local Hint Resolve parse_or_defined : defined.

Lemma parse_expr_body_defined : defined (parse_expr_body parse_expr).
Proof. unfold parse_expr_body. defined_tac. Qed.

Lemma parse_conditional_defined :
  defined (parse_conditional parse_expr parse_block).
Proof. unfold parse_conditional. defined_tac. Qed.

Lemma parse_while_defined : defined (parse_while parse_expr parse_block).
Proof. unfold parse_while. defined_tac. Qed.
Local Hint Resolve parse_conditional_defined parse_while_defined : defined.

Lemma parse_statement_defined :
  defined (parse_statement parse_expr parse_block).
Proof. unfold parse_statement. defined_tac. Qed.
Local Hint Resolve parse_statement_defined : defined.

Lemma parse_block_body_defined :
  defined (parse_block_body parse_expr parse_block).
Proof. unfold parse_block_body. defined_tac. Qed.

Lemma parse_funcdecl_defined : defined (parse_funcdecl parse_block).
Proof. unfold parse_funcdecl. defined_tac. Qed.
Local Hint Resolve parse_funcdecl_defined : defined.

Lemma parse_program_defined : defined (parse_program parse_block).
Proof. unfold parse_program, parse_program_step. defined_tac. Qed.

End RulesDefined.

Lemma parse_expr_defined n : defined (parse_expr n).
Proof.
  induction n as [|n IH]; [apply defined_out_of_fuel|].
  apply parse_expr_body_defined, IH.
Qed.

Lemma parse_block_defined n : defined (parse_block n).
Proof.
  induction n as [|n IH]; [apply defined_out_of_fuel|].
  change (parse_block (S n))
    with (parse_block_body (parse_expr (S n)) (parse_block n)).
  apply parse_block_body_defined; [apply parse_expr_defined | exact IH].
Qed.

Lemma parse_program_defined_at_depth n : defined (parse_program (parse_block n)).
Proof. apply parse_program_defined, parse_block_defined. Qed.

(** X17.  On a well-formed queue (every string literal at least two
    characters long and without an escape that its splice would copy text
    over, every identifier followed by a token) [parse] has no undefined
    behaviour and terminates: it returns a tree with the queue emptied, or
    it throws an error. *)
Theorem parse_returns_or_throws_on_well_formed_queues (q : TokenQueue) :
  well_formed q ->
  (exists node, parse (Some q) = OK (node, [])) \/ throws (parse (Some q)).
Proof.
  intros Hq.
  pose proof (parse_never_out_of_fuel (Some q)) as Hf.
  destruct (parse_program_defined_at_depth (S (List.length q)) q Hq)
    as [Hu _].
  change (parse_program (parse_block (S (List.length q))) q)
    with (parse (Some q)) in Hu.
  destruct (parse (Some q)) as [[node q']|e| |] eqn:E.
  - left. exists node.
    apply parse_program_returns_at_end in E. destruct E as [-> _].
    reflexivity.
  - right. exists e. reflexivity.
  - contradiction.
  - contradiction.
Qed.

Lemma splice_overlaps_undefined body :
  splice_overlaps body -> fix_escape body = None.
Proof.
  intros (pre & ch & post & H & Hp). exact (fix_escape_overlap _ _ _ _ H Hp).
Qed.

Lemma parse_returns_or_throws_on_well_formed_queues_witness :
  well_formed example_print_tokens
  /\ ((exists node, parse (Some example_print_tokens) = OK (node, []))
      \/ throws (parse (Some example_print_tokens))).
Proof.
  assert (H : well_formed example_print_tokens).
  { simpl. repeat split; try (intros; discriminate).
    - simpl. lia.
    - intros body E Ho. inversion E; subst.
      apply splice_overlaps_undefined in Ho. discriminate Ho. }
  split; [exact H|].
  exact (parse_returns_or_throws_on_well_formed_queues
           example_print_tokens H).
Defined.

(** ** Tokens leave the queue from the front *)

Lemma leaves_suffix_ret {A} (a : A) : leaves_suffix (ret a).
Proof. intros q a' q' E. inversion E; subst. exists []. reflexivity. Qed.

Lemma leaves_suffix_throw {A} f a : leaves_suffix (@Error_throw_printf A f a).
Proof. intros q a' q' E. discriminate. Qed.

Lemma leaves_suffix_undefined {A} : leaves_suffix (@undefined A).
Proof. intros q a' q' E. discriminate. Qed.

Lemma leaves_suffix_out_of_fuel {A} : leaves_suffix (@out_of_fuel A).
Proof. intros q a' q' E. discriminate. Qed.

Lemma leaves_suffix_bind {A B} (m : M A) (f : A -> M B) :
  leaves_suffix m -> (forall a, leaves_suffix (f a)) ->
  leaves_suffix (bind m f).
Proof.
  intros Hm Hf q b q' E. apply bind_inv in E.
  destruct E as (a & q1 & E1 & E2).
  destruct (Hm _ _ _ E1) as [p1 ->]. destruct (Hf _ _ _ _ E2) as [p2 ->].
  exists (p1 ++ p2)%list. rewrite <- app_assoc. reflexivity.
Qed.

Lemma pure_leaves_suffix {A} (m : M A) : pure m -> leaves_suffix m.
Proof.
  intros H q a q' E. destruct (H q) as [a' E']. rewrite E' in E.
  inversion E; subst. exists []. reflexivity.
Qed.

Lemma TokenQueue_remove_leaves_suffix : leaves_suffix TokenQueue_remove.
Proof.
  intros [|t q] a q' E; [discriminate|]. inversion E; subst.
  exists [a]. reflexivity.
Qed.

Lemma TokenQueue_peek_leaves_suffix : leaves_suffix TokenQueue_peek.
Proof.
  intros [|t q] a q' E; [discriminate|]. inversion E; subst.
  exists []. reflexivity.
Qed.

Lemma head_next_text_leaves_suffix : leaves_suffix head_next_text.
Proof.
  intros [|t [|t2 q]] a q' E; try discriminate. inversion E; subst.
  exists []. reflexivity.
Qed.

Lemma while_loop_leaves_suffix {St} (cond : M bool) (body : St -> M St) :
  leaves_suffix cond -> (forall s, leaves_suffix (body s)) ->
  forall k s, leaves_suffix (while_loop k cond body s).
Proof.
  intros Hc Hb. induction k as [|k IH]; intros s; simpl.
  - apply leaves_suffix_bind; [exact Hc|].
    intros [|]; [apply leaves_suffix_out_of_fuel | apply leaves_suffix_ret].
  - apply leaves_suffix_bind; [exact Hc|].
    intros [|]; [|apply leaves_suffix_ret].
    apply leaves_suffix_bind; [apply Hb|]. intros s'. apply IH.
Qed.

Lemma while_leaves_suffix {St} (cond : M bool) (body : St -> M St) s :
  leaves_suffix cond -> (forall s, leaves_suffix (body s)) ->
  leaves_suffix (while cond body s).
Proof.
  intros Hc Hb q. unfold while. apply (while_loop_leaves_suffix _ _ Hc Hb).
Qed.

Create HintDb suffix.
#[export] Hint Resolve TokenQueue_remove_leaves_suffix
  TokenQueue_peek_leaves_suffix head_next_text_leaves_suffix : suffix.

(** A proof of [leaves_suffix] follows the rule, like [consumes_tac]. *)
Ltac suffix_tac :=
  let rec go :=
    cbv beta;
    lazymatch goal with
    | |- leaves_suffix (bind _ _) =>
        apply leaves_suffix_bind; [go | intros ?; go]
    | |- leaves_suffix (ret _) => apply leaves_suffix_ret
    | |- leaves_suffix (Error_throw_printf _ _) => apply leaves_suffix_throw
    | |- leaves_suffix undefined => apply leaves_suffix_undefined
    | |- leaves_suffix out_of_fuel => apply leaves_suffix_out_of_fuel
    | |- leaves_suffix (if ?b then _ else _) => destruct b; go
    | |- leaves_suffix (match ?x with Some _ => _ | None => _ end) =>
        destruct x; go
    | |- leaves_suffix (andM _ _) => unfold andM; go
    | |- leaves_suffix (while _ _ _) =>
        apply while_leaves_suffix; [go | intros ?; go]
    | |- leaves_suffix _ =>
        first [ solve [apply pure_leaves_suffix; auto with pure]
              | solve [auto with suffix] ]
    end
  in go.

Lemma get_next_token_line_leaves_suffix : leaves_suffix get_next_token_line.
Proof. unfold get_next_token_line. suffix_tac. Qed.
#[export] Hint Resolve get_next_token_line_leaves_suffix : suffix.

Lemma match_and_discard_next_token_leaves_suffix ty txt :
  leaves_suffix (match_and_discard_next_token ty txt).
Proof. unfold match_and_discard_next_token. suffix_tac. Qed.

Lemma parse_type_leaves_suffix : leaves_suffix parse_type.
Proof. unfold parse_type. suffix_tac. Qed.

Lemma parse_id_leaves_suffix : leaves_suffix parse_id.
Proof. unfold parse_id. suffix_tac. Qed.
#[export] Hint Resolve match_and_discard_next_token_leaves_suffix
  parse_type_leaves_suffix parse_id_leaves_suffix : suffix.

Lemma parse_vardecl_leaves_suffix : leaves_suffix parse_vardecl.
Proof. unfold parse_vardecl. suffix_tac. Qed.

Lemma parse_params_leaves_suffix : leaves_suffix parse_params.
Proof. unfold parse_params. suffix_tac. Qed.

Lemma parse_lit_leaves_suffix : leaves_suffix parse_lit.
Proof. unfold parse_lit. suffix_tac. Qed.
#[export] Hint Resolve parse_vardecl_leaves_suffix parse_params_leaves_suffix
  parse_lit_leaves_suffix : suffix.

Section RulesSuffix.

Variables parse_expr parse_block : M ASTNode.
Hypothesis parse_expr_leaves_suffix : leaves_suffix parse_expr.
Hypothesis parse_block_leaves_suffix : leaves_suffix parse_block.

Local Hint Resolve parse_expr_leaves_suffix parse_block_leaves_suffix : suffix.

Lemma parse_args_leaves_suffix : leaves_suffix (parse_args parse_expr).
Proof. unfold parse_args. suffix_tac. Qed.
Local Hint Resolve parse_args_leaves_suffix : suffix.

Lemma parse_funccall_leaves_suffix : leaves_suffix (parse_funccall parse_expr).
Proof. unfold parse_funccall. suffix_tac. Qed.

Lemma parse_loc_leaves_suffix : leaves_suffix (parse_loc parse_expr).
Proof. unfold parse_loc. suffix_tac. Qed.

Lemma id_then_paren_leaves_suffix : leaves_suffix id_then_paren.
Proof. unfold id_then_paren. suffix_tac. Qed.
Local Hint Resolve parse_funccall_leaves_suffix parse_loc_leaves_suffix
  id_then_paren_leaves_suffix : suffix.

Lemma parse_base_expr_leaves_suffix :
  leaves_suffix (parse_base_expr parse_expr).
Proof. unfold parse_base_expr. suffix_tac. Qed.
Local Hint Resolve parse_base_expr_leaves_suffix : suffix.

Lemma parse_neg_leaves_suffix : leaves_suffix (parse_neg parse_expr).
Proof. unfold parse_neg. suffix_tac. Qed.
Local Hint Resolve parse_neg_leaves_suffix : suffix.

Lemma parse_mult_leaves_suffix : leaves_suffix (parse_mult parse_expr).
Proof. unfold parse_mult. suffix_tac. Qed.
Local Hint Resolve parse_mult_leaves_suffix : suffix.

Lemma parse_arith_leaves_suffix : leaves_suffix (parse_arith parse_expr).
Proof. unfold parse_arith. suffix_tac. Qed.
Local Hint Resolve parse_arith_leaves_suffix : suffix.

Lemma parse_relational_leaves_suffix :
  leaves_suffix (parse_relational parse_expr).
Proof. unfold parse_relational. suffix_tac. Qed.
Local Hint Resolve parse_relational_leaves_suffix : suffix.

Lemma parse_equality_leaves_suffix : leaves_suffix (parse_equality parse_expr).
Proof. unfold parse_equality. suffix_tac. Qed.
Local Hint Resolve parse_equality_leaves_suffix : suffix.

Lemma parse_and_leaves_suffix : leaves_suffix (parse_and parse_expr).
Proof. unfold parse_and. suffix_tac. Qed.
Local Hint Resolve parse_and_leaves_suffix : suffix.

Lemma parse_or_leaves_suffix : leaves_suffix (parse_or parse_expr).
Proof. unfold parse_or. suffix_tac. Qed.
Local Hint Resolve parse_or_leaves_suffix : suffix.

Lemma parse_expr_body_leaves_suffix :
  leaves_suffix (parse_expr_body parse_expr).
Proof. unfold parse_expr_body. suffix_tac. Qed.

Lemma parse_conditional_leaves_suffix :
  leaves_suffix (parse_conditional parse_expr parse_block).
Proof. unfold parse_conditional. suffix_tac. Qed.

Lemma parse_while_leaves_suffix :
  leaves_suffix (parse_while parse_expr parse_block).
Proof. unfold parse_while. suffix_tac. Qed.
Local Hint Resolve parse_conditional_leaves_suffix
  parse_while_leaves_suffix : suffix.

Lemma parse_statement_leaves_suffix :
  leaves_suffix (parse_statement parse_expr parse_block).
Proof. unfold parse_statement. suffix_tac. Qed.
Local Hint Resolve parse_statement_leaves_suffix : suffix.

Lemma parse_block_body_leaves_suffix :
  leaves_suffix (parse_block_body parse_expr parse_block).
Proof. unfold parse_block_body. suffix_tac. Qed.

Lemma parse_funcdecl_leaves_suffix : leaves_suffix (parse_funcdecl parse_block).
Proof. unfold parse_funcdecl. suffix_tac. Qed.

End RulesSuffix.

Lemma parse_expr_leaves_suffix n : leaves_suffix (parse_expr n).
Proof.
  induction n as [|n IH]; [apply leaves_suffix_out_of_fuel|].
  apply parse_expr_body_leaves_suffix, IH.
Qed.

Lemma parse_block_leaves_suffix n : leaves_suffix (parse_block n).
Proof.
  induction n as [|n IH]; [apply leaves_suffix_out_of_fuel|].
  change (parse_block (S n))
    with (parse_block_body (parse_expr (S n)) (parse_block n)).
  apply parse_block_body_leaves_suffix;
    [apply parse_expr_leaves_suffix | exact IH].
Qed.

Lemma takes_prefix_intro {A} (m : M A) :
  leaves_suffix m -> consumes 1 m -> takes_prefix m.
Proof.
  intros Hs Hc q a q' E. destruct (Hs _ _ _ E) as [pre ->].
  exists pre. split; [|reflexivity].
  intros ->. apply Hc in E. simpl in E. lia.
Qed.

(** X18.  Every rule that returns has removed a non-empty run of tokens
    from the front of the queue and left the rest as it was: no rule
    returns without consuming, none reorders or inserts tokens.  This is
    what makes the loops of the parser end. *)
Theorem rules_take_a_prefix (n : nat) :
  takes_prefix parse_type /\ takes_prefix parse_id
  /\ takes_prefix parse_vardecl /\ takes_prefix parse_params
  /\ takes_prefix parse_lit
  /\ takes_prefix (parse_funccall (parse_expr n))
  /\ takes_prefix (parse_loc (parse_expr n))
  /\ takes_prefix (parse_base_expr (parse_expr n))
  /\ takes_prefix (parse_expr n)
  /\ takes_prefix (parse_statement (parse_expr n) (parse_block n))
  /\ takes_prefix (parse_block n)
  /\ takes_prefix (parse_funcdecl (parse_block n)).
Proof.
  pose proof (parse_expr_leaves_suffix n) as HE.
  pose proof (parse_block_leaves_suffix n) as HB.
  assert (HE0 : consumes 0 (parse_expr n))
    by (eapply consumes_weaken; [|apply parse_expr_consumes]; lia).
  assert (HB0 : consumes 0 (parse_block n))
    by (eapply consumes_weaken; [|apply parse_block_consumes]; lia).
  repeat split; apply takes_prefix_intro;
    auto using parse_type_leaves_suffix, parse_id_leaves_suffix,
      parse_vardecl_leaves_suffix, parse_params_leaves_suffix,
      parse_lit_leaves_suffix, parse_funccall_leaves_suffix,
      parse_loc_leaves_suffix, parse_base_expr_leaves_suffix,
      parse_statement_leaves_suffix, parse_funcdecl_leaves_suffix,
      parse_type_consumes, parse_id_consumes, parse_vardecl_consumes,
      parse_params_consumes, parse_lit_consumes, parse_funccall_consumes,
      parse_loc_consumes, parse_base_expr_consumes, parse_expr_consumes,
      parse_statement_consumes, parse_block_consumes, parse_funcdecl_consumes.
Qed.

(** X19.  [parse] ends on every input: the depth the model gives it, one
    more than the number of tokens, is never used up, so the outcome is a
    tree, an error, or undefined behaviour, and never a run cut short. *)
Theorem parse_terminates (input : option TokenQueue) :
  match parse input with
  | OutOfFuel => False
  | _ => True
  end.
Proof.
  pose proof (parse_never_out_of_fuel input) as H.
  destruct (parse input); try exact I. apply H. reflexivity.
Qed.

(** X20.  No rule reads a token that is not there: called at the end of
    the input, every rule throws its own error before it looks at the
    queue, whatever the rules it calls would do.  The message of
    [parse_base_expr] lacks its closing parenthesis and its newline;
    [parse_loc], [parse_while] and [parse_conditional] report line 1.
    [parse] throws on a null queue and gives the empty program on an empty
    one. *)
Theorem rules_throw_at_end_of_input (parse_expr parse_block : M ASTNode) :
  (parse_type [] = Throw (EndOfInput "int, bool, or void")
   /\ parse_id [] = Throw (EndOfInput "id token")
   /\ parse_vardecl [] = Throw (EndOfInput "type")
   /\ parse_params [] = Throw (EndOfInput "type")
   /\ parse_lit [] = Throw (EndOfInput "DEC, HEX, STR, false, or true")
   /\ parse_args parse_expr [] = Throw (EndOfInput "expr")
   /\ parse_funccall parse_expr [] = Throw (EndOfInput "ID")
   /\ parse_neg parse_expr [] = Throw (EndOfInput "unary operator: - or !")
   /\ parse_block_body parse_expr parse_block [] = Throw (EndOfInput "'{'")
   /\ parse_funcdecl parse_block [] = Throw (EndOfInput "'def'"))
  /\ (parse_base_expr parse_expr []
      = Throw (mkError
                 "Unexpected end of input (expected another expression, location, function call, or literal"
                 [])
      /\ parse_loc parse_expr [] = Throw (NotFound "Location")
      /\ parse_while parse_expr parse_block [] = Throw (NotFound "While loop")
      /\ parse_conditional parse_expr parse_block []
         = Throw (NotFound "Conditional"))
  /\ (parse_mult parse_expr [] = Throw UnexpectedEndOfInput
      /\ parse_arith parse_expr [] = Throw UnexpectedEndOfInput
      /\ parse_relational parse_expr [] = Throw UnexpectedEndOfInput
      /\ parse_equality parse_expr [] = Throw UnexpectedEndOfInput
      /\ parse_and parse_expr [] = Throw UnexpectedEndOfInput
      /\ parse_or parse_expr [] = Throw UnexpectedEndOfInput
      /\ parse_expr_body parse_expr [] = Throw UnexpectedEndOfInput
      /\ parse_statement parse_expr parse_block []
         = Throw UnexpectedEndOfInput)
  /\ parse None
     = Throw (mkError ("TokenQueue is NULL there are no tokens to parse" ++ LF)
                      [])
  /\ parse (Some []) = OK (ProgramNode [] [], []).
Proof. repeat split. Qed.
